(** * AFIO v2: io_service post queue, entities_guard and the hex utilities

    A shallow embedding of
    - [utils::to_hex_string] / [utils::from_hex_string]   (utils.hpp),
    - [shared_fs_mutex::entities_guard]                   (shared_fs_mutex/base.hpp),
    - [io_service]'s post queue and work counter          (io_service.hpp),
    - [shared_fs_mutex::lock] and [try_lock]              (shared_fs_mutex/base.hpp),
    - [utils::random_string], the page size helpers and
      [utils::secded_ecc]                                 (utils.hpp).

    Conventions.  [size_t] is a 64-bit unsigned integer, modelled as a [Z]
    kept in the range [0, 2^64) by [wrap].  A [char] buffer handed to a
    function together with its length is a [list Z] of bytes; every access
    is checked against the extent of the list, and an access outside of it
    is a [Fault]: the C++ program has undefined behaviour there. *)

From Stdlib Require Import ZArith Lia.
From stdpp Require Import base tactics option list numbers.

Local Open Scope Z_scope.

(** ** Results of running a piece of code *)

Inductive fault : Type :=
| InvalidArgument      (* std::invalid_argument thrown *)
| OutOfBoundsRead (i : Z)
| OutOfBoundsWrite (i : Z)
| OutOfFuel.

Inductive result (A : Type) : Type :=
| Ok (a : A)
| Fault (e : fault).
Arguments Ok {A} a.
Arguments Fault {A} e.

#[global] Instance result_bind : MBind result := fun A B k r =>
  match r with
  | Ok a => k a
  | Fault e => Fault e
  end.

Module Hex.

(** [size_t] arithmetic wraps modulo 2^64. *)
Definition size_max : Z := 2 ^ 64.
Definition wrap (z : Z) : Z := z mod size_max.

(** [buf[i]] as an rvalue and [buf[i] = v], for a [size_t] index: the
    element is in the buffer when [0 <= i < length]. *)
Definition rd (buf : list Z) (i : Z) : result Z :=
  if decide (0 <= i < Z.of_nat (length buf))
  then match buf !! Z.to_nat i with
       | Some v => Ok v
       | None => Fault (OutOfBoundsRead i)
       end
  else Fault (OutOfBoundsRead i).

Definition wr (buf : list Z) (i : Z) (v : Z) : result (list Z) :=
  if decide (0 <= i < Z.of_nat (length buf))
  then Ok (<[Z.to_nat i := v]> buf)
  else Fault (OutOfBoundsWrite i).

(** [static constexpr char table[] = "0123456789abcdef";] *)
Definition table : list Z :=
  [48; 49; 50; 51; 52; 53; 54; 55; 56; 57; 97; 98; 99; 100; 101; 102].

Definition hexdigit (k : Z) : Z := default 0 (table !! Z.to_nat k).

(** [table[(in[i] >> 4) & 0xf]] and [table[in[i] & 0xf]] *)
Definition hi_digit (inp : list Z) (i : Z) : result Z :=
  b ← rd inp i; Ok (hexdigit (Z.land (Z.shiftr b 4) 15)).
Definition lo_digit (inp : list Z) (i : Z) : result Z :=
  b ← rd inp i; Ok (hexdigit (Z.land b 15)).

(** The body of the [for] loop of [to_hex_string], statement by
    statement, and the loop
    [for (size_t n = inlen - 2; n <= inlen - 2; n -= 2)]. *)
Definition to_hex_body (inp : list Z) (n : Z) (out : list Z) : result (list Z) :=
  d ← hi_digit inp (wrap (n + 1)); out ← wr out (wrap (n * 2 + 3)) d;
  d ← lo_digit inp (wrap (n + 1)); out ← wr out (wrap (n * 2 + 2)) d;
  d ← hi_digit inp n;              out ← wr out (wrap (n * 2 + 1)) d;
  d ← lo_digit inp n;              wr out (wrap (n * 2 + 0)) d.

Fixpoint to_hex_loop (fuel : nat) (inp : list Z) (inlen : Z) (n : Z)
    (out : list Z) : result (list Z) :=
  match fuel with
  | O => Fault OutOfFuel
  | S fuel' =>
      if n <=? wrap (inlen - 2)
      then out' ← to_hex_body inp n out;
           to_hex_loop fuel' inp inlen (wrap (n - 2)) out'
      else Ok out
  end.

(** [size_t to_hex_string(char *out, size_t outlen, const char *in, size_t inlen)].
    Returns the written buffer and the returned length. *)
Definition to_hex_string (out : list Z) (outlen : Z) (inp : list Z) (inlen : Z)
    : result (list Z * Z) :=
  if outlen <? wrap (inlen * 2) then Fault InvalidArgument
  else
    out ← to_hex_loop (S (S (Z.to_nat inlen))) inp inlen (wrap (inlen - 2)) out;
    out ← (if Z.land inlen 1 =? 0 then Ok out
           else d ← hi_digit inp 0; out ← wr out 1 d;
                d ← lo_digit inp 0; wr out 0 d);
    Ok (out, wrap (inlen * 2)).

(** [std::string to_hex_string(std::string in)]: the output string has
    [in.size() * 2] characters, initially blanks. *)
Definition to_hex_string_s (inp : list Z) : result (list Z) :=
  let inlen := Z.of_nat (length inp) in
  let out := replicate (Z.to_nat (wrap (inlen * 2))) 32 in
  r ← to_hex_string out (Z.of_nat (length out)) inp inlen;
  Ok (fst r).

(** The lookup table of the [fromhex] lambda, for characters 48 .. 102. *)
Definition fromhex_table : list Z :=
  [0; 1; 2; 3; 4; 5; 6; 7; 8; 9;
   255; 255; 255; 255; 255; 255; 255;
   10; 11; 12; 13; 14; 15;
   255; 255; 255; 255; 255; 255; 255; 255; 255; 255; 255; 255; 255;
   255; 255; 255; 255; 255; 255; 255; 255; 255; 255; 255; 255; 255;
   10; 11; 12; 13; 14; 15].

(** [fromhex(c)] returns the digit and the new value of the captured
    [is_invalid] flag. *)
Definition fromhex (is_invalid : bool) (c : Z) : Z * bool :=
  let r := if (48 <=? c) && (c <=? 102)
           then default 255 (fromhex_table !! Z.to_nat (c - 48))
           else 255 in
  (r, if r =? 255 then true else is_invalid).

(** [(hi << 4) | lo] stored into a [char]. *)
Definition pack (hi lo : Z) : Z := Z.lor (Z.shiftl hi 4) lo mod 256.

(** State threaded through the two loops of [from_hex_string]. *)
Definition fh_state : Type := list Z * bool.

Definition fh_get (inp : list Z) (i : Z) (inv : bool) : result (Z * bool) :=
  c ← rd inp i; Ok (fromhex inv c).

(** Body of the first loop (four output bytes per iteration). *)
Definition from_hex_body4 (inp : list Z) (n : Z) (st : fh_state) : result fh_state :=
  let '(out, inv) := st in
  c0 ← fh_get inp (wrap (n * 2)) inv;
  c1 ← fh_get inp (wrap (n * 2 + 1)) (snd c0);
  c2 ← fh_get inp (wrap (n * 2 + 2)) (snd c1);
  c3 ← fh_get inp (wrap (n * 2 + 3)) (snd c2);
  out ← wr out n (pack (fst c1) (fst c0));
  c4 ← fh_get inp (wrap (n * 2 + 4)) (snd c3);
  c5 ← fh_get inp (wrap (n * 2 + 5)) (snd c4);
  out ← wr out (wrap (n + 1)) (pack (fst c3) (fst c2));
  c6 ← fh_get inp (wrap (n * 2 + 6)) (snd c5);
  c7 ← fh_get inp (wrap (n * 2 + 7)) (snd c6);
  out ← wr out (wrap (n + 2)) (pack (fst c5) (fst c4));
  out ← wr out (wrap (n + 3)) (pack (fst c7) (fst c6));
  Ok (out, snd c7).

(** [for (size_t n = 0; n < inlen / 2; n += 4)] *)
Fixpoint from_hex_loop4 (fuel : nat) (inp : list Z) (inlen : Z) (n : Z)
    (st : fh_state) : result fh_state :=
  match fuel with
  | O => Fault OutOfFuel
  | S fuel' =>
      if n <? inlen / 2
      then st' ← from_hex_body4 inp n st;
           from_hex_loop4 fuel' inp inlen (wrap (n + 4)) st'
      else Ok st
  end.

(** Body of the second loop (one output byte per iteration). *)
Definition from_hex_body1 (inp : list Z) (n : Z) (st : fh_state) : result fh_state :=
  let '(out, inv) := st in
  c1 ← fh_get inp (wrap (n * 2)) inv;
  c2 ← fh_get inp (wrap (n * 2 + 1)) (snd c1);
  out ← wr out n (pack (fst c2) (fst c1));
  Ok (out, snd c2).

(** [for (size_t n = inlen / 2 - (inlen / 2) % 4; n < inlen / 2; n++)] *)
Fixpoint from_hex_loop1 (fuel : nat) (inp : list Z) (inlen : Z) (n : Z)
    (st : fh_state) : result fh_state :=
  match fuel with
  | O => Fault OutOfFuel
  | S fuel' =>
      if n <? inlen / 2
      then st' ← from_hex_body1 inp n st;
           from_hex_loop1 fuel' inp inlen (wrap (n + 1)) st'
      else Ok st
  end.

(** [size_t from_hex_string(char *out, size_t outlen, const char *in, size_t inlen)] *)
Definition from_hex_string (out : list Z) (outlen : Z) (inp : list Z) (inlen : Z)
    : result (list Z * Z) :=
  if negb (inlen mod 2 =? 0) then Fault InvalidArgument
  else if outlen <? inlen / 2 then Fault InvalidArgument
  else
    let fuel := S (Z.to_nat inlen) in
    st ← from_hex_loop4 fuel inp inlen 0 (out, false);
    st ← from_hex_loop1 fuel inp inlen
           (wrap (inlen / 2 - (inlen / 2) mod 4)) st;
    if (snd st : bool) then Fault InvalidArgument
    else Ok (fst st, inlen / 2).

(** Decoding into a buffer of exactly [inlen / 2] bytes. *)
Definition from_hex_string_s (inp : list Z) : result (list Z) :=
  let inlen := Z.of_nat (length inp) in
  let out := replicate (Z.to_nat (inlen / 2)) 0 in
  r ← from_hex_string out (Z.of_nat (length out)) inp inlen;
  Ok (fst r).

(** The round trip: encode a buffer, then decode the encoding. *)
Definition round_trip (b : list Z) : result (list Z) :=
  h ← to_hex_string_s b; from_hex_string_s h.

(** What the encoding of a buffer should be: for each byte the digit of
    its low nibble, then the digit of its high nibble. *)
Definition is_byte (x : Z) : Prop := 0 <= x < 256.

Definition encode_byte (x : Z) : list Z :=
  [hexdigit (Z.land x 15); hexdigit (Z.land (Z.shiftr x 4) 15)].

Fixpoint encode (b : list Z) : list Z :=
  match b with
  | [] => []
  | x :: b' => encode_byte x ++ encode b'
  end.

(** Encoding a byte and decoding its two digits gives the byte back and
    does not raise [is_invalid]. *)
Definition byte_round_trips (v : Z) : bool :=
  let c0 := fromhex false (hexdigit (Z.land v 15)) in
  let c1 := fromhex (snd c0) (hexdigit (Z.land (Z.shiftr v 4) 15)) in
  (pack (fst c1) (fst c0) =? v) && negb (snd c1) && negb (snd c0).

End Hex.


(** ** shared_fs_mutex::entities_guard *)

Module Guard.

Local Open Scope nat_scope.

(** [entity_type]: a 63 bit value and the exclusive bit. *)
Record entity_type := { value : Z; exclusive : bool }.

(** Where a [span<entity_type>] points: nowhere, at storage owned by the
    caller, or at the [_entity] member of the guard object at an address. *)
Inductive data_ptr :=
| NullData
| External (a : nat)
| EntityOf (g : nat).

(** [entities_type = span<entity_type>]: a pointer and a count. *)
Record entities_type := { data : data_ptr; size : nat }.

(** [entities_type()] *)
Definition empty_span : entities_type := {| data := NullData; size := 0 |}.

#[global] Instance data_ptr_eq_dec : EqDecision data_ptr.
Proof. solve_decision. Defined.
#[global] Instance entities_type_eq_dec : EqDecision entities_type.
Proof. solve_decision. Defined.

(** The members of an [entities_guard]; [parent] is [None] for [nullptr],
    otherwise the address of the [shared_fs_mutex]. *)
Record entities_guard := {
  _entity : entity_type;
  parent : option nat;
  entities : entities_type;
  hint : Z
}.

(** One call [parent->unlock(entities, hint)]. *)
Record unlock_call := { uc_parent : nat; uc_entities : entities_type; uc_hint : Z }.

(** The guard objects of the program, by address ([None]: no live object
    at that address), and the calls made to [shared_fs_mutex::unlock]. *)
Record world := {
  objs : list (option entities_guard);
  unlock_calls : list unlock_call
}.

Definition get (this : nat) (w : world) : option entities_guard :=
  mjoin (objs w !! this).

Definition put (this : nat) (slot : option entities_guard) (w : world) : world :=
  {| objs := <[this := slot]> (objs w); unlock_calls := unlock_calls w |}.

(** Raw storage for one more guard object; its address is returned. *)
Definition alloc (w : world) : nat * world :=
  (length (objs w), {| objs := objs w ++ [None]; unlock_calls := unlock_calls w |}).

(** [entities_guard() = default;]: no member has an initialiser, so a
    default-initialised guard has the members [g] that its storage
    happens to contain. *)
Definition ctor_default (this : nat) (g : entities_guard) (w : world) : world :=
  put this (Some g) w.

(** [entities_guard(shared_fs_mutex *_parent, entities_type _entities)] *)
Definition ctor_span (this : nat) (_parent : option nat) (_entities : entities_type)
    (w : world) : world :=
  put this (Some {| _entity := {| value := 0; exclusive := false |};
                    parent := _parent; entities := _entities; hint := 0 |}) w.

(** [entities_guard(shared_fs_mutex *_parent, entity_type entity)] *)
Definition ctor_entity (this : nat) (_parent : option nat) (entity : entity_type)
    (w : world) : world :=
  put this (Some {| _entity := entity; parent := _parent;
                    entities := {| data := EntityOf this; size := 1 |};
                    hint := 0 |}) w.

(** [void release() noexcept] *)
Definition release (this : nat) (w : world) : option world :=
  g ← get this w;
  Some (put this (Some {| _entity := _entity g; parent := None;
                          entities := empty_span; hint := hint g |}) w).

(** [void unlock() noexcept] *)
Definition unlock (this : nat) (w : world) : option world :=
  g ← get this w;
  match parent g with
  | Some p =>
      release this
        {| objs := objs w;
           unlock_calls := unlock_calls w ++
             [{| uc_parent := p; uc_entities := entities g; uc_hint := hint g |}] |}
  | None => Some w
  end.

(** [~entities_guard()]; afterwards no object lives at [this]. *)
Definition dtor (this : nat) (w : world) : option world :=
  g ← get this w;
  w' ← match parent g with
       | Some _ => unlock this w
       | None => Some w
       end;
  Some (put this None w').

(** [explicit operator bool() const noexcept] and [operator!]. *)
Definition operator_bool (g : entities_guard) : bool :=
  match parent g with Some _ => true | None => false end.
Definition operator_not (g : entities_guard) : bool :=
  match parent g with Some _ => false | None => true end.

(** [entities_guard(entities_guard &&o) noexcept], constructing at [this]. *)
Definition move_ctor (this o : nat) (w : world) : option world :=
  go ← get o w;
  release o
    (put this (Some {| _entity := _entity go; parent := parent go;
                       entities := entities go; hint := hint go |}) w).

(** [entities_guard &operator=(entities_guard &&o) noexcept]:
    [this->~entities_guard(); new(this) entities_guard(std::move(o));] *)
Definition move_assign (this o : nat) (w : world) : option world :=
  w' ← dtor this w;
  move_ctor this o w'.

(** What a program can do with the guards it has. *)
Inductive op :=
| DefaultConstruct (g : entities_guard)
| Construct (_parent : option nat) (_entities : entities_type)
| ConstructEntity (_parent : option nat) (entity : entity_type)
| MoveConstruct (o : nat)
| MoveAssign (this o : nat)
| Unlock (this : nat)
| Release (this : nat)
| Destroy (this : nat).

Definition is_ctor (o : op) : bool :=
  match o with
  | DefaultConstruct _ | Construct _ _ | ConstructEntity _ _ => true
  | _ => false
  end.

(** One operation; [None] when it touches an address at which no guard
    lives.  Constructors build their object in fresh storage. *)
Definition step (o : op) (w : world) : option world :=
  match o with
  | DefaultConstruct g => let '(this, w') := alloc w in Some (ctor_default this g w')
  | Construct p e => let '(this, w') := alloc w in Some (ctor_span this p e w')
  | ConstructEntity p e => let '(this, w') := alloc w in Some (ctor_entity this p e w')
  | MoveConstruct o => let '(this, w') := alloc w in move_ctor this o w'
  | MoveAssign this o => move_assign this o w
  | Unlock this => unlock this w
  | Release this => release this w
  | Destroy this => dtor this w
  end.

Fixpoint run (ops : list op) (w : world) : option world :=
  match ops with
  | [] => Some w
  | o :: ops' => w' ← step o w; run ops' w'
  end.

Definition empty_world : world := {| objs := []; unlock_calls := [] |}.

(** A lock is identified by the mutex and the entities it was taken on. *)
Definition holds (p : nat) (e : entities_type) (slot : option entities_guard) : bool :=
  match slot with
  | Some g => bool_decide (parent g = Some p) && bool_decide (entities g = e)
  | None => false
  end.

Definition unlocks (p : nat) (e : entities_type) (c : unlock_call) : bool :=
  bool_decide (uc_parent c = p) && bool_decide (uc_entities c = e).

Definition count {A} (P : A -> bool) (l : list A) : nat :=
  length (filter (fun x => P x = true) l).

(** Number of live guards holding the lock, and number of times it was
    unlocked. *)
Definition holders (p : nat) (e : entities_type) (w : world) : nat :=
  count (holds p e) (objs w).
Definition unlocked (p : nat) (e : entities_type) (w : world) : nat :=
  count (unlocks p e) (unlock_calls w).

Definition b2n (b : bool) : nat := if b then 1 else 0.

#[global] Arguments holds : simpl never.
#[global] Arguments unlocks : simpl never.

(** The calls of [shared_fs_mutex::unlock] that [unlock()] on [g] makes. *)
Definition calls_of (g : entities_guard) : list unlock_call :=
  match parent g with
  | Some q => [{| uc_parent := q; uc_entities := entities g; uc_hint := hint g |}]
  | None => []
  end.

(** A lock moved from guard to guard and back by move assignment,
    unlocked twice, and both guards destroyed. *)
Definition demo_span : entities_type := {| data := External 100; size := 2 |}.
Definition demo_ops : list op :=
  [MoveConstruct 0; MoveAssign 0 1; Unlock 0; Unlock 0; Destroy 0; Destroy 1].
Definition demo_world : world :=
  {| objs := [None; None];
     unlock_calls := [{| uc_parent := 7; uc_entities := demo_span; uc_hint := 0 |}] |}.

End Guard.


(** ** io_service: post queue, work counter and run loop *)

Module IoService.

(** [size_type] is a 64-bit unsigned integer. *)
Definition wrap (z : Z) : Z := z mod 2 ^ 64.

(** A posted callable: the thread that made it, an identifier, and the
    callables it posts to the service when it is invoked (a callable may
    itself call [post]). *)
#[local] Unset Elimination Schemes.
Inductive callable := Callable (producer : nat) (id : nat) (posts : list callable).
#[local] Set Elimination Schemes.

Definition made_by (c : callable) : nat :=
  match c with Callable t _ _ => t end.
Definition reposts (c : callable) : list callable :=
  match c with Callable _ _ l => l end.

(** [struct post_info]: the back-pointer [service] and the callable [f].
    [addr] is the address of the element inside the deque (what [&i == pi]
    compares); [service = None] is [nullptr]; [f = None] is an empty
    [function_ptr]. *)
Record post_info := {
  addr : nat;
  service : option nat;
  f : option callable
}.

(** What the code did, in order (ghost state).  [EvNull] records whether
    [_posts_lock] was held and whether the entry's callable was already
    gone when the back-pointer was nulled; [EvPop] the element popped. *)
Inductive event :=
| EvWorkEnqueued (i : Z)
| EvWorkDone
| EvPush (a : nat) (c : callable)
| EvMoveOut (a : nat)
| EvInvoke (c : callable)
| EvReset (a : nat)
| EvNull (a : nat) (locked : bool) (released : bool)
| EvPop (i : post_info)
| EvSubmit (r : nat)
| EvComplete (r : nat)
| EvWake.

Record io_service := {
  self : nat;                    (* [this] *)
  _threadh : nat;                (* the owning thread *)
  _posts_lock : bool;            (* [true]: the mutex is held *)
  _posts : list post_info;       (* [std::deque<post_info>], front first *)
  _work_queued : Z;
  _aiocbsv : list nat;           (* the control blocks of the i/o in flight *)
  _need_signal : bool;
  next_addr : nat;               (* where the deque puts its next element *)
  trace : list event
}.

Definition set_lock (b : bool) (s : io_service) : io_service :=
  {| self := self s; _threadh := _threadh s; _posts_lock := b; _posts := _posts s;
     _work_queued := _work_queued s; _aiocbsv := _aiocbsv s;
     _need_signal := _need_signal s; next_addr := next_addr s; trace := trace s |}.

Definition set_posts (q : list post_info) (s : io_service) : io_service :=
  {| self := self s; _threadh := _threadh s; _posts_lock := _posts_lock s; _posts := q;
     _work_queued := _work_queued s; _aiocbsv := _aiocbsv s;
     _need_signal := _need_signal s; next_addr := next_addr s; trace := trace s |}.

Definition set_work (n : Z) (s : io_service) : io_service :=
  {| self := self s; _threadh := _threadh s; _posts_lock := _posts_lock s;
     _posts := _posts s; _work_queued := n; _aiocbsv := _aiocbsv s;
     _need_signal := _need_signal s; next_addr := next_addr s; trace := trace s |}.

Definition set_aiocbsv (v : list nat) (s : io_service) : io_service :=
  {| self := self s; _threadh := _threadh s; _posts_lock := _posts_lock s;
     _posts := _posts s; _work_queued := _work_queued s; _aiocbsv := v;
     _need_signal := _need_signal s; next_addr := next_addr s; trace := trace s |}.

Definition set_need_signal (b : bool) (s : io_service) : io_service :=
  {| self := self s; _threadh := _threadh s; _posts_lock := _posts_lock s;
     _posts := _posts s; _work_queued := _work_queued s; _aiocbsv := _aiocbsv s;
     _need_signal := b; next_addr := next_addr s; trace := trace s |}.

Definition set_next_addr (a : nat) (s : io_service) : io_service :=
  {| self := self s; _threadh := _threadh s; _posts_lock := _posts_lock s;
     _posts := _posts s; _work_queued := _work_queued s; _aiocbsv := _aiocbsv s;
     _need_signal := _need_signal s; next_addr := a; trace := trace s |}.

Definition log (evs : list event) (s : io_service) : io_service :=
  {| self := self s; _threadh := _threadh s; _posts_lock := _posts_lock s;
     _posts := _posts s; _work_queued := _work_queued s; _aiocbsv := _aiocbsv s;
     _need_signal := _need_signal s; next_addr := next_addr s;
     trace := trace s ++ evs |}.

(** Why a run of the code stops without returning. *)
Inductive halt :=
| FrontOfEmptyDeque   (* [std::deque::front()] on an empty deque: undefined behaviour *)
| Aborted             (* [assert(!pi)] failed / [abort()] *)
| EmptyCallable       (* an empty [function_ptr] was called *)
| Relocked.           (* [std::mutex::lock()] by the thread holding it *)

(** A run either finishes, or stops in the state [s] it had reached. *)
Inductive outcome (A : Type) :=
| Done (a : A)
| Halt (why : halt) (s : io_service).
Arguments Done {A} a.
Arguments Halt {A} why s.

#[global] Instance outcome_bind : MBind outcome := fun A B k r =>
  match r with
  | Done a => k a
  | Halt why s => Halt why s
  end.

(** The state a run got to, finished or not. *)
Definition state_of (r : outcome io_service) : io_service :=
  match r with
  | Done s => s
  | Halt _ s => s
  end.

(** [void _work_enqueued(size_type i = 1) { _work_queued += i; }] *)
Definition _work_enqueued (i : Z) (s : io_service) : io_service :=
  log [EvWorkEnqueued i] (set_work (wrap (_work_queued s + i)) s).

(** [void _work_done() { --_work_queued; }] *)
Definition _work_done (s : io_service) : io_service :=
  log [EvWorkDone] (set_work (wrap (_work_queued s - 1)) s).

(** [i.f.reset()] and [i.service = nullptr] on one element. *)
Definition reset_f (i : post_info) : post_info :=
  {| addr := addr i; service := service i; f := None |}.
Definition null_service (i : post_info) : post_info :=
  {| addr := addr i; service := None; f := f i |}.

(** The [for(auto &i : _posts)] loop of [__post_done]: the element at
    address [pi], if there is one, is reset and nulled.  Returns the new
    queue and what was done, or [None] when [pi] was not found. *)
Fixpoint find_and_null (locked : bool) (pi : nat) (q : list post_info)
    : option (list post_info * list event) :=
  match q with
  | [] => None
  | i :: q' =>
      if decide (addr i = pi)
      then let i1 := reset_f i in
           Some (null_service i1 :: q',
                 [EvReset (addr i);
                  EvNull (addr i) locked (bool_decide (f i1 = None))])
      else '(q'', evs) ← find_and_null locked pi q'; Some (i :: q'', evs)
  end.

(** [while(!_posts.front().service) _posts.pop_front();] on the queue:
    the elements popped, and the queue left, or [None] when [front()] is
    called on an empty deque. *)
Fixpoint pop_consumed (q : list post_info) : list event * option (list post_info) :=
  match q with
  | [] => ([], None)
  | i :: q' =>
      match service i with
      | None =>
          let '(evs, r) := pop_consumed q' in
          (EvPop i :: evs, r)
      | Some _ => ([], Some q)
      end
  end.

(** A [post_info *]: [nullptr], or the address of an object.  An address
    is read as the pointer to it. *)
Inductive pointer :=
| nullptr
| Ptr (a : nat).
Coercion Ptr : nat >-> pointer.

(** [void __post_done(post_info *pi)]  -- LOCK MUST BE HELD ON ENTRY!
    The loop sets [pi] to [nullptr] when it finds the element; [assert(!pi)]
    and [if(pi) abort();] stop the call when [pi] is still set.  No element
    is at [nullptr]: called with it, the loop changes nothing, the
    assertion holds, and [_work_done()] and the compaction loop run. *)
Definition __post_done (pi : pointer) (s : io_service) : outcome io_service :=
  let compact (s : io_service) : outcome io_service :=
    let s := _work_done s in
    let '(evs, r) := pop_consumed (_posts s) in
    match r with
    | Some q' => Done (log evs (set_posts q' s))
    | None => Halt FrontOfEmptyDeque (log evs (set_posts [] s))
    end in
  match pi with
  | nullptr => compact s
  | Ptr a =>
      match find_and_null (_posts_lock s) a (_posts s) with
      | None => Halt Aborted s
      | Some (q, evs) => compact (log evs (set_posts q s))
      end
  end.
Arguments __post_done pi%_nat_scope s.

(** [std::lock_guard<decltype(_posts_lock)> g(_posts_lock);] around [body]. *)
Definition lock_guard (body : io_service -> outcome io_service) (s : io_service)
    : outcome io_service :=
  if _posts_lock s then Halt Relocked s
  else s' ← body (set_lock true s); Done (set_lock false s').

(** [void _post_done(post_info *pi)] *)
Definition _post_done (pi : pointer) (s : io_service) : outcome io_service :=
  lock_guard (__post_done pi) s.
Arguments _post_done pi%_nat_scope s.


(** *** The parts of the service whose code is in the platform files *)

(** Modelled from the spec: the constructor [io_service::io_service()]
    (its body is in the platform [io_service.ipp]).  "A service is
    instantiated with no arguments; it captures the calling thread." *)
Definition io_service_new (this thread : nat) : io_service :=
  {| self := this; _threadh := thread; _posts_lock := false; _posts := [];
     _work_queued := 0; _aiocbsv := []; _need_signal := false;
     next_addr := 0; trace := [] |}.

(** Modelled from the spec: the enqueue step of [io_service::post],
    [_posts.push_back(post_info(this, f))]. *)
Definition push_back (c : callable) (s : io_service) : io_service :=
  let a := next_addr s in
  log [EvPush a c]
    (set_next_addr (S a)
      (set_posts (_posts s ++ [{| addr := a; service := Some (self s); f := Some c |}]) s)).

(** Modelled from the spec: the wake step of [io_service::post].
    Producers "atomically read-and-clear this flag; if it was true they
    fire the wake". *)
Definition wake_if_needed (s : io_service) : io_service :=
  if _need_signal s then log [EvWake] (set_need_signal false s) else s.

(** Modelled from the spec: [io_service::post] (declared in
    io_service.hpp, defined in the platform [io_service.ipp]).  "Enqueues
    the callable, increments the work counter, and -- if the owning thread
    is currently waiting -- fires the platform wake", the counter being
    "incremented before any registration that the run loop must observe". *)
Definition post (c : callable) (s : io_service) : outcome io_service :=
  let s := _work_enqueued 1 s in
  s ← lock_guard (fun s => Done (push_back c s)) s;
  Done (wake_if_needed s).

Fixpoint post_all (cs : list callable) (s : io_service) : outcome io_service :=
  match cs with
  | [] => Done s
  | c :: cs' => s' ← post c s; post_all cs' s'
  end.

(** Modelled from the spec: submission of an i/o by an async handle (the
    code is in [async_file_handle]).  The work counter is written "on I/O
    start" and "requests register their aiocb in the service's per-service
    vector _aiocbsv". *)
Definition submit (r : nat) (s : io_service) : io_service :=
  let s := _work_enqueued 1 s in
  log [EvSubmit r] (set_aiocbsv (_aiocbsv s ++ [r]) s).

(** [_aiocbsv] without the first occurrence of [r]. *)
Fixpoint remove_first (r : nat) (v : list nat) : list nat :=
  match v with
  | [] => []
  | x :: v' => if decide (x = r) then v' else x :: remove_first r v'
  end.

Definition in_flight (r : nat) (s : io_service) : bool :=
  bool_decide (r ∈ _aiocbsv s).

(** Modelled from the spec: delivery of the completion of request [r]
    (platform [io_service.ipp] / [async_file_handle]).  The owner "fires
    its completion hook, and removes it from the vector"; "decrementers:
    completion delivery"; dispatch is at most once per request, so nothing
    happens for a request that is not in flight. *)
Definition complete (r : nat) (s : io_service) : io_service :=
  if in_flight r s
  then _work_done (log [EvComplete r] (set_aiocbsv (remove_first r (_aiocbsv s)) s))
  else s.

(** Modelled from the spec: what invoking a posted callable on the
    owning thread does to the service; "callables may themselves call
    post".  It runs, and posts what it posts. *)
Definition invoke (c : callable) (s : io_service) : outcome io_service :=
  post_all (reposts c) (log [EvInvoke c] s).

(** Modelled from the spec: "take the post lock, move out the front
    callable, drop the lock" of the dispatch inside [run_until]. *)
Definition move_out_front (s : io_service) : outcome (callable * nat) :=
  match _posts s with
  | [] => Halt FrontOfEmptyDeque s
  | i :: q =>
      match f i with
      | Some c => Done (c, addr i)
      | None => Halt EmptyCallable s
      end
  end.

(** Modelled from the spec: the front element after its callable was
    moved out of it, [f = std::move(_posts.front().f)]. *)
Definition clear_front_f (s : io_service) : io_service :=
  match _posts s with
  | [] => s
  | i :: q => log [EvMoveOut (addr i)] (set_posts (reset_f i :: q) s)
  end.

(** Modelled from the spec: post dispatch inside [run_until] (platform
    [io_service.ipp]); the last three steps are [_post_done] of
    io_service.hpp.  "Take the post lock, move out the front callable, drop
    the lock, invoke the callable, reacquire the lock to mark the slot
    consumed, decrement the work counter, and pop consumed prefix
    entries." *)
Definition dispatch (s : io_service) : outcome io_service :=
  '(c, pi) ← move_out_front s;
  s ← lock_guard (fun s => Done (clear_front_f s)) s;
  s ← invoke c s;
  _post_done (Ptr pi) s.

(** Modelled from the spec: the [deadline] type (deadline.h is not in
    the sources at hand).  "Deadline encoding: { is_relative: bool,
    seconds: u64, nanoseconds: u32 }, with a distinguished never value." *)
Inductive deadline :=
| Never
| Deadline (is_relative : bool) (seconds nanoseconds : Z).

(** Modelled from the spec: which deadlines [run_until] rejects.
    "Malformed deadlines (e.g., nanoseconds >= 10^9) yield
    invalid-argument"; the fields are a u64 and a u32. *)
Definition malformed (d : deadline) : bool :=
  match d with
  | Never => false
  | Deadline _ sec ns =>
      negb ((0 <=? sec) && (sec <? 2 ^ 64) && (0 <=? ns) && (ns <? 10 ^ 9))
  end.

Inductive errc := timed_out | operation_not_supported | invalid_argument.

(** What [run_until] does for its caller: return a [result<bool>], stop
    ([Halt]), or never return (a wait without deadline that nothing ends). *)
Inductive returned :=
| RetOk (b : bool)
| RetErr (e : errc)
| RetHalt (why : halt)
| Blocks.

(** What happens around one call of [run_until]: the clock when it is
    entered (nanoseconds), and the request, if any, whose i/o completes
    while the call waits, with the time the completion takes to arrive. *)
Record env := {
  now : Z;
  completion : option (nat * Z)
}.

(** Modelled from the spec: the conversion of the deadline of
    [run_until] into the time the call may wait, in nanoseconds; [None]
    is for ever.  A relative deadline counts from the call, an absolute
    one from the clock. *)
Definition remaining (d : deadline) (e : env) : option Z :=
  match d with
  | Never => None
  | Deadline true sec ns => Some (sec * 10 ^ 9 + ns)
  | Deadline false sec ns => Some (Z.max 0 (sec * 10 ^ 9 + ns - now e))
  end.

Record tick := {
  after : io_service;     (* the service when the call is over *)
  result_of : returned;
  elapsed : Z             (* nanoseconds spent in the call *)
}.

(** Modelled from the spec: the backend contract
    "wait_one(deadline) -> CompletedOrTimeout".  The completion, if any,
    of a request in flight that arrives within the time the call may
    wait. *)
Definition wait_one (d : deadline) (e : env) (s : io_service) : option (nat * Z) :=
  match completion e with
  | Some (r, dt) =>
      if in_flight r s && (0 <=? dt)
         && match remaining d e with Some t => dt <=? t | None => true end
      then Some (r, dt) else None
  | None => None
  end.

(** Modelled from the spec: [io_service::run_until] (declared in
    io_service.hpp, defined in the platform [io_service.ipp]).
    "1. If called from a non-owning thread: fail with not-supported.
     2. If deadline is malformed: fail with invalid-argument.
     3. If work counter is zero: return false.
     4. Drain the post queue -- return true immediately after one post is
        executed (one unit of work per tick).
     5. Otherwise wait on the completion backend for up to the remaining
        time; if an I/O completes, return true; if the deadline passes,
        fail with timed-out."
    The need-signal flag is "set to true by the owner immediately before
    entering the blocking wait and cleared immediately after waking". *)
Definition run_until (s : io_service) (caller : nat) (d : deadline) (e : env) : tick :=
  if negb (caller =? _threadh s)%nat
  then {| after := s; result_of := RetErr operation_not_supported; elapsed := 0 |}
  else if malformed d
  then {| after := s; result_of := RetErr invalid_argument; elapsed := 0 |}
  else if _work_queued s =? 0
  then {| after := s; result_of := RetOk false; elapsed := 0 |}
  else match _posts s with
       | _ :: _ =>
           match dispatch s with
           | Done s' => {| after := s'; result_of := RetOk true; elapsed := 0 |}
           | Halt why s' => {| after := s'; result_of := RetHalt why; elapsed := 0 |}
           end
       | [] =>
           let s := set_need_signal true s in
           match wait_one d e s, remaining d e with
           | Some (r, dt), _ =>
               {| after := complete r (set_need_signal false s);
                  result_of := RetOk true; elapsed := dt |}
           | None, Some t =>
               {| after := set_need_signal false s;
                  result_of := RetErr timed_out; elapsed := t |}
           | None, None =>
               {| after := s; result_of := Blocks; elapsed := 0 |}
           end
       end.

(** [result<bool> run() noexcept { return run_until(deadline()); }] *)
Definition run (s : io_service) (caller : nat) (e : env) : tick :=
  run_until s caller Never e.

(** What is done to a service: posts from any thread, submissions by a
    handle, and on the owning thread completions, post dispatches and
    calls of [run_until]. *)
Inductive op :=
| OpPost (c : callable)
| OpSubmit (r : nat)
| OpComplete (r : nat)
| OpDispatch
| OpRunUntil (caller : nat) (d : deadline) (e : env).

Definition exec (o : op) (s : io_service) : outcome io_service :=
  match o with
  | OpPost c => post c s
  | OpSubmit r => Done (submit r s)
  | OpComplete r => Done (complete r s)
  | OpDispatch => match _posts s with [] => Done s | _ :: _ => dispatch s end
  | OpRunUntil caller d e =>
      let t := run_until s caller d e in
      match result_of t with
      | RetHalt why => Halt why (after t)
      | _ => Done (after t)
      end
  end.

Fixpoint exec_all (ops : list op) (s : io_service) : outcome io_service :=
  match ops with
  | [] => Done s
  | o :: ops' => s' ← exec o s; exec_all ops' s'
  end.

(** Posts not yet dispatched, i/o in flight, and the callables pushed,
    invoked and still queued. *)
Definition live (i : post_info) : bool :=
  match service i with Some _ => true | None => false end.

Definition pending (s : io_service) : list post_info :=
  filter (fun i => live i = true) (_posts s).

Definition pushed (tr : list event) : list callable :=
  omap (fun ev => match ev with EvPush _ c => Some c | _ => None end) tr.

Definition invoked (tr : list event) : list callable :=
  omap (fun ev => match ev with EvInvoke c => Some c | _ => None end) tr.

Definition queued (s : io_service) : list callable := omap f (pending s).

(** The events of a trace that null a back-pointer, pop an element,
    decrement or increment the work counter. *)
Definition nulls (tr : list event) : list (nat * bool * bool) :=
  omap (fun ev => match ev with EvNull a l g => Some (a, l, g) | _ => None end) tr.

Definition pops (tr : list event) : list post_info :=
  omap (fun ev => match ev with EvPop i => Some i | _ => None end) tr.

Definition decrements (tr : list event) : list unit :=
  omap (fun ev => match ev with EvWorkDone => Some tt | _ => None end) tr.

Definition increments (tr : list event) : list Z :=
  omap (fun ev => match ev with EvWorkEnqueued i => Some i | _ => None end) tr.

Definition submitted (tr : list event) : list nat :=
  omap (fun ev => match ev with EvSubmit r => Some r | _ => None end) tr.

Definition completed (tr : list event) : list nat :=
  omap (fun ev => match ev with EvComplete r => Some r | _ => None end) tr.

(** The queue of [__post_done] after its loop that looks for [pi]. *)
Fixpoint null_at (pi : nat) (q : list post_info) : list post_info :=
  match q with
  | [] => []
  | i :: q' =>
      if decide (addr i = pi) then null_service (reset_f i) :: q'
      else i :: null_at pi q'
  end.

(** The service [__post_done pi] leaves when its compaction loop has
    popped [popped] and left [rest] in the queue. *)
Definition post_done_state (pi : nat) (popped rest : list post_info)
    (s : io_service) : io_service :=
  log (map EvPop popped)
    (set_posts rest
      (_work_done
        (log [EvReset pi; EvNull pi (_posts_lock s) true]
          (set_posts (null_at pi (_posts s)) s)))).

Definition consumed (i : post_info) : Prop := service i = None.

(** The events of one [__post_done] that found its element. *)
Definition post_done_events (pi : nat) (locked : bool) (popped : list post_info)
    : list event :=
  [EvReset pi; EvNull pi locked true; EvWorkDone] ++ map EvPop popped.

(** An element waiting for dispatch: live and with its callable. *)
Definition ready (i : post_info) : Prop := live i = true /\ is_Some (f i).

(** The element [push_back] makes for callable [c] at address [a]. *)
Definition entry (this a : nat) (c : callable) : post_info :=
  {| addr := a; service := Some this; f := Some c |}.

(** What holds of a service between any two operations on it, and when
    it halts.  [pending s] are the posts not yet dispatched, [_aiocbsv s]
    the i/o in flight. *)
Record Inv (s : io_service) : Prop := {
  inv_posts : Forall ready (_posts s);
  inv_work :
    _work_queued s = wrap (Z.of_nat (length (_posts s) + length (_aiocbsv s)));
  inv_fifo : pushed (trace s) = invoked (trace s) ++ omap f (_posts s);
  inv_io :
    (length (_aiocbsv s) + length (completed (trace s))
     = length (submitted (trace s)))%nat;
  inv_dec :
    (length (decrements (trace s))
     = length (invoked (trace s)) + length (completed (trace s)))%nat;
  inv_inc :
    increments (trace s)
    = replicate (length (pushed (trace s)) + length (submitted (trace s))) 1
}.

(** [s'] is [s] after the callables [cs] were posted to it: the elements
    [E] were pushed and the events [T] logged. *)
Definition grown (cs : list callable) (s s' : io_service) : Prop :=
  _posts_lock s' = false /\ self s' = self s /\ _threadh s' = _threadh s
  /\ _aiocbsv s' = _aiocbsv s
  /\ wrap (_work_queued s') = wrap (_work_queued s + Z.of_nat (length cs))
  /\ exists E T,
       _posts s' = _posts s ++ E /\ Forall ready E /\ omap f E = cs
       /\ trace s' = trace s ++ T
       /\ pushed T = cs /\ invoked T = [] /\ decrements T = []
       /\ increments T = replicate (length cs) 1
       /\ submitted T = [] /\ completed T = [] /\ nulls T = [] /\ pops T = [].

(** The service after [post c], when the post lock was free. *)
Definition posted (c : callable) (s : io_service) : io_service :=
  wake_if_needed (set_lock false (push_back c (set_lock true (_work_enqueued 1 s)))).

(** A freshly constructed service, and an environment in which no i/o
    completes. *)
Definition idle : io_service := io_service_new 100 0.
Definition quiet : env := {| now := 0; completion := None |}.


(** A service with one post pending, and the same inside [_post_done]. *)
Definition demo_callable : callable := Callable 5 1 [].
Definition demo_entry : post_info :=
  {| addr := 0; service := Some 100%nat; f := Some demo_callable |}.
Definition one_post : io_service :=
  state_of (post demo_callable (io_service_new 100 0)).
Definition one_post_locked : io_service := set_lock true one_post.

End IoService.

(** ** shared_fs_mutex: lock and try_lock *)

Module Mutex.
Import Guard.

Local Open Scope nat_scope.

(** What a [result<entities_guard>] holds: the address of the guard
    object inside the result, or an error. *)
Inductive lock_result :=
| Locked (guard : nat)
| Failed.

Section Lock.

(** [deadline] and [deadline(std::chrono::seconds(0))]. *)
Variable deadline : Type.
Variable zero_seconds : deadline.

(** [virtual result<void> _lock(entities_guard &out, deadline d, bool
    spin_not_sleep) noexcept = 0]: pure virtual.  An implementation is
    given the mutex [this] and the address of [out]; it says whether it
    succeeded and what it did to the guards and to the unlock calls. *)
Variable _lock : nat -> nat -> deadline -> bool -> world -> bool * world.

(** [result<entities_guard> lock(entities_type entities, deadline d, bool
    spin_not_sleep)].  [BOOST_OUTCOME_PROPAGATE_ERROR] returns the error
    of [_lock], which destroys [ret]; [return std::move(ret)] move
    constructs the guard inside the result from [ret], then destroys
    [ret]. *)
Definition lock (this : nat) (ents : entities_type) (d : deadline)
    (spin_not_sleep : bool) (w : world) : option (lock_result * world) :=
  let '(ret, w) := alloc w in
  let w := ctor_span ret (Some this) ents w in
  let '(ok, w) := _lock this ret d spin_not_sleep w in
  if ok then
    let '(r, w) := alloc w in
    w ← move_ctor r ret w;
    w ← dtor ret w;
    Some (Locked r, w)
  else
    w ← dtor ret w;
    Some (Failed, w).

(** [result<entities_guard> lock(entity_type entity, deadline d, bool
    spin_not_sleep)]: [entities_guard ret(this, entity); return
    lock(ret.entities, std::move(d), spin_not_sleep);] -- [ret] is
    destroyed when the function returns. *)
Definition lock_entity (this : nat) (entity : entity_type) (d : deadline)
    (spin_not_sleep : bool) (w : world) : option (lock_result * world) :=
  let '(ret, w) := alloc w in
  let w := ctor_entity ret (Some this) entity w in
  g ← get ret w;
  '(res, w) ← lock this (entities g) d spin_not_sleep w;
  w ← dtor ret w;
  Some (res, w).

(** [result<entities_guard> try_lock(entities_type entities)] *)
Definition try_lock (this : nat) (ents : entities_type) (w : world)
    : option (lock_result * world) :=
  lock this ents zero_seconds false w.

(** [result<entities_guard> try_lock(entity_type entity)] *)
Definition try_lock_entity (this : nat) (entity : entity_type) (w : world)
    : option (lock_result * world) :=
  let '(ret, w) := alloc w in
  let w := ctor_entity ret (Some this) entity w in
  g ← get ret w;
  '(res, w) ← try_lock this (entities g) w;
  w ← dtor ret w;
  Some (res, w).

End Lock.

(** The world in which [lock] calls [_lock]: its guard [ret] is
    constructed at the next free address. *)
Definition handed_out (this : nat) (ents : entities_type) (w : world) : world :=
  ctor_span (length (objs w)) (Some this) ents (snd (alloc w)).

(** The world in which [lock(entity_type)] calls [lock(entities_type)]:
    its guard [ret] is constructed at the next free address and holds the
    entity. *)
Definition with_temporary (this : nat) (entity : entity_type) (w : world) : world :=
  ctor_entity (length (objs w)) (Some this) entity (snd (alloc w)).

(** An implementation of [_lock] that always succeeds and touches
    nothing, and one that fails after releasing [out]. *)
Definition demo_lock (this out : nat) (d : unit) (spin : bool) (w : world)
    : bool * world :=
  (true, w).
Definition demo_lock_fails (this out : nat) (d : unit) (spin : bool) (w : world)
    : bool * world :=
  (false, default w (release out w)).
Definition demo_entity : entity_type := {| value := 42; exclusive := true |}.

End Mutex.

(** ** utils.hpp: hex strings in place, random strings, page sizes *)

Module Utils.
Import Hex.

(** *** [to_hex_string] when [out] and [in] are the same buffer

    "Out buffer can be same as in buffer": [random_string] calls
    [to_hex_string(ret.data(), outlen, ret.data(), randomlen)].  Here
    every [in[i]] reads the buffer as the assignments before it left it. *)
Definition to_hex_body_alias (n : Z) (buf : list Z) : result (list Z) :=
  d ← hi_digit buf (wrap (n + 1)); buf ← wr buf (wrap (n * 2 + 3)) d;
  d ← lo_digit buf (wrap (n + 1)); buf ← wr buf (wrap (n * 2 + 2)) d;
  d ← hi_digit buf n;              buf ← wr buf (wrap (n * 2 + 1)) d;
  d ← lo_digit buf n;              wr buf (wrap (n * 2 + 0)) d.

Fixpoint to_hex_loop_alias (fuel : nat) (inlen : Z) (n : Z) (buf : list Z)
    : result (list Z) :=
  match fuel with
  | O => Fault OutOfFuel
  | S fuel' =>
      if n <=? wrap (inlen - 2)
      then buf' ← to_hex_body_alias n buf;
           to_hex_loop_alias fuel' inlen (wrap (n - 2)) buf'
      else Ok buf
  end.

Definition to_hex_string_alias (buf : list Z) (outlen inlen : Z)
    : result (list Z * Z) :=
  if outlen <? wrap (inlen * 2) then Fault InvalidArgument
  else
    buf ← to_hex_loop_alias (S (S (Z.to_nat inlen))) inlen (wrap (inlen - 2)) buf;
    buf ← (if Z.land inlen 1 =? 0 then Ok buf
           else d ← hi_digit buf 0; buf ← wr buf 1 d;
                d ← lo_digit buf 0; wr buf 0 d);
    Ok (buf, wrap (inlen * 2)).

(** *** [from_hex_string] when [out] and [in] are the same buffer

    "Out buffer can be same as in buffer."  The two loops and the
    function, with every [in[i]] reading the buffer as the assignments
    before it left it. *)
Definition from_hex_body4_alias (n : Z) (st : fh_state) : result fh_state :=
  let '(buf, inv) := st in
  c0 ← fh_get buf (wrap (n * 2)) inv;
  c1 ← fh_get buf (wrap (n * 2 + 1)) (snd c0);
  c2 ← fh_get buf (wrap (n * 2 + 2)) (snd c1);
  c3 ← fh_get buf (wrap (n * 2 + 3)) (snd c2);
  buf ← wr buf n (pack (fst c1) (fst c0));
  c4 ← fh_get buf (wrap (n * 2 + 4)) (snd c3);
  c5 ← fh_get buf (wrap (n * 2 + 5)) (snd c4);
  buf ← wr buf (wrap (n + 1)) (pack (fst c3) (fst c2));
  c6 ← fh_get buf (wrap (n * 2 + 6)) (snd c5);
  c7 ← fh_get buf (wrap (n * 2 + 7)) (snd c6);
  buf ← wr buf (wrap (n + 2)) (pack (fst c5) (fst c4));
  buf ← wr buf (wrap (n + 3)) (pack (fst c7) (fst c6));
  Ok (buf, snd c7).

Fixpoint from_hex_loop4_alias (fuel : nat) (inlen : Z) (n : Z) (st : fh_state)
    : result fh_state :=
  match fuel with
  | O => Fault OutOfFuel
  | S fuel' =>
      if n <? inlen / 2
      then st' ← from_hex_body4_alias n st;
           from_hex_loop4_alias fuel' inlen (wrap (n + 4)) st'
      else Ok st
  end.

Definition from_hex_body1_alias (n : Z) (st : fh_state) : result fh_state :=
  let '(buf, inv) := st in
  c1 ← fh_get buf (wrap (n * 2)) inv;
  c2 ← fh_get buf (wrap (n * 2 + 1)) (snd c1);
  buf ← wr buf n (pack (fst c2) (fst c1));
  Ok (buf, snd c2).

Fixpoint from_hex_loop1_alias (fuel : nat) (inlen : Z) (n : Z) (st : fh_state)
    : result fh_state :=
  match fuel with
  | O => Fault OutOfFuel
  | S fuel' =>
      if n <? inlen / 2
      then st' ← from_hex_body1_alias n st;
           from_hex_loop1_alias fuel' inlen (wrap (n + 1)) st'
      else Ok st
  end.

Definition from_hex_string_alias (buf : list Z) (outlen inlen : Z)
    : result (list Z * Z) :=
  if negb (inlen mod 2 =? 0) then Fault InvalidArgument
  else if outlen <? inlen / 2 then Fault InvalidArgument
  else
    let fuel := S (Z.to_nat inlen) in
    st ← from_hex_loop4_alias fuel inlen 0 (buf, false);
    st ← from_hex_loop1_alias fuel inlen
           (wrap (inlen / 2 - (inlen / 2) mod 4)) st;
    if (snd st : bool) then Fault InvalidArgument
    else Ok (fst st, inlen / 2).

(** [void random_fill(char *buffer, size_t bytes)] is defined in the
    platform file; [entropy] stands for the bytes the operating system
    delivers, which replace the first [bytes] bytes of the buffer. *)
Definition random_fill (entropy : list Z) (buffer : list Z) (bytes : Z) : list Z :=
  take (Z.to_nat bytes) entropy ++ drop (Z.to_nat bytes) buffer.

(** [std::string random_string(size_t randomlen)] *)
Definition random_string (entropy : list Z) (randomlen : Z) : result (list Z) :=
  let outlen := wrap (randomlen * 2) in
  let ret := replicate (Z.to_nat outlen) 0 in
  let ret := random_fill entropy ret randomlen in
  r ← to_hex_string_alias ret outlen randomlen;
  Ok (fst r).

(** *** What [from_hex_string] accepts

    The characters [0-9], [A-F] and [a-f], and their values: the disabled
    branch of the [fromhex] lambda. *)
Definition is_hex_char (c : Z) : bool :=
  ((48 <=? c) && (c <=? 57)) || ((97 <=? c) && (c <=? 102))
  || ((65 <=? c) && (c <=? 70)).

Definition digit_value (c : Z) : Z :=
  if (48 <=? c) && (c <=? 57) then c - 48
  else if (97 <=? c) && (c <=? 102) then c - 97 + 10
  else c - 65 + 10.

(** The bytes a string of hex digits stands for: each pair of characters
    gives one byte, the low nibble first. *)
Fixpoint decode (h : list Z) : list Z :=
  match h with
  | c0 :: c1 :: h' => (16 * digit_value c1 + digit_value c0) :: decode h'
  | _ => []
  end.

(** What the loop keeps: below [m] the buffer still holds the input
    bytes, from [2 m] on it holds the encoding of the bytes from [m] on,
    followed by the part of the buffer beyond the output. *)
Definition in_place (b tail buf : list Z) (m : nat) : Prop :=
  length buf = (2 * length b + length tail)%nat
  /\ take m buf = take m b
  /\ drop (2 * m) buf = encode (drop m b) ++ tail.

(** The digit [fromhex] returns for [c], and whether it flags [c]. *)
Definition raw (c : Z) : Z := fst (fromhex false c).
Definition bad (c : Z) : bool := raw c =? 255.

Fixpoint decode_raw (h : list Z) : list Z :=
  match h with
  | c0 :: c1 :: h' => pack (raw c1) (raw c0) :: decode_raw h'
  | _ => []
  end.

(** *** Page sizes *)

Inductive trap :=
| BackOfEmptyVector     (* [std::vector::back()] on an empty vector *)
| DivisionByZero
| BadAlloc.             (* [std::bad_alloc] thrown *)

Inductive ans (A : Type) : Type :=
| Ret (a : A)
| Trap (e : trap).
Arguments Ret {A} a.
Arguments Trap {A} e.

#[global] Instance ans_bind : MBind ans := fun A B k r =>
  match r with
  | Ret a => k a
  | Trap e => Trap e
  end.

(** The loop [for (auto &i : sizes) if (i >= 1024 * 1024) { size = i; break; }]
    started with [size == 0]: the value [size] has after it. *)
Fixpoint first_large (sizes : list Z) : Z :=
  match sizes with
  | [] => 0
  | i :: sizes' => if 1024 * 1024 <=? i then i else first_large sizes'
  end.

(** [size_t file_buffer_default_size()].  [page_sizes(true)] is defined
    in the platform file: [sizes] is what it returns.  [size] is the
    function's [static size_t size]; the result is the value returned and
    the new value of the static. *)
Definition file_buffer_default_size (sizes : list Z) (size : Z) : Z * Z :=
  if size =? 0 then
    let size := first_large sizes in
    let size := if size =? 0 then 1024 * 1024 else size in
    (size, size)
  else (size, size).

(** [struct large_page_allocation] *)
Record large_page_allocation := {
  p : option nat;          (* [None] is [nullptr] *)
  page_size_used : Z;
  actual_size : Z
}.

(** [do { ret.page_size_used = pagesizes.back(); pagesizes.pop_back(); }
    while (!pagesizes.empty() && !(bytes / ret.page_size_used));]
    with the vector given back first. *)
Fixpoint choose_page_size (bytes : Z) (back_first : list Z) : ans Z :=
  match back_first with
  | [] => Trap BackOfEmptyVector
  | used :: rest =>
      match rest with
      | [] => Ret used
      | _ :: _ =>
          if used =? 0 then Trap DivisionByZero
          else if bytes / used =? 0 then choose_page_size bytes rest
          else Ret used
      end
  end.

(** [~x] for a [size_t]. *)
Definition lnot64 (x : Z) : Z := 2 ^ 64 - 1 - x.

(** [detail::calculate_large_page_allocation(size_t bytes)], where
    [pagesizes] is what [page_sizes()] returns. *)
Definition calculate_large_page_allocation (pagesizes : list Z) (bytes : Z)
    : ans large_page_allocation :=
  used ← choose_page_size bytes (reverse pagesizes);
  Ret {| p := None;
         page_size_used := used;
         actual_size := Z.land (wrap (bytes + used - 1)) (lnot64 (wrap (used - 1))) |}.

(** [page_allocator<T>::max_size()]: [size_type(~0) / sizeof(T)] *)
Definition max_size (sizeof_T : Z) : Z := (2 ^ 64 - 1) / sizeof_T.

(** [page_allocator<T>::allocate(size_type n, const void *hint = 0)].
    [detail::allocate_large_pages] is defined in the platform file and is
    taken as the parameter [allocate_large_pages]. *)
Definition allocate (allocate_large_pages : Z -> large_page_allocation)
    (sizeof_T n : Z) : ans nat :=
  if max_size sizeof_T <? n then Trap BadAlloc
  else
    let mem := allocate_large_pages (wrap (n * sizeof_T)) in
    match p mem with
    | None => Trap BadAlloc
    | Some q => Ret q
    end.

Definition demo_entropy : list Z := [222; 173; 190; 239].
Definition demo_pagesizes : list Z := [4096; 2097152; 1073741824].
Definition demo_allocator (bytes : Z) : large_page_allocation :=
  {| p := Some 7%nat; page_size_used := 4096; actual_size := bytes |}.

End Utils.

(** ** secded_ecc: the Hamming code of a block of bytes *)

Module Secded.

(** [result_type] is [unsigned int], 32 bits wide; the entries of
    [ecc_table] are [unsigned short], 16 bits wide. *)
Definition wrap32 (z : Z) : Z := z mod 2 ^ 32.
Definition wrap16 (z : Z) : Z := z mod 2 ^ 16.

Inductive array := Twos | Table | Buffer.

(** Why a run stops without a value. *)
Inductive stop :=
| RuntimeError                  (* [std::runtime_error] thrown by the constructor *)
| Indeterminate                 (* [bitsvalid] read before anything was stored in it *)
| ReadPast (a : array) (i : Z)  (* an element outside of the array is accessed *)
| Looping.

Inductive res (A : Type) : Type :=
| Val (a : A)
| Stop (e : stop).
Arguments Val {A} a.
Arguments Stop {A} e.

#[global] Instance res_bind : MBind res := fun A B k r =>
  match r with
  | Val a => k a
  | Stop e => Stop e
  end.

(** [l[i]], checked against the extent of the array. *)
Definition at_ (a : array) (l : list Z) (i : Z) : res Z :=
  if decide (0 <= i < Z.of_nat (length l))
  then match l !! Z.to_nat i with
       | Some x => Val x
       | None => Stop (ReadPast a i)
       end
  else Stop (ReadPast a i).

(** The elements [f x] for the [x] of [l], read in order. *)
Fixpoint traverse {A B : Type} (f : A -> res B) (l : list A) : res (list B) :=
  match l with
  | [] => Val []
  | x :: l' => y ← f x; ys ← traverse f l'; Val (y :: ys)
  end.

(** [__builtin_popcount(x)]: the number of bits set in [x]. *)
Fixpoint popcount_pos (p : positive) : Z :=
  match p with
  | xH => 1
  | xO p' => popcount_pos p'
  | xI p' => 1 + popcount_pos p'
  end.

Definition popcount (x : Z) : Z :=
  match x with
  | Zpos p => popcount_pos p
  | _ => 0
  end.

(** [static bool _is_single_bit_set(result_type x)], in its
    [__builtin_popcount(x) == 1] form. *)
Definition _is_single_bit_set (x : Z) : bool := popcount x =? 1.

(** The members of [secded_ecc<blocksize>]. *)
Record secded_ecc := {
  bitsvalid : Z;
  ecc_twospowers : list Z;   (* [result_type[32]] *)
  ecc_table : list Z         (* [unsigned short[blocksize * 8]] *)
}.

(** [for (n = 0; n < 32; n++) ecc_twospowers[n] = ((result_type)1 << n);] *)
Definition twospowers : list Z :=
  map (fun n => wrap32 (Z.shiftl 1 n)) (seqZ 0 32).

(** [for (p = 1; p < 32; p++) if ((length + p + 1) <= ecc_twospowers[p])
    { bitsvalid = p; break; }] over the values [ps] of [p] still to try:
    what is stored in [bitsvalid], if anything is. *)
Fixpoint find_bitsvalid (twos : list Z) (length : Z) (ps : list Z) : res (option Z) :=
  match ps with
  | [] => Val None
  | p :: ps' =>
      t ← at_ Twos twos p;
      if wrap32 (length + p + 1) <=? t then Val (Some p)
      else find_bitsvalid twos length ps'
  end.

(** [for (size_t p = 0; ecc_twospowers[p] < (b + 1); p++) b++;] where
    [rest] is [ecc_twospowers] from index [p] on. *)
Fixpoint code_bit (p : Z) (rest : list Z) (b : Z) : res Z :=
  match rest with
  | [] => Stop (ReadPast Twos p)
  | t :: rest' =>
      if t <? wrap32 (b + 1) then code_bit (p + 1) rest' (wrap32 (b + 1))
      else Val b
  end.

(** The loop that fills [ecc_table], from index [i] on for [n] entries:
    [b = i + 1], the code bit loop, [ecc_table[i] = (unsigned short) b],
    and the throw when [b > (unsigned short) -1]. *)
Fixpoint fill_table (twos : list Z) (n : nat) (i : Z) : res (list Z) :=
  match n with
  | O => Val []
  | S n' =>
      b ← code_bit 0 twos (wrap32 (i + 1));
      if 65535 <? b then Stop RuntimeError
      else rest ← fill_table twos n' (wrap32 (i + 1)); Val (wrap16 b :: rest)
  end.

(** [secded_ecc()] for the template argument [blocksize]. *)
Definition secded_ecc_new (blocksize : nat) : res secded_ecc :=
  let twos := twospowers in
  let length := wrap32 (Z.of_nat blocksize * 8) in
  bv ← find_bitsvalid twos length (seqZ 1 31);
  match bv with
  | None => Stop Indeterminate
  | Some v =>
      if 4 <? (8 - 1 + v) / 8 then Stop RuntimeError
      else
        tbl ← fill_table twos (blocksize * 8) 0;
        Val {| bitsvalid := v; ecc_twospowers := twos; ecc_table := tbl |}
  end.

(** [constexpr result_type result_bits_valid() const] *)
Definition result_bits_valid (o : secded_ecc) : Z := bitsvalid o.

(** [c & ((unit_type)1 << n)] as a condition. *)
Definition bit_set (c n : Z) : bool := negb (Z.land c (Z.shiftl 1 n) =? 0).

(** [if (set) ecc ^= t;] *)
Definition xor_if (ecc : Z) (set : bool) (t : Z) : Z :=
  if set then Z.lxor ecc t else ecc.

(** One turn of the loop of the variable length routine, for the byte
    [c] at index [i]: a zero byte is skipped before the table is read. *)
Definition ecc_of_byte (o : secded_ecc) (i c ecc : Z) : res Z :=
  if c =? 0 then Val ecc
  else
    prefetch ← traverse (fun n => at_ Table (ecc_table o) (i * 8 + n)) (seqZ 0 8);
    let bitset := map (bit_set c) (seqZ 0 8) in
    let localecc :=
      fold_left (fun acc bt => xor_if acc bt.1 bt.2) (zip bitset prefetch) 0 in
    Val (Z.lxor ecc localecc).

(** [for (size_t i = 0; i < length; i += 1)], [n] turns from index [i]. *)
Fixpoint ecc_bytes (o : secded_ecc) (buffer : list Z) (n : nat) (i ecc : Z) : res Z :=
  match n with
  | O => Val ecc
  | S n' =>
      c ← at_ Buffer buffer i;
      ecc' ← ecc_of_byte o i c ecc;
      ecc_bytes o buffer n' (i + 1) ecc'
  end.

(** [result_type operator()(result_type ecc, const char *buffer, size_t length)]:
    accumulate the ECC of a partial buffer. *)
Definition ecc_partial (o : secded_ecc) (ecc : Z) (buffer : list Z) (length : nat)
    : res Z :=
  ecc_bytes o buffer length 0 ecc.

(** [BOOST_AFIO_ROUND(n)]: eight table entries are fetched, then each of
    the eight bytes [c] of the lump is tested at bit [n]. *)
Definition round (o : secded_ecc) (i : Z) (c : list Z) (ecc n : Z) : res Z :=
  prefetch ← traverse (fun k => at_ Table (ecc_table o) ((i + k) * 8 + n)) (seqZ 0 8);
  Val (fold_left (fun e ct => xor_if e (bit_set ct.1 n) ct.2) (zip c prefetch) ecc).

(** [BOOST_AFIO_ROUND(0)] ... [BOOST_AFIO_ROUND(7)] *)
Fixpoint rounds (o : secded_ecc) (i : Z) (c : list Z) (ns : list Z) (ecc : Z) : res Z :=
  match ns with
  | [] => Val ecc
  | n :: ns' => e ← round o i c ecc n; rounds o i c ns' e
  end.

(** The body of the loop of the fixed size routine: the eight bytes at
    [i] are loaded as one [unsigned long long], then the eight rounds. *)
Definition lump (o : secded_ecc) (buffer : list Z) (i ecc : Z) : res Z :=
  c ← traverse (fun k => at_ Buffer buffer (i + k)) (seqZ 0 8);
  rounds o i c (seqZ 0 8) ecc.

(** [for (size_t i = 0; i < blocksize; i += 8)], [n] turns from index [i]. *)
Fixpoint lumps (o : secded_ecc) (buffer : list Z) (n : nat) (i ecc : Z) : res Z :=
  match n with
  | O => Val ecc
  | S n' => e ← lump o buffer i ecc; lumps o buffer n' (i + 8) e
  end.

(** [result_type operator()(result_type ecc, const char *buffer)]:
    accumulate the ECC of a whole block.  The loop turns
    [ceil(blocksize / 8)] times. *)
Definition ecc_block (o : secded_ecc) (blocksize : nat) (ecc : Z) (buffer : list Z)
    : res Z :=
  if Z.of_nat blocksize <? 8 then ecc_partial o ecc buffer blocksize
  else lumps o buffer (Z.to_nat ((Z.of_nat blocksize + 7) / 8)) 0 ecc.

(** [while (_is_single_bit_set(b)) b++;] *)
Fixpoint skip_parity (fuel : nat) (b : Z) : res Z :=
  match fuel with
  | O => Stop Looping
  | S fuel' =>
      if _is_single_bit_set b then skip_parity fuel' (wrap32 (b + 1)) else Val b
  end.

(** [for (result_type i = 0, b = 1; i < length; i++, b++)], [n] turns
    from [i] and [b]. *)
Fixpoint find_loop (n : nat) (i b eccdiff : Z) : res Z :=
  match n with
  | O => Val (wrap32 (-1))
  | S n' =>
      b' ← skip_parity 32 b;
      if b' =? eccdiff then Val i
      else find_loop n' (wrap32 (i + 1)) (wrap32 (b' + 1)) eccdiff
  end.

(** [result_type find_bad_bit(result_type good_ecc, result_type bad_ecc)] *)
Definition find_bad_bit (blocksize : nat) (good_ecc bad_ecc : Z) : res Z :=
  let length := wrap32 (Z.of_nat blocksize * 8) in
  let eccdiff := Z.lxor good_ecc bad_ecc in
  if _is_single_bit_set eccdiff then Val (wrap32 (-1))
  else find_loop (Z.to_nat length) 0 1 eccdiff.

Inductive verify_status := corrupt | okay | healed.

(** [buffer[badbit / 8] ^= (unsigned char) ecc_twospowers[badbit % 8];] *)
Definition flip (o : secded_ecc) (buffer : list Z) (badbit : Z) : res (list Z) :=
  t ← at_ Twos (ecc_twospowers o) (badbit mod 8);
  c ← at_ Buffer buffer (badbit / 8);
  Val (<[Z.to_nat (badbit / 8) := Z.lxor c (t mod 2 ^ 8)]> buffer).

(** [verify_status verify(char *buffer, result_type good_ecc)]: the
    status and the buffer as [verify] leaves it. *)
Definition verify (o : secded_ecc) (blocksize : nat) (buffer : list Z) (good_ecc : Z)
    : res (verify_status * list Z) :=
  this_ecc ← ecc_block o blocksize 0 buffer;
  if this_ecc =? good_ecc then Val (okay, buffer)
  else
    badbit ← find_bad_bit blocksize good_ecc this_ecc;
    if wrap32 (-1) =? badbit then Val (corrupt, buffer)
    else
      buffer1 ← flip o buffer badbit;
      this_ecc ← ecc_block o blocksize 0 buffer1;
      if this_ecc =? good_ecc then Val (healed, buffer1)
      else
        buffer2 ← flip o buffer1 badbit;
        Val (corrupt, buffer2).

(** The block [buffer] with bit [j] inverted: bit [j mod 8] of the byte
    at [j / 8]. *)
Definition toggled (j : Z) (buffer : list Z) : list Z :=
  match buffer !! Z.to_nat (j / 8) with
  | Some c => <[Z.to_nat (j / 8) := Z.lxor c (2 ^ (j mod 8))]> buffer
  | None => buffer
  end.

(** *** The code

    [pow2 x]: [x] is a power of two. *)
Definition pow2 (x : Z) : Prop := exists m, 0 <= m /\ x = 2 ^ m.

(** Data bit [i] of the block sits at code position [t]: [t] is not a
    power of two (those positions hold the parity bits), and [i + 1] of
    the positions [1 .. t] are not powers of two. *)
Definition code_position (i t : Z) : Prop :=
  0 < t /\ ~ pow2 t /\ t - Z.log2 t = i + 2.

(** The xor of a list of ECCs. *)
Definition xsum (l : list Z) : Z := foldr Z.lxor 0 l.

(** The table entry of code bit [x], and the byte at index [x]. *)
Definition table_entry (o : secded_ecc) (x : Z) : Z := default 0 (ecc_table o !! Z.to_nat x).
Definition byte_of (buffer : list Z) (x : Z) : Z := default 0 (buffer !! Z.to_nat x).

(** What bit [n] of the byte [c] at index [i] adds to the ECC. *)
Definition term (o : secded_ecc) (c i n : Z) : Z :=
  if Z.testbit c n then table_entry o (i * 8 + n) else 0.

Definition byte_sum (o : secded_ecc) (i c : Z) : Z :=
  xsum (map (term o c i) (seqZ 0 8)).

(** The sum over the [n] bytes from index [i] on. *)
Definition range_sum (o : secded_ecc) (buffer : list Z) (i n : Z) : Z :=
  xsum (map (fun x => byte_sum o x (byte_of buffer x)) (seqZ i n)).

(** [secded_ecc<8>] and an 8 byte block; the tables of [secded_ecc<12>]. *)
Definition demo_ecc : secded_ecc :=
  match secded_ecc_new 8 with
  | Val o => o
  | Stop _ => {| bitsvalid := 0; ecc_twospowers := []; ecc_table := [] |}
  end.
Definition demo_block : list Z := [1; 2; 3; 4; 5; 6; 7; 255].
Definition demo_ecc12 : secded_ecc :=
  match secded_ecc_new 12 with
  | Val o => o
  | Stop _ => {| bitsvalid := 0; ecc_twospowers := []; ecc_table := [] |}
  end.

End Secded.

(** * Properties *)

Module HexTheory.
Import Hex.

(** *** Accesses within bounds *)

Lemma size_wrap_small z : 0 <= z < 2 ^ 64 -> wrap z = z.
Proof. intros H. unfold wrap, size_max. apply Z.mod_small, H. Qed.

Lemma rd_ok buf (i : nat) v :
  buf !! i = Some v -> rd buf (Z.of_nat i) = Ok v.
Proof.
  intros H. unfold rd. pose proof (lookup_lt_Some _ _ _ H).
  rewrite decide_True by lia. rewrite Nat2Z.id, H. reflexivity.
Qed.

Lemma rd_out buf (i : Z) :
  Z.of_nat (length buf) <= i -> rd buf i = Fault (OutOfBoundsRead i).
Proof. intros H. unfold rd. rewrite decide_False by lia. reflexivity. Qed.

Lemma wr_ok buf (i : nat) v :
  (i < length buf)%nat -> wr buf (Z.of_nat i) v = Ok (<[i := v]> buf).
Proof.
  intros H. unfold wr. rewrite decide_True by lia. rewrite Nat2Z.id. reflexivity.
Qed.

Lemma wr_ok_Z buf (i : Z) v :
  0 <= i < Z.of_nat (length buf) -> wr buf i v = Ok (<[Z.to_nat i := v]> buf).
Proof. intros H. unfold wr. rewrite decide_True by exact H. reflexivity. Qed.

Lemma hi_digit_ok buf (i : nat) v :
  buf !! i = Some v ->
  hi_digit buf (Z.of_nat i) = Ok (hexdigit (Z.land (Z.shiftr v 4) 15)).
Proof. intros H. unfold hi_digit. rewrite (rd_ok _ _ _ H). reflexivity. Qed.

Lemma lo_digit_ok buf (i : nat) v :
  buf !! i = Some v -> lo_digit buf (Z.of_nat i) = Ok (hexdigit (Z.land v 15)).
Proof. intros H. unfold lo_digit. rewrite (rd_ok _ _ _ H). reflexivity. Qed.

(** Writing four elements over four. *)
Lemma insert4 {A} (P Q : list A) x0 x1 x2 x3 y0 y1 y2 y3 :
  <[length P := y0]> (<[length P + 1 := y1]> (<[length P + 2 := y2]>
     (<[length P + 3 := y3]> (P ++ [x0; x1; x2; x3] ++ Q))))%nat
  = P ++ [y0; y1; y2; y3] ++ Q.
Proof.
  rewrite <- (Nat.add_0_r (length P)) at 1.
  rewrite !insert_app_r. reflexivity.
Qed.

(** *** [to_hex_string] *)

(** One iteration of the loop of [to_hex_string] encodes the bytes at [n]
    and [n + 1] into the four characters from [2 n]. *)
Lemma to_hex_body_spec b (n : nat) v0 v1 P Q x0 x1 x2 x3 :
  b !! n = Some v0 -> b !! S n = Some v1 ->
  length P = (2 * n)%nat -> Z.of_nat n < 2 ^ 62 ->
  to_hex_body b (Z.of_nat n) (P ++ [x0; x1; x2; x3] ++ Q)
  = Ok (P ++ encode_byte v0 ++ encode_byte v1 ++ Q).
Proof.
  intros H0 H1 HP Hn. unfold to_hex_body.
  replace (wrap (Z.of_nat n + 1)) with (Z.of_nat (S n)) by (rewrite size_wrap_small; lia).
  replace (wrap (Z.of_nat n * 2 + 3)) with (Z.of_nat (length P + 3))
    by (rewrite size_wrap_small; lia).
  replace (wrap (Z.of_nat n * 2 + 2)) with (Z.of_nat (length P + 2))
    by (rewrite size_wrap_small; lia).
  replace (wrap (Z.of_nat n * 2 + 1)) with (Z.of_nat (length P + 1))
    by (rewrite size_wrap_small; lia).
  replace (wrap (Z.of_nat n * 2 + 0)) with (Z.of_nat (length P))
    by (rewrite size_wrap_small; lia).
  rewrite (hi_digit_ok _ _ _ H1), (lo_digit_ok _ _ _ H1),
    (hi_digit_ok _ _ _ H0), (lo_digit_ok _ _ _ H0).
  cbn [mbind result_bind].
  rewrite wr_ok by (rewrite length_app; simpl; lia). cbn [mbind result_bind].
  rewrite wr_ok by (rewrite length_insert, length_app; simpl; lia).
  cbn [mbind result_bind].
  rewrite wr_ok by (rewrite !length_insert, length_app; simpl; lia).
  cbn [mbind result_bind].
  rewrite wr_ok by (rewrite !length_insert, length_app; simpl; lia).
  rewrite insert4. reflexivity.
Qed.

Lemma encode_drop b (n : nat) v0 v1 :
  b !! n = Some v0 -> b !! S n = Some v1 ->
  encode (drop n b) = encode_byte v0 ++ encode_byte v1 ++ encode (drop (S (S n)) b).
Proof.
  intros H0 H1.
  rewrite (drop_S b v0 n H0), (drop_S b v1 (S n) H1). reflexivity.
Qed.

(** The loop of [to_hex_string], entered at [n = r + 2 j] with the
    characters from [2 (n + 2)] on already written, writes the characters
    from [2 r] on, [r <= 1] being the parity of [inlen]; it leaves when
    [n - 2] wraps around. *)
Lemma to_hex_loop_spec b (r : nat) :
  (r <= 1)%nat -> Z.of_nat (length b) < 2 ^ 62 ->
  forall (j fuel n : nat),
    n = (r + 2 * j)%nat -> (n + 2 <= length b)%nat -> (j + 1 < fuel)%nat ->
    to_hex_loop fuel b (Z.of_nat (length b)) (Z.of_nat n)
      (replicate (2 * (n + 2)) 32 ++ encode (drop (n + 2) b))
    = Ok (replicate (2 * r) 32 ++ encode (drop r b)).
Proof.
  intros Hr HL. induction j as [|j IH]; intros fuel n Hn Hlen Hfuel.
  - destruct fuel as [|[|fuel]]; try lia. cbn [to_hex_loop].
    rewrite (size_wrap_small (Z.of_nat (length b) - 2)) by lia.
    destruct (Z.leb_spec (Z.of_nat n) (Z.of_nat (length b) - 2)); [|lia].
    destruct (lookup_lt_is_Some_2 b n ltac:(lia)) as [v0 H0].
    destruct (lookup_lt_is_Some_2 b (S n) ltac:(lia)) as [v1 H1].
    replace (2 * (n + 2))%nat with (2 * n + 4)%nat by lia.
    rewrite replicate_add, <- app_assoc.
    change (replicate 4 32) with [32; 32; 32; 32].
    rewrite (to_hex_body_spec b n v0 v1) by
      (try assumption; rewrite ?length_replicate; lia).
    cbn [mbind result_bind].
    replace (wrap (Z.of_nat n - 2)) with (2 ^ 64 + Z.of_nat n - 2).
    2:{ unfold wrap, size_max. apply (Z.mod_unique _ _ (-1)); lia. }
    destruct (Z.leb_spec (2 ^ 64 + Z.of_nat n - 2) (Z.of_nat (length b) - 2)); [lia|].
    replace (n + 2)%nat with (S (S n)) by lia.
    rewrite <- (encode_drop b n v0 v1 H0 H1).
    replace n with r by lia. reflexivity.
  - destruct fuel as [|fuel]; try lia. cbn [to_hex_loop].
    rewrite (size_wrap_small (Z.of_nat (length b) - 2)) by lia.
    destruct (Z.leb_spec (Z.of_nat n) (Z.of_nat (length b) - 2)); [|lia].
    destruct (lookup_lt_is_Some_2 b n ltac:(lia)) as [v0 H0].
    destruct (lookup_lt_is_Some_2 b (S n) ltac:(lia)) as [v1 H1].
    replace (2 * (n + 2))%nat with (2 * n + 4)%nat by lia.
    rewrite replicate_add, <- app_assoc.
    change (replicate 4 32) with [32; 32; 32; 32].
    rewrite (to_hex_body_spec b n v0 v1) by
      (try assumption; rewrite ?length_replicate; lia).
    cbn [mbind result_bind].
    replace (wrap (Z.of_nat n - 2)) with (Z.of_nat (n - 2))
      by (rewrite size_wrap_small; lia).
    replace (n + 2)%nat with (S (S n)) by lia.
    rewrite <- (encode_drop b n v0 v1 H0 H1).
    replace (2 * n)%nat with (2 * (n - 2 + 2))%nat by lia.
    replace (drop n b) with (drop (n - 2 + 2) b) by (f_equal; lia).
    apply IH; lia.
Qed.

Lemma encode_length b : length (encode b) = (2 * length b)%nat.
Proof. induction b as [|x b IH]; simpl; [reflexivity|]. rewrite IH. lia. Qed.

Lemma land_1_even (k : nat) : Z.land (Z.of_nat (2 * k)) 1 = 0.
Proof.
  change 1 with (Z.ones 1). rewrite Z.land_ones by lia.
  replace (Z.of_nat (2 * k)) with (Z.of_nat k * 2 ^ 1) by lia.
  apply Z.mod_mul. lia.
Qed.

Lemma land_1_odd (k : nat) : Z.land (Z.of_nat (2 * k + 1)) 1 = 1.
Proof.
  change 1 with (Z.ones 1) at 1. rewrite Z.land_ones by lia.
  replace (Z.of_nat (2 * k + 1)) with (1 + Z.of_nat k * 2 ^ 1) by lia.
  rewrite Z.mod_add by lia. reflexivity.
Qed.

(** With at least two bytes of input [to_hex_string] stays within its
    buffers and writes the encoding. *)
Lemma to_hex_string_s_ok b :
  (2 <= length b)%nat -> Z.of_nat (length b) < 2 ^ 62 ->
  to_hex_string_s b = Ok (encode b).
Proof.
  intros H2 HL. unfold to_hex_string_s, to_hex_string.
  rewrite (size_wrap_small (Z.of_nat (length b) * 2)) by lia.
  rewrite length_replicate.
  replace (Z.to_nat (Z.of_nat (length b) * 2)) with (2 * length b)%nat by lia.
  destruct (Z.ltb_spec (Z.of_nat (2 * length b)) (Z.of_nat (length b) * 2)); [lia|].
  rewrite Nat2Z.id.
  replace (wrap (Z.of_nat (length b) - 2)) with (Z.of_nat (length b - 2))
    by (rewrite size_wrap_small; lia).
  assert (Hout : replicate (2 * length b) 32
                 = replicate (2 * (length b - 2 + 2)) 32
                   ++ encode (drop (length b - 2 + 2) b)).
  { rewrite drop_ge by lia. simpl. rewrite app_nil_r. f_equal. lia. }
  rewrite Hout.
  destruct (Nat.Even_or_Odd (length b)) as [[k Hk]|[k Hk]].
  - rewrite (to_hex_loop_spec b 0 ltac:(lia) HL (k - 1)) by lia.
    cbn [mbind result_bind]. rewrite Hk, land_1_even. simpl. reflexivity.
  - rewrite (to_hex_loop_spec b 1 ltac:(lia) HL (k - 1)) by lia.
    cbn [mbind result_bind]. rewrite Hk, land_1_odd.
    destruct b as [|x b]; [simpl in H2; lia|].
    rewrite <- Hk. cbn [Z.eqb replicate drop Nat.mul Nat.add app].
    change (hi_digit (x :: b) 0) with (hi_digit (x :: b) (Z.of_nat 0)).
    change (lo_digit (x :: b) 0) with (lo_digit (x :: b) (Z.of_nat 0)).
    rewrite (hi_digit_ok (x :: b) 0 x eq_refl), (lo_digit_ok (x :: b) 0 x eq_refl).
    cbn [mbind result_bind].
    rewrite wr_ok_Z by (simpl length; lia). cbn [mbind result_bind].
    rewrite wr_ok_Z by (simpl length; lia). reflexivity.
Qed.

(** With fewer than two bytes the loop starts from a wrapped-around [n]
    and reads [in[2^64 - 1]]. *)
Lemma to_hex_string_s_short b :
  (length b < 2)%nat -> to_hex_string_s b = Fault (OutOfBoundsRead (2 ^ 64 - 1)).
Proof.
  intros H. destruct b as [|x [|y b]]; [| |simpl in H; lia]; vm_compute; reflexivity.
Qed.

(** *** [from_hex_string] *)

Lemma fh_get_ok inp (i : nat) c inv :
  inp !! i = Some c -> fh_get inp (Z.of_nat i) inv = Ok (fromhex inv c).
Proof. intros H. unfold fh_get. rewrite (rd_ok _ _ _ H). reflexivity. Qed.

Lemma fh_get_out inp (i : Z) inv :
  Z.of_nat (length inp) <= i -> fh_get inp i inv = Fault (OutOfBoundsRead i).
Proof. intros H. unfold fh_get. rewrite rd_out by exact H. reflexivity. Qed.

Ltac index_small :=
  repeat match goal with
  | |- context [wrap (Z.of_nat ?n * 2 + ?k)] =>
      replace (wrap (Z.of_nat n * 2 + k)) with (Z.of_nat (2 * n + Z.to_nat k))
        by (rewrite size_wrap_small; lia)
  | |- context [wrap (Z.of_nat ?n * 2)] =>
      replace (wrap (Z.of_nat n * 2)) with (Z.of_nat (2 * n))
        by (rewrite size_wrap_small; lia)
  | |- context [wrap (Z.of_nat ?n + ?k)] =>
      replace (wrap (Z.of_nat n + k)) with (Z.of_nat (n + Z.to_nat k))
        by (rewrite size_wrap_small; lia)
  end.

Ltac read_next inp :=
  match goal with
  | |- context [fh_get inp (Z.of_nat ?i) ?inv] =>
      let c := fresh "c" in
      let Hc := fresh "Hc" in
      destruct (lookup_lt_is_Some_2 inp i ltac:(lia)) as [c Hc];
      rewrite (fh_get_ok inp i c inv Hc); cbn [mbind result_bind]
  end.

Ltac write_next :=
  rewrite wr_ok by (rewrite ?length_insert; lia); cbn [mbind result_bind].

(** An iteration of the first loop of [from_hex_string] that has eight
    characters to read and four bytes to write stays within bounds. *)
Lemma from_hex_body4_ok inp out inv (n : nat) :
  (2 * n + 7 < length inp)%nat -> (n + 3 < length out)%nat ->
  Z.of_nat n < 2 ^ 62 ->
  exists out' inv',
    from_hex_body4 inp (Z.of_nat n) (out, inv) = Ok (out', inv')
    /\ length out' = length out.
Proof.
  intros Hin Hout Hn. unfold from_hex_body4.
  index_small. simpl Z.to_nat.
  read_next inp. read_next inp. read_next inp. read_next inp.
  write_next. read_next inp. read_next inp. write_next.
  read_next inp. read_next inp. write_next. write_next.
  eexists _, _. split; [reflexivity|]. rewrite !length_insert. reflexivity.
Qed.

(** An iteration entered with one, two or three bytes left reads
    [in[inlen]]. *)
Lemma from_hex_body4_fault inp out inv (n r : nat) :
  length inp = (2 * (n + r))%nat -> length out = (n + r)%nat ->
  (1 <= r <= 3)%nat -> Z.of_nat (n + r) < 2 ^ 62 ->
  from_hex_body4 inp (Z.of_nat n) (out, inv)
  = Fault (OutOfBoundsRead (Z.of_nat (length inp))).
Proof.
  intros Hin Hout Hr Hn. unfold from_hex_body4.
  index_small. simpl Z.to_nat.
  read_next inp. read_next inp.
  destruct (decide (r = 1%nat)) as [->|H1].
  { rewrite fh_get_out by lia. cbn [mbind result_bind]. do 2 f_equal. lia. }
  read_next inp. read_next inp. write_next.
  destruct (decide (r = 2%nat)) as [->|H2].
  { rewrite fh_get_out by lia. cbn [mbind result_bind]. do 2 f_equal. lia. }
  read_next inp. read_next inp. write_next.
  rewrite fh_get_out by lia. cbn [mbind result_bind]. do 2 f_equal. lia.
Qed.

Lemma half_length (m : nat) : Z.of_nat (2 * m) / 2 = Z.of_nat m.
Proof.
  replace (Z.of_nat (2 * m)) with (Z.of_nat m * 2) by lia.
  apply Z.div_mul. lia.
Qed.

(** The first loop of [from_hex_string] on an input whose number of
    bytes is not a multiple of four: its last iteration reads [in[inlen]]. *)
Lemma from_hex_loop4_fault inp (m : nat) :
  length inp = (2 * m)%nat -> Z.of_nat m < 2 ^ 62 ->
  forall (k fuel n r : nat) out inv,
    m = (n + 4 * k + r)%nat -> (1 <= r <= 3)%nat -> length out = m ->
    (k < fuel)%nat ->
    from_hex_loop4 fuel inp (Z.of_nat (length inp)) (Z.of_nat n) (out, inv)
    = Fault (OutOfBoundsRead (Z.of_nat (length inp))).
Proof.
  intros Hlen Hm. induction k as [|k IH]; intros fuel n r out inv Hn Hr Hout Hfuel;
    (destruct fuel as [|fuel]; [lia|]); cbn [from_hex_loop4];
    rewrite Hlen at 1; rewrite half_length;
    (destruct (Z.ltb_spec (Z.of_nat n) (Z.of_nat m)); [|lia]).
  - rewrite (from_hex_body4_fault inp out inv n r) by lia. reflexivity.
  - destruct (from_hex_body4_ok inp out inv n) as (out' & inv' & Hb & Hl); try lia.
    rewrite Hb. cbn [mbind result_bind].
    replace (wrap (Z.of_nat n + 4)) with (Z.of_nat (n + 4))
      by (rewrite size_wrap_small; lia).
    apply (IH fuel (n + 4)%nat r); lia.
Qed.

(** [from_hex_string] on an input of [2 m] characters, [m] not a multiple
    of four, reads past the end of its input. *)
Lemma from_hex_string_s_fault inp (m : nat) :
  length inp = (2 * m)%nat -> (m mod 4 <> 0)%nat -> Z.of_nat m < 2 ^ 62 ->
  from_hex_string_s inp = Fault (OutOfBoundsRead (Z.of_nat (length inp))).
Proof.
  intros Hlen Hmod Hm. unfold from_hex_string_s, from_hex_string.
  assert (Hev : Z.of_nat (length inp) mod 2 = 0).
  { rewrite Hlen. replace (Z.of_nat (2 * m)) with (Z.of_nat m * 2) by lia.
    apply Z.mod_mul. lia. }
  rewrite Hev. cbn [Z.eqb negb].
  rewrite length_replicate.
  assert (Hhalf : Z.of_nat (length inp) / 2 = Z.of_nat m)
    by (rewrite Hlen; apply half_length).
  rewrite Hhalf, Nat2Z.id.
  destruct (Z.ltb_spec (Z.of_nat m) (Z.of_nat m)); [lia|].
  change 0 with (Z.of_nat 0) at 1.
  pose proof (Nat.div_mod_eq m 4) as Hdm.
  pose proof (Nat.mod_upper_bound m 4 ltac:(lia)) as Hub.
  assert (Hk : (m / 4 < S (Z.to_nat (Z.of_nat (length inp))))%nat).
  { rewrite Nat2Z.id, Hlen. lia. }
  rewrite (from_hex_loop4_fault inp m Hlen Hm (m / 4) _ 0 (m mod 4)
             (replicate m 0) false ltac:(lia) ltac:(lia)
             (length_replicate m 0) Hk).
  reflexivity.
Qed.

Lemma all_bytes_round_trip :
  forallb byte_round_trips (map Z.of_nat (seq 0 256)) = true.
Proof. vm_compute. reflexivity. Qed.

Lemma byte_round_trips_spec v : is_byte v -> byte_round_trips v = true.
Proof.
  intros Hv. pose proof all_bytes_round_trip as H.
  rewrite forallb_forall in H. apply H.
  apply in_map_iff. exists (Z.to_nat v). split; [unfold is_byte in Hv; lia|].
  apply in_seq. unfold is_byte in Hv. lia.
Qed.

Lemma byte_facts v :
  is_byte v ->
  snd (fromhex false (hexdigit (Z.land v 15))) = false
  /\ snd (fromhex false (hexdigit (Z.land (Z.shiftr v 4) 15))) = false
  /\ pack (fst (fromhex false (hexdigit (Z.land (Z.shiftr v 4) 15))))
          (fst (fromhex false (hexdigit (Z.land v 15)))) = v.
Proof.
  intros Hv. pose proof (byte_round_trips_spec v Hv) as H.
  unfold byte_round_trips in H. cbv zeta in H.
  apply andb_prop in H as [H H0]. apply andb_prop in H as [Hp H1].
  apply negb_true_iff in H0. apply negb_true_iff in H1.
  rewrite H0 in H1, Hp. apply Z.eqb_eq in Hp. repeat split; assumption.
Qed.

Lemma encode_lookup b : forall (i : nat) v,
  b !! i = Some v ->
  encode b !! (2 * i)%nat = Some (hexdigit (Z.land v 15))
  /\ encode b !! (2 * i + 1)%nat = Some (hexdigit (Z.land (Z.shiftr v 4) 15)).
Proof.
  induction b as [|x b IH]; intros [|i] v H; simpl in H; try discriminate.
  - injection H as ->. split; reflexivity.
  - replace (2 * S i)%nat with (S (S (2 * i))) by lia.
    replace (S (S (2 * i)) + 1)%nat with (S (S (2 * i + 1))) by lia.
    simpl. apply IH, H.
Qed.

Lemma insert4_up {A} (P Q : list A) x0 x1 x2 x3 y0 y1 y2 y3 :
  <[(length P + 3)%nat := y3]> (<[(length P + 2)%nat := y2]>
    (<[(length P + 1)%nat := y1]> (<[(length P + 0)%nat := y0]>
       (P ++ [x0; x1; x2; x3] ++ Q))))
  = P ++ [y0; y1; y2; y3] ++ Q.
Proof. rewrite !insert_app_r. reflexivity. Qed.

(** An iteration of the first loop of [from_hex_string] on the encoding
    of [b] decodes the four bytes from [n]. *)
Lemma from_hex_body4_encoded b (n : nat) v0 v1 v2 v3 P Q y0 y1 y2 y3 :
  b !! n = Some v0 -> b !! (n + 1)%nat = Some v1 ->
  b !! (n + 2)%nat = Some v2 -> b !! (n + 3)%nat = Some v3 ->
  is_byte v0 -> is_byte v1 -> is_byte v2 -> is_byte v3 ->
  length P = n -> Z.of_nat n < 2 ^ 62 ->
  from_hex_body4 (encode b) (Z.of_nat n) (P ++ [y0; y1; y2; y3] ++ Q, false)
  = Ok (P ++ [v0; v1; v2; v3] ++ Q, false).
Proof.
  intros H0 H1 H2 H3 B0 B1 B2 B3 HP Hn.
  destruct (encode_lookup b n v0 H0) as [L0 U0].
  destruct (encode_lookup b _ v1 H1) as [L1 U1].
  destruct (encode_lookup b _ v2 H2) as [L2 U2].
  destruct (encode_lookup b _ v3 H3) as [L3 U3].
  destruct (byte_facts v0 B0) as (F0 & G0 & K0).
  destruct (byte_facts v1 B1) as (F1 & G1 & K1).
  destruct (byte_facts v2 B2) as (F2 & G2 & K2).
  destruct (byte_facts v3 B3) as (F3 & G3 & K3).
  unfold from_hex_body4.
  replace (wrap (Z.of_nat n * 2)) with (Z.of_nat (2 * n))
    by (rewrite size_wrap_small; lia).
  replace (wrap (Z.of_nat n * 2 + 1)) with (Z.of_nat (2 * n + 1))
    by (rewrite size_wrap_small; lia).
  replace (wrap (Z.of_nat n * 2 + 2)) with (Z.of_nat (2 * (n + 1)))
    by (rewrite size_wrap_small; lia).
  replace (wrap (Z.of_nat n * 2 + 3)) with (Z.of_nat (2 * (n + 1) + 1))
    by (rewrite size_wrap_small; lia).
  replace (wrap (Z.of_nat n * 2 + 4)) with (Z.of_nat (2 * (n + 2)))
    by (rewrite size_wrap_small; lia).
  replace (wrap (Z.of_nat n * 2 + 5)) with (Z.of_nat (2 * (n + 2) + 1))
    by (rewrite size_wrap_small; lia).
  replace (wrap (Z.of_nat n * 2 + 6)) with (Z.of_nat (2 * (n + 3)))
    by (rewrite size_wrap_small; lia).
  replace (wrap (Z.of_nat n * 2 + 7)) with (Z.of_nat (2 * (n + 3) + 1))
    by (rewrite size_wrap_small; lia).
  replace (wrap (Z.of_nat n + 1)) with (Z.of_nat (length P + 1))
    by (rewrite size_wrap_small; lia).
  replace (wrap (Z.of_nat n + 2)) with (Z.of_nat (length P + 2))
    by (rewrite size_wrap_small; lia).
  replace (wrap (Z.of_nat n + 3)) with (Z.of_nat (length P + 3))
    by (rewrite size_wrap_small; lia).
  rewrite (fh_get_ok _ _ _ _ L0). cbn [mbind result_bind]. rewrite F0.
  rewrite (fh_get_ok _ _ _ _ U0). cbn [mbind result_bind]. rewrite G0.
  rewrite (fh_get_ok _ _ _ _ L1). cbn [mbind result_bind]. rewrite F1.
  rewrite (fh_get_ok _ _ _ _ U1). cbn [mbind result_bind]. rewrite G1.
  replace (Z.of_nat n) with (Z.of_nat (length P + 0)) by lia.
  rewrite wr_ok by (rewrite length_app; simpl; lia). cbn [mbind result_bind].
  rewrite (fh_get_ok _ _ _ _ L2). cbn [mbind result_bind]. rewrite F2.
  rewrite (fh_get_ok _ _ _ _ U2). cbn [mbind result_bind]. rewrite G2.
  rewrite wr_ok by (rewrite !length_insert, length_app; simpl; lia).
  cbn [mbind result_bind].
  rewrite (fh_get_ok _ _ _ _ L3). cbn [mbind result_bind]. rewrite F3.
  rewrite (fh_get_ok _ _ _ _ U3). cbn [mbind result_bind]. rewrite G3.
  rewrite wr_ok by (rewrite !length_insert, length_app; simpl; lia).
  cbn [mbind result_bind].
  rewrite wr_ok by (rewrite !length_insert, length_app; simpl; lia).
  cbn [mbind result_bind].
  rewrite K0, K1, K2, K3, insert4_up. reflexivity.
Qed.

Lemma take_4 (b : list Z) (n : nat) v0 v1 v2 v3 :
  b !! n = Some v0 -> b !! (n + 1)%nat = Some v1 ->
  b !! (n + 2)%nat = Some v2 -> b !! (n + 3)%nat = Some v3 ->
  take (n + 4) b = take n b ++ [v0; v1; v2; v3].
Proof.
  intros H0 H1 H2 H3.
  replace (n + 4)%nat with (S (n + 3)) by lia. rewrite (take_S_r b _ v3 H3).
  replace (n + 3)%nat with (S (n + 2)) by lia. rewrite (take_S_r b _ v2 H2).
  replace (n + 2)%nat with (S (n + 1)) by lia. rewrite (take_S_r b _ v1 H1).
  replace (n + 1)%nat with (S n) by lia. rewrite (take_S_r b _ v0 H0).
  rewrite <- !app_assoc. reflexivity.
Qed.

(** The first loop of [from_hex_string] on the encoding of a buffer whose
    length is a multiple of four decodes the buffer. *)
Lemma from_hex_loop4_encoded b :
  Forall is_byte b -> Z.of_nat (length b) < 2 ^ 62 ->
  forall (k fuel n : nat),
    (n + 4 * k)%nat = length b -> (k < fuel)%nat ->
    from_hex_loop4 fuel (encode b) (Z.of_nat (length (encode b))) (Z.of_nat n)
      (take n b ++ replicate (4 * k) 0, false)
    = Ok (b, false).
Proof.
  intros Hb HL.
  assert (Hhalf : Z.of_nat (length (encode b)) / 2 = Z.of_nat (length b))
    by (rewrite encode_length; apply half_length).
  induction k as [|k IH]; intros fuel n Hn Hfuel;
    (destruct fuel as [|fuel]; [lia|]); cbn [from_hex_loop4];
    rewrite Hhalf.
  - destruct (Z.ltb_spec (Z.of_nat n) (Z.of_nat (length b))); [lia|].
    simpl. rewrite app_nil_r, take_ge by lia. reflexivity.
  - destruct (Z.ltb_spec (Z.of_nat n) (Z.of_nat (length b))); [|lia].
    destruct (lookup_lt_is_Some_2 b n ltac:(lia)) as [v0 H0].
    destruct (lookup_lt_is_Some_2 b (n + 1) ltac:(lia)) as [v1 H1].
    destruct (lookup_lt_is_Some_2 b (n + 2) ltac:(lia)) as [v2 H2].
    destruct (lookup_lt_is_Some_2 b (n + 3) ltac:(lia)) as [v3 H3].
    rewrite Forall_lookup in Hb.
    replace (4 * S k)%nat with (4 + 4 * k)%nat by lia.
    rewrite replicate_add. change (replicate 4 0) with [0; 0; 0; 0].
    rewrite (from_hex_body4_encoded b n v0 v1 v2 v3); eauto;
      try (rewrite length_take; lia); try lia.
    cbn [mbind result_bind].
    replace (wrap (Z.of_nat n + 4)) with (Z.of_nat (n + 4))
      by (rewrite size_wrap_small; lia).
    rewrite app_assoc, <- (take_4 b n v0 v1 v2 v3 H0 H1 H2 H3).
    apply IH; lia.
Qed.

(** [from_hex_string] gives back a buffer whose length is a multiple of
    four from its encoding. *)
Lemma from_hex_string_s_encoded b :
  Forall is_byte b -> (length b mod 4 = 0)%nat -> Z.of_nat (length b) < 2 ^ 62 ->
  from_hex_string_s (encode b) = Ok b.
Proof.
  intros Hb Hmod HL. unfold from_hex_string_s, from_hex_string.
  rewrite length_replicate.
  assert (Hlen : Z.of_nat (length (encode b)) = Z.of_nat (2 * length b))
    by (rewrite encode_length; reflexivity).
  assert (Hev : Z.of_nat (length (encode b)) mod 2 = 0).
  { rewrite Hlen. replace (Z.of_nat (2 * length b)) with (Z.of_nat (length b) * 2) by lia.
    apply Z.mod_mul. lia. }
  assert (Hhalf : Z.of_nat (length (encode b)) / 2 = Z.of_nat (length b))
    by (rewrite Hlen; apply half_length).
  rewrite Hev. cbn [Z.eqb negb]. rewrite Hhalf, Nat2Z.id.
  destruct (Z.ltb_spec (Z.of_nat (length b)) (Z.of_nat (length b))); [lia|].
  pose proof (Nat.div_mod_eq (length b) 4) as Hdm.
  assert (Hk : (length b / 4 < S (Z.to_nat (Z.of_nat (length (encode b)))))%nat).
  { rewrite Nat2Z.id, encode_length. lia. }
  pose proof (from_hex_loop4_encoded b Hb HL (length b / 4) _ 0
                ltac:(lia) Hk) as Hloop.
  replace (4 * (length b / 4))%nat with (length b) in Hloop by lia.
  simpl take in Hloop. simpl app in Hloop.
  change (Z.of_nat 0) with 0 in Hloop. rewrite Hloop.
  cbn [mbind result_bind].
  assert (Hm4 : Z.of_nat (length b) mod 4 = 0).
  { replace (length b) with (length b / 4 * 4)%nat by lia.
    rewrite Nat2Z.inj_mul. apply Z.mod_mul. lia. }
  rewrite Hm4, Z.sub_0_r, size_wrap_small by lia.
  cbn [from_hex_loop1]. rewrite Hhalf.
  destruct (Z.ltb_spec (Z.of_nat (length b)) (Z.of_nat (length b))); [lia|].
  reflexivity.
Qed.

(** The round trip on concrete buffers of two, none, one and four bytes:
    for the two bytes 0x12 0x34 [to_hex_string] writes "2143", and
    [from_hex_string] reads [in[4]] of these four characters. *)
Example hex_round_trip_examples :
  to_hex_string_s [18; 52] = Ok [50; 49; 52; 51]
  /\ from_hex_string_s [50; 49; 52; 51] = Fault (OutOfBoundsRead 4)
  /\ round_trip [18; 52] = Fault (OutOfBoundsRead 4)
  /\ round_trip [] = Fault (OutOfBoundsRead (2 ^ 64 - 1))
  /\ round_trip [18] = Fault (OutOfBoundsRead (2 ^ 64 - 1))
  /\ round_trip [18; 52; 171; 205] = Ok [18; 52; 171; 205].
Proof. repeat split; vm_compute; reflexivity. Qed.

(** C9.  What the round trip does on a buffer [b] of [n] bytes.  With
    [n < 2] the loop of [to_hex_string] starts from a wrapped-around index
    and reads [in[2^64 - 1]].  With [n >= 2], [to_hex_string] stays within
    bounds and writes the [2 n] characters of the encoding; then, when [n]
    is a multiple of four, [from_hex_string] stays within bounds and gives
    [b] back, and otherwise its first loop, which takes eight characters
    per iteration, reads [in[2 n]], past the end of its input.  So the
    round trip is the identity exactly for the lengths 4, 8, 12, ... *)
Theorem hex_round_trip (b : list Z) :
  Forall is_byte b -> Z.of_nat (length b) < 2 ^ 62 ->
  round_trip b
  = (if (length b <? 2)%nat then Fault (OutOfBoundsRead (2 ^ 64 - 1))
     else if (length b mod 4 =? 0)%nat then Ok b
     else Fault (OutOfBoundsRead (Z.of_nat (2 * length b))))
  /\ ((2 <= length b)%nat ->
      to_hex_string_s b = Ok (encode b)
      /\ length (encode b) = (2 * length b)%nat).
Proof.
  intros Hb HL. split.
  - unfold round_trip.
    destruct (Nat.ltb_spec (length b) 2) as [Hlt|Hge].
    + rewrite to_hex_string_s_short by exact Hlt. reflexivity.
    + rewrite to_hex_string_s_ok by assumption. cbn [mbind result_bind].
      destruct (Nat.eqb_spec (length b mod 4) 0) as [Hm|Hm].
      * apply from_hex_string_s_encoded; assumption.
      * rewrite (from_hex_string_s_fault (encode b) (length b));
          [rewrite encode_length; reflexivity|apply encode_length|exact Hm|exact HL].
  - intros Hge. split; [apply to_hex_string_s_ok; assumption|apply encode_length].
Qed.

Lemma hex_round_trip_witness :
  round_trip [18; 52] = Fault (OutOfBoundsRead 4)
  /\ round_trip [18; 52; 171; 205] = Ok [18; 52; 171; 205].
Proof.
  split.
  - apply (proj1 (hex_round_trip [18; 52]
      ltac:(repeat constructor; unfold is_byte; lia) ltac:(simpl; lia))).
  - apply (proj1 (hex_round_trip [18; 52; 171; 205]
      ltac:(repeat constructor; unfold is_byte; lia) ltac:(simpl; lia))).
Defined.

End HexTheory.

Module GuardTheory.
Import Guard.
Local Open Scope nat_scope.

Section Counting.
Context {A : Type} (P : A -> bool).

Lemma count_nil : count P [] = 0.
Proof. reflexivity. Qed.

Lemma count_cons x l : count P (x :: l) = b2n (P x) + count P l.
Proof.
  unfold count. destruct (P x) eqn:E; simpl.
  - rewrite filter_cons_True by exact E. reflexivity.
  - rewrite filter_cons_False by congruence. reflexivity.
Qed.

Lemma count_snoc l x : count P (l ++ [x]) = count P l + b2n (P x).
Proof.
  induction l as [|y l IH]; simpl.
  - rewrite count_cons, count_nil. lia.
  - rewrite !count_cons, IH. lia.
Qed.

Lemma count_insert l i x old :
  l !! i = Some old ->
  count P (<[i := x]> l) + b2n (P old) = count P l + b2n (P x).
Proof.
  revert i. induction l as [|y l IH]; intros [|i] Hi; simpl in *; try discriminate.
  - injection Hi as ->. rewrite !count_cons. lia.
  - rewrite !count_cons. specialize (IH i Hi). lia.
Qed.

Lemma count_insert_le l i x :
  count P (<[i := x]> l) <= count P l + b2n (P x).
Proof.
  destruct (l !! i) as [old|] eqn:Hi.
  - pose proof (count_insert l i x old Hi). lia.
  - rewrite list_insert_ge by (apply lookup_ge_None; exact Hi). lia.
Qed.
End Counting.

Section Accounting.
Variables (p : nat) (e : entities_type).

Lemma get_lookup this w g :
  get this w = Some g -> objs w !! this = Some (Some g).
Proof.
  unfold get. destruct (objs w !! this) as [[g'|]|]; simpl; congruence.
Qed.

Lemma get_put_eq this slot w :
  this < length (objs w) -> get this (put this slot w) = slot.
Proof.
  intros H. unfold get, put; simpl.
  rewrite list_lookup_insert_eq by exact H. reflexivity.
Qed.

Lemma get_put_ne this o slot w :
  this <> o -> get o (put this slot w) = get o w.
Proof.
  intros H. unfold get, put; simpl.
  rewrite list_lookup_insert_ne by exact H. reflexivity.
Qed.

Lemma holders_put this slot old w :
  objs w !! this = Some old ->
  holders p e (put this slot w) + b2n (holds p e old)
  = holders p e w + b2n (holds p e slot).
Proof. intros H. unfold holders, put; simpl. apply count_insert, H. Qed.

Lemma holders_put_le this slot w :
  holders p e (put this slot w) <= holders p e w + b2n (holds p e slot).
Proof. unfold holders, put; simpl. apply count_insert_le. Qed.

Lemma unlocked_put this slot w :
  unlocked p e (put this slot w) = unlocked p e w.
Proof. reflexivity. Qed.

(** [release] gives the lock up without unlocking it. *)
Lemma release_accounting this w w' g :
  get this w = Some g -> release this w = Some w' ->
  holders p e w' + b2n (holds p e (Some g)) = holders p e w
  /\ unlock_calls w' = unlock_calls w.
Proof.
  intros Hg. unfold release. rewrite Hg. simpl. intros [= <-].
  split; [|reflexivity].
  pose proof (holders_put this
    (Some {| _entity := _entity g; parent := None;
             entities := empty_span; hint := hint g |})
    (Some g) w (get_lookup _ _ _ Hg)) as H.
  replace (holds p e (Some {| _entity := _entity g; parent := None;
             entities := empty_span; hint := hint g |})) with false in H
    by reflexivity.
  simpl in H. lia.
Qed.

Lemma unlocks_holds g q :
  parent g = Some q ->
  unlocks p e {| uc_parent := q; uc_entities := entities g; uc_hint := hint g |}
  = holds p e (Some g).
Proof.
  intros Hq. unfold unlocks, holds; simpl. rewrite Hq.
  f_equal. apply bool_decide_ext. split; congruence.
Qed.

(** [unlock] turns a held lock into exactly one call of
    [shared_fs_mutex::unlock], and does nothing on an empty guard. *)
Lemma unlock_accounting this w w' g :
  get this w = Some g -> unlock this w = Some w' ->
  holders p e w' + b2n (holds p e (Some g)) = holders p e w
  /\ unlocked p e w' = unlocked p e w + b2n (holds p e (Some g)).
Proof.
  intros Hg. unfold unlock. rewrite Hg. simpl.
  destruct (parent g) as [q|] eqn:Hq.
  - intros Hr.
    set (w1 := {| objs := objs w; unlock_calls := _ |}) in Hr.
    assert (Hg1 : get this w1 = Some g) by exact Hg.
    destruct (release_accounting this w1 w' g Hg1 Hr) as [Hh Hu].
    split; [exact Hh|].
    unfold unlocked. rewrite Hu. unfold w1; simpl.
    rewrite count_snoc, (unlocks_holds g q Hq). reflexivity.
  - intros [= <-]. unfold holds. rewrite Hq. simpl. lia.
Qed.

Lemma dtor_accounting this w w' :
  dtor this w = Some w' ->
  holders p e w' + unlocked p e w' <= holders p e w + unlocked p e w.
Proof.
  unfold dtor. destruct (get this w) as [g|] eqn:Hg; simpl; [|discriminate].
  destruct (parent g) as [q|] eqn:Hq.
  - destruct (unlock this w) as [w1|] eqn:Hu; simpl; [|discriminate].
    intros [= <-].
    destruct (unlock_accounting this w w1 g Hg Hu) as [Hh Hc].
    pose proof (holders_put_le this None w1) as Hp.
    rewrite unlocked_put. simpl in Hp. lia.
  - intros [= <-].
    pose proof (holders_put_le this None w) as Hp.
    rewrite unlocked_put. simpl in Hp. lia.
Qed.

Lemma move_ctor_accounting this o w w' :
  move_ctor this o w = Some w' ->
  holders p e w' + unlocked p e w' <= holders p e w + unlocked p e w.
Proof.
  unfold move_ctor. destruct (get o w) as [go|] eqn:Hgo; simpl; [|discriminate].
  set (copy := {| _entity := _entity go; parent := parent go;
                  entities := entities go; hint := hint go |}).
  intros Hr.
  assert (Hc : holds p e (Some copy) = holds p e (Some go)) by reflexivity.
  destruct (get o (put this (Some copy) w)) as [g1|] eqn:Hg1.
  2:{ unfold release in Hr. rewrite Hg1 in Hr. discriminate. }
  destruct (release_accounting o _ w' g1 Hg1 Hr) as [Hh Hu].
  assert (Hul : unlocked p e w' = unlocked p e w).
  { unfold unlocked. rewrite Hu. reflexivity. }
  destruct (decide (this = o)) as [->|Hne].
  - pose proof (get_lookup _ _ _ Hgo) as Hl.
    rewrite get_put_eq in Hg1 by (eapply lookup_lt_Some, Hl).
    injection Hg1 as <-.
    pose proof (holders_put o (Some copy) (Some go) w Hl) as H.
    rewrite Hc in Hh, H. lia.
  - rewrite get_put_ne in Hg1 by exact Hne.
    assert (g1 = go) by congruence. subst g1.
    pose proof (holders_put_le this (Some copy) w) as H.
    rewrite Hc in H. lia.
Qed.

Lemma alloc_accounting w :
  holders p e (snd (alloc w)) = holders p e w
  /\ unlocked p e (snd (alloc w)) = unlocked p e w.
Proof.
  split; [|reflexivity]. unfold holders, alloc; simpl.
  rewrite count_snoc. simpl. lia.
Qed.

(** No operation other than a constructor makes the number of holders
    plus the number of unlock calls of a lock grow. *)
Lemma step_accounting o w w' :
  is_ctor o = false -> step o w = Some w' ->
  holders p e w' + unlocked p e w' <= holders p e w + unlocked p e w.
Proof.
  destruct o as [| | |o|this o|this|this|this]; simpl; try discriminate; intros _.
  - intros H. apply move_ctor_accounting in H.
    destruct (alloc_accounting w) as [Ha Hb]. simpl in Ha, Hb. lia.
  - unfold move_assign.
    destruct (dtor this w) as [w1|] eqn:Hd; simpl; [|discriminate].
    intros H. apply move_ctor_accounting in H.
    apply dtor_accounting in Hd. lia.
  - intros H. destruct (get this w) as [g|] eqn:Hg.
    + destruct (unlock_accounting this w w' g Hg H). lia.
    + unfold unlock in H. rewrite Hg in H. discriminate.
  - intros H. destruct (get this w) as [g|] eqn:Hg.
    + destruct (release_accounting this w w' g Hg H) as [Hh Hu].
      unfold unlocked. rewrite Hu. lia.
    + unfold release in H. rewrite Hg in H. discriminate.
  - apply dtor_accounting.
Qed.

Lemma run_accounting ops : forall w w',
  forallb (fun o => negb (is_ctor o)) ops = true -> run ops w = Some w' ->
  holders p e w' + unlocked p e w' <= holders p e w + unlocked p e w.
Proof.
  induction ops as [|o ops IH]; simpl; intros w w' Hc Hr.
  - injection Hr as <-. lia.
  - apply andb_prop in Hc as [Ho Hc].
    destruct (step o w) as [w1|] eqn:Hs; simpl in Hr; [|discriminate].
    apply negb_true_iff in Ho.
    pose proof (step_accounting o w w1 Ho Hs).
    pose proof (IH w1 w' Hc Hr). lia.
Qed.
End Accounting.


Lemma get_lt this w g : get this w = Some g -> this < length (objs w).
Proof. intros H. eapply lookup_lt_Some, get_lookup, H. Qed.

Lemma put_length this slot w : length (objs (put this slot w)) = length (objs w).
Proof. unfold put; simpl. apply length_insert. Qed.

Lemma release_length this w w' :
release this w = Some w' -> length (objs w') = length (objs w).
Proof.
unfold release. destruct (get this w); simpl; [|discriminate].
intros [= <-]. apply put_length.
Qed.

Lemma unlock_length this w w' :
unlock this w = Some w' -> length (objs w') = length (objs w).
Proof.
unfold unlock. destruct (get this w) as [g|]; simpl; [|discriminate].
destruct (parent g).
- intros H. apply release_length in H. exact H.
- intros [= <-]. reflexivity.
Qed.

Lemma dtor_length this w w' :
dtor this w = Some w' -> length (objs w') = length (objs w).
Proof.
unfold dtor. destruct (get this w) as [g|]; simpl; [|discriminate].
destruct (parent g).
- destruct (unlock this w) as [w1|] eqn:Hu; simpl; [|discriminate].
  intros [= <-]. rewrite put_length. apply unlock_length in Hu. exact Hu.
- intros [= <-]. apply put_length.
Qed.

Lemma release_spec this w g :
get this w = Some g ->
exists w' g', release this w = Some w' /\ get this w' = Some g'
  /\ parent g' = None /\ entities g' = empty_span
  /\ unlock_calls w' = unlock_calls w
  /\ (forall o, o <> this -> get o w' = get o w).
Proof.
intros Hg. unfold release. rewrite Hg. simpl.
eexists _, _. split; [reflexivity|].
split; [apply get_put_eq, (get_lt _ _ _ Hg)|].
repeat split. intros o Ho. apply get_put_ne. congruence.
Qed.

Lemma unlock_spec this w g :
get this w = Some g ->
exists w' g', unlock this w = Some w' /\ get this w' = Some g'
  /\ parent g' = None
  /\ unlock_calls w' = unlock_calls w ++ calls_of g
  /\ (forall o, o <> this -> get o w' = get o w).
Proof.
intros Hg. unfold unlock, calls_of. rewrite Hg. simpl.
destruct (parent g) as [q|] eqn:Hq.
- set (w1 := {| objs := objs w; unlock_calls := _ |}).
  destruct (release_spec this w1 g Hg) as (w' & g' & Hr & Hg' & Hp & _ & Hu & Ho).
  exists w', g'. repeat split; assumption.
- exists w, g. rewrite app_nil_r. repeat split; assumption.
Qed.

Lemma dtor_spec this w g :
get this w = Some g ->
exists w', dtor this w = Some w' /\ get this w' = None
  /\ unlock_calls w' = unlock_calls w ++ calls_of g
  /\ (forall o, o <> this -> get o w' = get o w).
Proof.
intros Hg. unfold dtor. rewrite Hg. simpl.
destruct (parent g) as [q|] eqn:Hq.
- destruct (unlock_spec this w g Hg) as (w1 & g1 & Hu & Hg1 & _ & Hc & Ho).
  rewrite Hu. simpl. eexists. split; [reflexivity|].
  split; [apply get_put_eq, (get_lt _ _ _ Hg1)|].
  split; [exact Hc|].
  intros o Hne. rewrite get_put_ne by congruence. apply Ho, Hne.
- eexists. split; [reflexivity|].
  split; [apply get_put_eq, (get_lt _ _ _ Hg)|].
  split; [unfold calls_of; rewrite Hq, app_nil_r; reflexivity|].
  intros o Hne. apply get_put_ne. congruence.
Qed.

Lemma move_ctor_spec this o w go :
this <> o -> this < length (objs w) -> get o w = Some go ->
exists w' gt gs, move_ctor this o w = Some w'
  /\ get this w' = Some gt /\ parent gt = parent go
  /\ entities gt = entities go /\ hint gt = hint go
  /\ get o w' = Some gs /\ parent gs = None
  /\ unlock_calls w' = unlock_calls w.
Proof.
intros Hne Hlt Hgo. unfold move_ctor. rewrite Hgo. simpl.
set (copy := {| _entity := _entity go; parent := parent go;
                entities := entities go; hint := hint go |}).
assert (Hgo1 : get o (put this (Some copy) w) = Some go)
  by (rewrite get_put_ne by exact Hne; exact Hgo).
destruct (release_spec o _ go Hgo1) as (w' & gs & Hr & Hgs & Hp & _ & Hu & Ho).
exists w', copy, gs. split; [exact Hr|].
split; [rewrite Ho by exact Hne; apply get_put_eq, Hlt|].
repeat split; assumption.
Qed.

Lemma move_assign_spec this o w gt0 go :
this <> o -> get this w = Some gt0 -> get o w = Some go ->
exists w' gt gs, move_assign this o w = Some w'
  /\ get this w' = Some gt /\ parent gt = parent go
  /\ entities gt = entities go /\ hint gt = hint go
  /\ get o w' = Some gs /\ parent gs = None
  /\ unlock_calls w' = unlock_calls w ++ calls_of gt0.
Proof.
intros Hne Hgt Hgo. unfold move_assign.
destruct (dtor_spec this w gt0 Hgt) as (w1 & Hd & Hn & Hc & Ho).
rewrite Hd. simpl.
assert (Hlt : this < length (objs w1)).
{ rewrite (dtor_length _ _ _ Hd). apply (get_lt _ _ _ Hgt). }
assert (Hgo1 : get o w1 = Some go) by (rewrite Ho by congruence; exact Hgo).
destruct (move_ctor_spec this o w1 go Hne Hlt Hgo1)
  as (w' & gt & gs & Hm & H1 & H2 & H3 & H4 & H5 & H6 & H7).
exists w', gt, gs. repeat split; try assumption. congruence.
Qed.


Lemma operator_bool_spec g : operator_bool g = true <-> parent g <> None.
Proof. unfold operator_bool. destruct (parent g); split; congruence. Qed.

Lemma operator_bool_holds g :
  operator_bool g = true <-> exists q, holds q (entities g) (Some g) = true.
Proof.
  unfold operator_bool, holds. destruct (parent g) as [q|]; split.
  - intros _. exists q. rewrite !bool_decide_eq_true_2; reflexivity.
  - reflexivity.
  - discriminate.
  - intros [q H]. apply andb_prop in H as [H _].
    apply bool_decide_eq_true_1 in H. discriminate.
Qed.

(** A guard constructed on a lock, in an otherwise empty world. *)
Lemma construct_accounting q e w :
  step (Construct (Some q) e) empty_world = Some w ->
  holders q e w = 1 /\ unlocked q e w = 0.
Proof.
  simpl. intros [= <-]. unfold holders, unlocked, ctor_span, put; simpl.
  rewrite count_cons, count_nil. unfold holds; simpl.
  rewrite !bool_decide_eq_true_2; [|reflexivity..]. split; reflexivity.
Qed.

(** C10.  Whatever is done with the guards of a program after a lock
    [(q, e)] was taken into an [entities_guard] (moves, move assignments,
    [unlock()], [release()], destructions, in any order and number),
    [q->unlock(e, _)] is called at most once, and never while a guard still
    holds the lock.  Moreover, for every guard: [unlock()] and [release()]
    leave [parent] null, after which [operator bool] is false and the
    destructor calls no unlock; move construction and move assignment hand
    [parent], [entities] and [hint] to the target and leave the source with
    a null [parent] (move assignment first unlocking what the target held);
    and [operator bool] is true exactly when the guard holds a lock. *)
Theorem entities_guard_unlocks_at_most_once
    (q : nat) (e : entities_type) (ops : list op) (w' : world) :
  forallb (fun o => negb (is_ctor o)) ops = true ->
  run (Construct (Some q) e :: ops) empty_world = Some w' ->
  holders q e w' + unlocked q e w' <= 1
  /\ (forall this w g, get this w = Some g ->
        (exists w1 g1, unlock this w = Some w1 /\ get this w1 = Some g1
           /\ parent g1 = None /\ operator_bool g1 = false
           /\ unlock_calls w1 = unlock_calls w ++ calls_of g
           /\ exists w2, dtor this w1 = Some w2
                /\ unlock_calls w2 = unlock_calls w1)
        /\ (exists w1 g1, release this w = Some w1 /\ get this w1 = Some g1
           /\ parent g1 = None /\ operator_bool g1 = false
           /\ unlock_calls w1 = unlock_calls w
           /\ exists w2, dtor this w1 = Some w2
                /\ unlock_calls w2 = unlock_calls w1))
  /\ (forall this o w go,
        this <> o -> this < length (objs w) -> get o w = Some go ->
        exists w1 gt gs, move_ctor this o w = Some w1
          /\ get this w1 = Some gt /\ parent gt = parent go
          /\ entities gt = entities go /\ hint gt = hint go
          /\ get o w1 = Some gs /\ parent gs = None
          /\ unlock_calls w1 = unlock_calls w)
  /\ (forall this o w gt0 go,
        this <> o -> get this w = Some gt0 -> get o w = Some go ->
        exists w1 gt gs, move_assign this o w = Some w1
          /\ get this w1 = Some gt /\ parent gt = parent go
          /\ entities gt = entities go /\ hint gt = hint go
          /\ get o w1 = Some gs /\ parent gs = None
          /\ unlock_calls w1 = unlock_calls w ++ calls_of gt0)
  /\ (forall g, (operator_bool g = true <-> parent g <> None)
        /\ (operator_bool g = true <->
            exists m, holds m (entities g) (Some g) = true)
        /\ operator_not g = negb (operator_bool g)).
Proof.
  intros Hops Hrun. split; [|split; [|split; [|split]]].
  - cbn [run] in Hrun.
    destruct (step (Construct (Some q) e) empty_world) as [w0|] eqn:Hc;
      [|discriminate].
    cbn [mbind option_bind] in Hrun.
    destruct (construct_accounting q e w0 Hc) as [Hh Hu].
    pose proof (run_accounting q e ops w0 w' Hops Hrun). lia.
  - intros this w g Hg. split.
    + destruct (unlock_spec this w g Hg) as (w1 & g1 & Hu & Hg1 & Hp & Hc & _).
      exists w1, g1. repeat split; try assumption.
      { unfold operator_bool. rewrite Hp. reflexivity. }
      destruct (dtor_spec this w1 g1 Hg1) as (w2 & Hd & _ & Hc2 & _).
      exists w2. split; [exact Hd|].
      rewrite Hc2. unfold calls_of. rewrite Hp. apply app_nil_r.
    + destruct (release_spec this w g Hg) as (w1 & g1 & Hr & Hg1 & Hp & _ & Hc & _).
      exists w1, g1. repeat split; try assumption.
      { unfold operator_bool. rewrite Hp. reflexivity. }
      destruct (dtor_spec this w1 g1 Hg1) as (w2 & Hd & _ & Hc2 & _).
      exists w2. split; [exact Hd|].
      rewrite Hc2. unfold calls_of. rewrite Hp. apply app_nil_r.
  - apply move_ctor_spec.
  - apply move_assign_spec.
  - intros g. split; [apply operator_bool_spec|].
    split; [apply operator_bool_holds|].
    unfold operator_not, operator_bool. destruct (parent g); reflexivity.
Qed.

Lemma entities_guard_unlocks_at_most_once_witness :
  forallb (fun o => negb (is_ctor o)) demo_ops = true
  /\ run (Construct (Some 7) demo_span :: demo_ops) empty_world = Some demo_world
  /\ holders 7 demo_span demo_world + unlocked 7 demo_span demo_world <= 1.
Proof.
  split; [reflexivity|]. split; [reflexivity|].
  exact (proj1 (entities_guard_unlocks_at_most_once 7 demo_span demo_ops
                  demo_world eq_refl eq_refl)).
Defined.

End GuardTheory.

Module ServiceTheory.
Import IoService.

(** *** Size arithmetic *)

Lemma wrap_small z : 0 <= z < 2 ^ 64 -> wrap z = z.
Proof. intros H. unfold wrap. apply Z.mod_small, H. Qed.

Lemma wrap_pred z : wrap (wrap z - 1) = wrap (z - 1).
Proof. unfold wrap. apply Zminus_mod_idemp_l. Qed.

(** *** The trace projections *)

Lemma pushed_app a b : pushed (a ++ b) = pushed a ++ pushed b.
Proof. apply omap_app. Qed.

Lemma invoked_app a b : invoked (a ++ b) = invoked a ++ invoked b.
Proof. apply omap_app. Qed.

(** *** [__post_done] and [_post_done] *)

Lemma find_and_null_Some locked pi q q' evs :
  find_and_null locked pi q = Some (q', evs) ->
  q' = null_at pi q /\ pi ∈ map addr q
  /\ evs = [EvReset pi; EvNull pi locked true].
Proof.
  revert q' evs. induction q as [|i q IH]; simpl; intros q' evs H; [discriminate|].
  destruct (decide (addr i = pi)) as [<-|Hne].
  - injection H as <- <-. split; [reflexivity|]. split; [left|reflexivity].
  - destruct (find_and_null locked pi q) as [[q'' evs']|]; simpl in H; [|discriminate].
    injection H as <- <-. destruct (IH _ _ eq_refl) as (-> & Hin & ->).
    split; [reflexivity|]. split; [right; exact Hin|reflexivity].
Qed.

Lemma find_and_null_None locked pi q :
  find_and_null locked pi q = None -> pi ∉ map addr q.
Proof.
  induction q as [|i q IH]; simpl; intros H.
  - apply not_elem_of_nil.
  - destruct (decide (addr i = pi)) as [<-|Hne]; [discriminate|].
    destruct (find_and_null locked pi q) as [[q'' evs']|]; simpl in H; [discriminate|].
    apply not_elem_of_cons. split; [congruence|]. apply IH. reflexivity.
Qed.

(** The compaction loop pops a prefix of consumed elements, in order, and
    runs off the end of the queue exactly when every element is consumed. *)
Lemma pop_consumed_spec q :
  exists popped,
    fst (pop_consumed q) = map EvPop popped
    /\ Forall (fun i => service i = None) popped
    /\ match snd (pop_consumed q) with
       | Some q' => q = popped ++ q' /\ exists i q'', q' = i :: q'' /\ live i = true
       | None => q = popped
       end.
Proof.
  induction q as [|i q IH]; simpl.
  - exists []. repeat split. constructor.
  - destruct (service i) as [sv|] eqn:Hs.
    + exists []. simpl. repeat split; [constructor|].
      exists i, q. split; [reflexivity|]. unfold live. rewrite Hs. reflexivity.
    + destruct IH as (popped & Hev & Hall & Hq).
      destruct (pop_consumed q) as [evs r]. simpl in *.
      exists (i :: popped). simpl. split; [congruence|].
      split; [constructor; assumption|].
      destruct r as [q'|].
      * destruct Hq as [-> Hq]. split; [reflexivity|exact Hq].
      * congruence.
Qed.

(** What [__post_done] does: it aborts when [pi] is not in the queue;
    otherwise it resets and nulls the element at [pi], decrements the work
    counter, and pops the consumed prefix -- halting on [front()] of the
    empty deque when no live element is left. *)
Lemma post_done_spec (pi : nat) s :
  ((pi ∉ map addr (_posts s)) /\ __post_done pi s = Halt Aborted s)
  \/ ((pi ∈ map addr (_posts s))
      /\ exists popped rest,
           null_at pi (_posts s) = popped ++ rest
           /\ Forall consumed popped
           /\ ((rest = [] /\ __post_done pi s
                  = Halt FrontOfEmptyDeque (post_done_state pi popped rest s))
               \/ (exists i q, rest = i :: q /\ live i = true
                    /\ __post_done pi s = Done (post_done_state pi popped rest s)))).
Proof.
  unfold __post_done. cbv beta iota zeta.
  destruct (find_and_null (_posts_lock s) pi (_posts s)) as [[q evs]|] eqn:Hf.
  - right. destruct (find_and_null_Some _ _ _ _ _ Hf) as (-> & Hin & ->).
    split; [exact Hin|].
    cbn [_posts _work_done set_work log set_posts].
    destruct (pop_consumed_spec (null_at pi (_posts s))) as (popped & Hev & Hall & Hq).
    destruct (pop_consumed (null_at pi (_posts s))) as [evs r]. simpl in Hev, Hq.
    subst evs. destruct r as [q'|].
    + destruct Hq as (Hq & i & q'' & -> & Hl).
      exists popped, (i :: q''). split; [exact Hq|]. split; [exact Hall|].
      right. exists i, q''. repeat split. exact Hl.
    + exists popped, []. rewrite app_nil_r. split; [exact Hq|].
      split; [exact Hall|]. left. split; reflexivity.
  - left. split; [eapply find_and_null_None, Hf|reflexivity].
Qed.

Lemma null_at_middle i before after :
  addr i ∉ map addr before ->
  null_at (addr i) (before ++ i :: after)
  = before ++ null_service (reset_f i) :: after.
Proof.
  induction before as [|j before IH]; simpl; intros Hn.
  - rewrite decide_True by reflexivity. reflexivity.
  - apply not_elem_of_cons in Hn as [Hne Hn].
    rewrite decide_False by congruence. rewrite IH by exact Hn. reflexivity.
Qed.

Lemma consumed_not_live i : consumed i -> live i = true -> False.
Proof. unfold consumed, live. intros ->. discriminate. Qed.

(** C8.  [__post_done] on an element that is in the queue, when every
    other element of the queue is already consumed -- in particular when
    it is the only element --, pops the whole queue and then evaluates
    [_posts.front()] on the empty deque. *)
Theorem post_done_reads_front_of_empty_deque
    (s : io_service) (i : post_info) (before after : list post_info) :
  _posts s = before ++ i :: after ->
  Forall consumed before -> Forall consumed after ->
  addr i ∉ map addr before ->
  __post_done (addr i) s
  = Halt FrontOfEmptyDeque
      (post_done_state (addr i)
         (before ++ null_service (reset_f i) :: after) [] s).
Proof.
  intros Hq Hb Ha Hn.
  assert (Hall : Forall consumed (null_at (addr i) (_posts s))).
  { rewrite Hq, null_at_middle by exact Hn.
    apply Forall_app. split; [exact Hb|]. constructor; [reflexivity|exact Ha]. }
  destruct (post_done_spec (addr i) s) as [[Hnot _]|(_ & popped & rest & Hsplit & _ & Hr)].
  - exfalso. apply Hnot. rewrite Hq, map_app. apply elem_of_app. right. left.
  - destruct Hr as [[-> Hr]|(j & q & -> & Hl & _)].
    + rewrite Hr. rewrite app_nil_r in Hsplit. subst popped.
      rewrite Hq, null_at_middle by exact Hn. reflexivity.
    + exfalso. rewrite Hsplit in Hall.
      apply Forall_app in Hall as [_ Hall].
      inversion Hall as [|? ? Hc _]; subst.
      exact (consumed_not_live j Hc Hl).
Qed.

Lemma post_done_reads_front_of_empty_deque_witness :
  __post_done 0 one_post_locked
  = Halt FrontOfEmptyDeque
      (post_done_state 0 [null_service (reset_f demo_entry)] [] one_post_locked).
Proof.
  apply (post_done_reads_front_of_empty_deque one_post_locked demo_entry [] []).
  - reflexivity.
  - constructor.
  - constructor.
  - simpl. apply not_elem_of_nil.
Defined.

Lemma null_at_absent pi q : (pi ∉ map addr q) -> null_at pi q = q.
Proof.
  induction q as [|i q IH]; simpl; intros Hn; [reflexivity|].
  apply not_elem_of_cons in Hn as [Hne Hn].
  rewrite decide_False by congruence. rewrite IH by exact Hn. reflexivity.
Qed.

Lemma pops_map_EvPop l : pops (map EvPop l) = l.
Proof. induction l as [|i l IH]; simpl; [reflexivity|]. f_equal. exact IH. Qed.

Lemma nulls_map_EvPop l : nulls (map EvPop l) = [].
Proof. induction l as [|i l IH]; simpl; [reflexivity|exact IH]. Qed.

Lemma post_done_state_trace pi popped rest s :
  trace (post_done_state pi popped rest s)
  = trace s ++ post_done_events pi (_posts_lock s) popped.
Proof.
  unfold post_done_state, post_done_events; simpl.
  rewrite <- !app_assoc. reflexivity.
Qed.

(** The trace and the queue of [__post_done], whatever its outcome. *)
Lemma post_done_trace (pi : nat) s :
  exists evs popped,
    trace (state_of (__post_done pi s)) = trace s ++ evs
    /\ ((pi ∈ map addr (_posts s)) ->
        evs = post_done_events pi (_posts_lock s) popped)
    /\ ((pi ∉ map addr (_posts s)) -> evs = [] /\ popped = [])
    /\ Forall consumed popped
    /\ null_at pi (_posts s) = popped ++ _posts (state_of (__post_done pi s))
    /\ _posts_lock (state_of (__post_done pi s)) = _posts_lock s.
Proof.
  destruct (post_done_spec pi s) as [[Hn ->]|(Hin & popped & rest & Hq & Hall & Hr)].
  - exists [], []. simpl. rewrite app_nil_r. split; [reflexivity|].
    split; [intros H; contradiction|]. split; [intros _; split; reflexivity|].
    split; [constructor|]. split; [apply null_at_absent, Hn|reflexivity].
  - exists (post_done_events pi (_posts_lock s) popped), popped.
    assert (Hs : state_of (__post_done pi s) = post_done_state pi popped rest s).
    { destruct Hr as [[_ ->]|(i & q & _ & _ & ->)]; reflexivity. }
    rewrite Hs. split; [apply post_done_state_trace|].
    split; [reflexivity|]. split; [intros H; contradiction|].
    split; [exact Hall|]. split; [exact Hq|reflexivity].
Qed.

(** C7.  [_post_done] takes the post lock and runs [__post_done] under
    it.  The only back-pointer it nulls is the one of the element at [pi],
    with the lock held and after that element's callable was reset; the
    elements it removes are a prefix of the queue, all of them consumed,
    popped from the front; every other element stays as it was, in its
    place.  [__post_done] called on its own nulls under the lock exactly
    when its caller holds it. *)
Theorem post_done_nulls_under_lock (s : io_service) (pi : nat) :
  _posts_lock s = false ->
  (exists evs popped,
     trace (state_of (_post_done pi s)) = trace s ++ evs
     /\ ((pi ∈ map addr (_posts s)) ->
         evs = [EvReset pi; EvNull pi true true; EvWorkDone] ++ map EvPop popped
         /\ nulls evs = [(pi, true, true)])
     /\ ((pi ∉ map addr (_posts s)) -> evs = [] /\ popped = [])
     /\ pops evs = popped
     /\ Forall consumed popped
     /\ null_at pi (_posts s) = popped ++ _posts (state_of (_post_done pi s)))
  /\ (forall s0, exists evs popped,
        trace (state_of (__post_done pi s0)) = trace s0 ++ evs
        /\ (forall x, x ∈ nulls evs -> x = (pi, _posts_lock s0, true))
        /\ pops evs = popped
        /\ Forall consumed popped
        /\ null_at pi (_posts s0) = popped ++ _posts (state_of (__post_done pi s0))).
Proof.
  intros Hfree. split.
  - destruct (post_done_trace pi (set_lock true s))
      as (evs & popped & Htr & Hin & Hout & Hall & Hq & _).
    assert (Hst : trace (state_of (_post_done pi s))
                  = trace (state_of (__post_done pi (set_lock true s)))
                  /\ _posts (state_of (_post_done pi s))
                  = _posts (state_of (__post_done pi (set_lock true s)))).
    { unfold _post_done, lock_guard. rewrite Hfree.
      destruct (__post_done pi (set_lock true s)); split; reflexivity. }
    destruct Hst as [Ht Hp]. rewrite Ht, Hp.
    exists evs, popped. split; [exact Htr|].
    split.
    { intros H. specialize (Hin H). subst evs. split; [reflexivity|].
      unfold post_done_events. simpl. rewrite nulls_map_EvPop. reflexivity. }
    split; [exact Hout|]. split.
    { destruct (decide (pi ∈ map addr (_posts s))) as [H|H].
      - rewrite (Hin H). unfold post_done_events. simpl. apply pops_map_EvPop.
      - destruct (Hout H) as [-> ->]. reflexivity. }
    split; [exact Hall|exact Hq].
  - intros s0.
    destruct (post_done_trace pi s0) as (evs & popped & Htr & Hin & Hout & Hall & Hq & _).
    exists evs, popped. split; [exact Htr|].
    destruct (decide (pi ∈ map addr (_posts s0))) as [H|H].
    + rewrite (Hin H). unfold post_done_events. simpl.
      rewrite nulls_map_EvPop, pops_map_EvPop.
      split; [|split; [reflexivity|split; [exact Hall|exact Hq]]].
      intros x Hx. apply list_elem_of_singleton in Hx. exact Hx.
    + destruct (Hout H) as [-> ->]. simpl.
      split; [|split; [reflexivity|split; [exact Hall|exact Hq]]].
      intros x Hx. apply elem_of_nil in Hx. contradiction.
Qed.

Lemma post_done_nulls_under_lock_witness :
  exists evs popped,
    trace (state_of (_post_done 0 one_post)) = trace one_post ++ evs
    /\ pops evs = popped /\ Forall consumed popped
    /\ null_at 0 (_posts one_post) = popped ++ _posts (state_of (_post_done 0 one_post)).
Proof.
  destruct (proj1 (post_done_nulls_under_lock one_post 0 eq_refl))
    as (evs & popped & H1 & _ & _ & H2 & H3 & H4).
  exists evs, popped. repeat split; assumption.
Defined.

(** *** The operations keep the invariant *)

Lemma omap_f_ready q : Forall ready q -> length (omap f q) = length q.
Proof.
  induction 1 as [|i q [_ [c Hc]] _ IH]; simpl; [reflexivity|].
  rewrite Hc. simpl. f_equal. exact IH.
Qed.

Lemma pending_ready q : Forall ready q -> filter (fun i => live i = true) q = q.
Proof.
  induction 1 as [|i q [Hl _] _ IH]; [reflexivity|].
  rewrite filter_cons_True by exact Hl. f_equal. exact IH.
Qed.

Lemma Inv_new this thread : Inv (io_service_new this thread).
Proof. split; simpl; try reflexivity. constructor. Qed.

Lemma post_posted c s : _posts_lock s = false -> post c s = Done (posted c s).
Proof.
  intros H. unfold post, posted, lock_guard. simpl. rewrite H. reflexivity.
Qed.

Lemma posted_lock c s : _posts_lock (posted c s) = false.
Proof. unfold posted, wake_if_needed. simpl. destruct (_need_signal s); reflexivity. Qed.

Lemma posted_posts c s :
  _posts (posted c s) = _posts s ++ [entry (self s) (next_addr s) c].
Proof. unfold posted, wake_if_needed. simpl. destruct (_need_signal s); reflexivity. Qed.

Lemma posted_work c s : _work_queued (posted c s) = wrap (_work_queued s + 1).
Proof. unfold posted, wake_if_needed. simpl. destruct (_need_signal s); reflexivity. Qed.

Lemma posted_aiocbsv c s : _aiocbsv (posted c s) = _aiocbsv s.
Proof. unfold posted, wake_if_needed. simpl. destruct (_need_signal s); reflexivity. Qed.

Lemma posted_self c s : self (posted c s) = self s.
Proof. unfold posted, wake_if_needed. simpl. destruct (_need_signal s); reflexivity. Qed.

Lemma posted_thread c s : _threadh (posted c s) = _threadh s.
Proof. unfold posted, wake_if_needed. simpl. destruct (_need_signal s); reflexivity. Qed.

Lemma posted_trace c s :
  exists w, trace (posted c s)
            = trace s ++ [EvWorkEnqueued 1; EvPush (next_addr s) c] ++ w
       /\ (w = [] \/ w = [EvWake]).
Proof.
  unfold posted, wake_if_needed. simpl. destruct (_need_signal s); simpl.
  - exists [EvWake]. rewrite <- !app_assoc. split; [reflexivity|right; reflexivity].
  - exists []. rewrite <- !app_assoc. split; [reflexivity|left; reflexivity].
Qed.

Lemma decrements_app a b : decrements (a ++ b) = decrements a ++ decrements b.
Proof. apply omap_app. Qed.
Lemma increments_app a b : increments (a ++ b) = increments a ++ increments b.
Proof. apply omap_app. Qed.
Lemma submitted_app a b : submitted (a ++ b) = submitted a ++ submitted b.
Proof. apply omap_app. Qed.
Lemma completed_app a b : completed (a ++ b) = completed a ++ completed b.
Proof. apply omap_app. Qed.
Lemma nulls_app a b : nulls (a ++ b) = nulls a ++ nulls b.
Proof. apply omap_app. Qed.
Lemma pops_app a b : pops (a ++ b) = pops a ++ pops b.
Proof. apply omap_app. Qed.

Ltac split_trace :=
  rewrite ?pushed_app, ?invoked_app, ?decrements_app, ?increments_app,
    ?submitted_app, ?completed_app, ?nulls_app, ?pops_app.

Lemma wrap_add_l a b : wrap (wrap a + b) = wrap (a + b).
Proof. unfold wrap. apply Zplus_mod_idemp_l. Qed.

Lemma wrap_wrap a : wrap (wrap a) = wrap a.
Proof. unfold wrap. apply Zmod_mod. Qed.

Lemma grown_refl s : _posts_lock s = false -> grown [] s s.
Proof.
  intros H. unfold grown. repeat split; try assumption.
  - simpl. rewrite Z.add_0_r. reflexivity.
  - exists [], []. rewrite !app_nil_r. repeat split. constructor.
Qed.

Lemma grown_posted c s : grown [c] s (posted c s).
Proof.
  unfold grown.
  split; [apply posted_lock|]. split; [apply posted_self|].
  split; [apply posted_thread|]. split; [apply posted_aiocbsv|].
  split; [rewrite posted_work, wrap_wrap; reflexivity|].
  destruct (posted_trace c s) as (w & Ht & Hw).
  exists [entry (self s) (next_addr s) c],
         ([EvWorkEnqueued 1; EvPush (next_addr s) c] ++ w).
  split; [apply posted_posts|].
  split; [repeat constructor; eexists; reflexivity|].
  split; [reflexivity|]. split; [exact Ht|].
  destruct Hw as [-> | ->]; repeat split.
Qed.

Lemma grown_trans cs1 cs2 s s1 s2 :
  grown cs1 s s1 -> grown cs2 s1 s2 -> grown (cs1 ++ cs2) s s2.
Proof.
  intros (_ & Hs1 & Ht1 & Ha1 & Hw1 & E1 & T1 & Hq1 & Hr1 & Hf1 & Htr1
          & Hp1 & Hi1 & Hd1 & Hn1 & Hsu1 & Hc1 & Hnu1 & Hpo1)
         (Hl2 & Hs2 & Ht2 & Ha2 & Hw2 & E2 & T2 & Hq2 & Hr2 & Hf2 & Htr2
          & Hp2 & Hi2 & Hd2 & Hn2 & Hsu2 & Hc2 & Hnu2 & Hpo2).
  unfold grown.
  split; [exact Hl2|]. split; [congruence|]. split; [congruence|].
  split; [congruence|].
  split.
  { rewrite Hw2, <- wrap_add_l, Hw1, wrap_add_l.
    f_equal. rewrite length_app. lia. }
  exists (E1 ++ E2), (T1 ++ T2).
  split; [rewrite Hq2, Hq1, app_assoc; reflexivity|].
  split; [apply Forall_app; split; assumption|].
  split; [rewrite omap_app; congruence|].
  split; [rewrite Htr2, Htr1, app_assoc; reflexivity|].
  split_trace.
  rewrite Hp1, Hp2, Hi1, Hi2, Hd1, Hd2, Hn1, Hn2, Hsu1, Hsu2, Hc1, Hc2,
    Hnu1, Hnu2, Hpo1, Hpo2.
  repeat split. rewrite length_app, replicate_add. reflexivity.
Qed.

Lemma post_all_grown cs : forall s,
  _posts_lock s = false -> exists s', post_all cs s = Done s' /\ grown cs s s'.
Proof.
  induction cs as [|c cs IH]; intros s Hl; simpl.
  - exists s. split; [reflexivity|apply grown_refl, Hl].
  - rewrite post_posted by exact Hl. simpl.
    destruct (IH (posted c s) (posted_lock c s)) as (s' & Hp & Hg).
    exists s'. split; [exact Hp|].
    exact (grown_trans [c] cs _ _ _ (grown_posted c s) Hg).
Qed.

Lemma replicate_snoc1 n : replicate n 1 ++ [1] = replicate (n + 1) 1.
Proof. rewrite replicate_add. reflexivity. Qed.

Lemma Inv_posted c s : Inv s -> Inv (posted c s).
Proof.
  intros [Hq Hw Hf Hio Hd Hi].
  destruct (posted_trace c s) as (w & Ht & Hwk).
  assert (Hp : pushed (trace (posted c s)) = pushed (trace s) ++ [c]
          /\ invoked (trace (posted c s)) = invoked (trace s)
          /\ decrements (trace (posted c s)) = decrements (trace s)
          /\ increments (trace (posted c s)) = increments (trace s) ++ [1]
          /\ submitted (trace (posted c s)) = submitted (trace s)
          /\ completed (trace (posted c s)) = completed (trace s)).
  { rewrite Ht. split_trace.
    destruct Hwk as [-> | ->]; simpl; rewrite ?app_nil_r; repeat split. }
  destruct Hp as (Hp1 & Hp2 & Hp3 & Hp4 & Hp5 & Hp6).
  split.
  - rewrite posted_posts. apply Forall_app. split; [exact Hq|].
    repeat constructor. eexists; reflexivity.
  - rewrite posted_work, posted_posts, posted_aiocbsv, Hw, wrap_add_l, length_app.
    f_equal. simpl. lia.
  - rewrite Hp1, Hp2, posted_posts, omap_app, Hf, app_assoc. reflexivity.
  - rewrite posted_aiocbsv, Hp5, Hp6. exact Hio.
  - rewrite Hp3, Hp2, Hp6. exact Hd.
  - rewrite Hp4, Hp1, Hp5, Hi, replicate_snoc1, length_app. simpl.
    f_equal. lia.
Qed.

Lemma Inv_submit r s : Inv s -> Inv (submit r s).
Proof.
  intros [Hq Hw Hf Hio Hd Hi]. unfold submit. split; simpl.
  - exact Hq.
  - rewrite Hw, wrap_add_l, length_app. f_equal. simpl. lia.
  - split_trace. simpl. rewrite !app_nil_r. exact Hf.
  - split_trace. simpl. rewrite app_nil_r, !length_app. simpl. lia.
  - split_trace. simpl. rewrite !app_nil_r. exact Hd.
  - split_trace. simpl. rewrite !app_nil_r, Hi, replicate_snoc1, length_app. simpl.
    f_equal. lia.
Qed.

Lemma remove_first_length r v :
  r ∈ v -> S (length (remove_first r v)) = length v.
Proof.
  induction v as [|x v IH]; simpl; intros H.
  - apply elem_of_nil in H. contradiction.
  - destruct (decide (x = r)) as [->|Hne]; [reflexivity|].
    apply elem_of_cons in H as [H|H]; [congruence|].
    simpl. f_equal. apply IH, H.
Qed.

Lemma wrap_pred_of_nat n : wrap (wrap (Z.of_nat (S n)) - 1) = wrap (Z.of_nat n).
Proof. rewrite wrap_pred. f_equal. lia. Qed.

Lemma Inv_complete r s : Inv s -> Inv (complete r s).
Proof.
  intros H. unfold complete, in_flight. case_bool_decide as Hin; [|exact H].
  destruct H as [Hq Hw Hf Hio Hd Hi].
  pose proof (remove_first_length r _ Hin) as Hlen.
  split; simpl.
  - exact Hq.
  - rewrite Hw.
    replace (length (_posts s) + length (_aiocbsv s))%nat
      with (S (length (_posts s) + length (remove_first r (_aiocbsv s)))) by lia.
    apply wrap_pred_of_nat.
  - split_trace. simpl. rewrite !app_nil_r. exact Hf.
  - split_trace. simpl. rewrite !app_nil_r, length_app. simpl. lia.
  - split_trace. simpl. rewrite !app_nil_r, !length_app. simpl. lia.
  - split_trace. simpl. rewrite !app_nil_r. exact Hi.
Qed.

Lemma Inv_set_need_signal b s : Inv s -> Inv (set_need_signal b s).
Proof. intros [Hq Hw Hf Hio Hd Hi]. split; assumption. Qed.

Lemma Inv_set_lock b s : Inv s -> Inv (set_lock b s).
Proof. intros [Hq Hw Hf Hio Hd Hi]. split; assumption. Qed.

(** [__post_done] on the front element of a queue whose other elements
    are live. *)
Lemma post_done_front s i q :
  _posts s = i :: q -> Forall ready q ->
  __post_done (addr i) s
  = match q with
    | [] => Halt FrontOfEmptyDeque
              (post_done_state (addr i) [null_service (reset_f i)] [] s)
    | _ :: _ => Done (post_done_state (addr i) [null_service (reset_f i)] q s)
    end.
Proof.
  intros Hq Hr. unfold __post_done, post_done_state. rewrite Hq. simpl.
  rewrite decide_True by reflexivity. simpl.
  destruct q as [|j r]; simpl.
  - reflexivity.
  - inversion Hr as [|? ? [Hl _] _]; subst. unfold live in Hl.
    destruct (service j); [|discriminate]. simpl. reflexivity.
Qed.

Lemma wrap_dispatch n k w :
  wrap w = wrap (wrap (Z.of_nat (S n)) + Z.of_nat k) ->
  wrap (w - 1) = wrap (Z.of_nat (n + k)).
Proof.
  intros H. rewrite <- wrap_pred, H, wrap_add_l, wrap_pred. f_equal. lia.
Qed.

(** One post dispatch on a service that satisfies the invariant: the
    front callable [c] is invoked, the elements [E] of what it posts are
    appended, the front element is consumed and popped, and the call
    finishes unless the queue is left empty. *)
Lemma dispatch_spec s i q :
  Inv s -> _posts_lock s = false -> _posts s = i :: q ->
  exists c E s',
    f i = Some c /\ omap f E = reposts c /\ Forall ready E
    /\ _posts s' = q ++ E
    /\ Inv s'
    /\ invoked (trace s') = invoked (trace s) ++ [c]
    /\ completed (trace s') = completed (trace s)
    /\ nulls (trace s') = nulls (trace s) ++ [(addr i, true, true)]
    /\ self s' = self s /\ _threadh s' = _threadh s /\ _aiocbsv s' = _aiocbsv s
    /\ dispatch s = match q ++ E with
                    | [] => Halt FrontOfEmptyDeque s'
                    | _ :: _ => Done s'
                    end
    /\ _posts_lock s' = match q ++ E with [] => true | _ :: _ => false end.
Proof.
  intros [Hr Hw Hf Hio Hd Hi] Hl Hq.
  rewrite Hq in Hr, Hw, Hf.
  inversion Hr as [|? ? [Hlive [c Hc]] Hrq]; subst.
  set (s1 := log [EvInvoke c] (set_lock false (clear_front_f (set_lock true s)))).
  assert (Hl1 : _posts_lock s1 = false).
  { unfold s1, clear_front_f. simpl. reflexivity. }
  assert (Hp1 : _posts s1 = reset_f i :: q).
  { unfold s1, clear_front_f. simpl. rewrite Hq. reflexivity. }
  assert (Ht1 : trace s1 = trace s ++ [EvMoveOut (addr i); EvInvoke c]).
  { unfold s1, clear_front_f. simpl. rewrite Hq. simpl.
    rewrite <- app_assoc. reflexivity. }
  assert (Hw1 : _work_queued s1 = _work_queued s
                /\ _aiocbsv s1 = _aiocbsv s /\ self s1 = self s
                /\ _threadh s1 = _threadh s).
  { unfold s1, clear_front_f. simpl. rewrite Hq. repeat split. }
  destruct Hw1 as (Hw1 & Ha1 & Hs1 & Hth1).
  destruct (post_all_grown (reposts c) s1 Hl1) as (s2 & Hpa & Hg).
  destruct Hg as (Hl2 & Hs2 & Hth2 & Ha2 & Hw2 & E & T & Hq2 & HrE & HfE & Ht2
                  & Hpu & Hin & Hde & Hinc & Hsu & Hco & Hnu & Hpo).
  set (s3 := post_done_state (addr i) [null_service (reset_f (reset_f i))]
               (q ++ E) (set_lock true s2)).
  exists c, E, (match q ++ E with [] => s3 | _ :: _ => set_lock false s3 end).
  assert (Hdisp : dispatch s = match q ++ E with
                               | [] => Halt FrontOfEmptyDeque s3
                               | _ :: _ => Done (set_lock false s3)
                               end).
  { unfold dispatch, move_out_front. rewrite Hq, Hc. simpl.
    unfold lock_guard at 1. rewrite Hl. simpl.
    unfold invoke. fold s1. rewrite Hpa. simpl.
    unfold _post_done, lock_guard. rewrite Hl2.
    assert (Hq2' : _posts (set_lock true s2) = reset_f i :: (q ++ E)).
    { simpl. rewrite Hq2, Hp1. reflexivity. }
    pose proof (post_done_front (set_lock true s2) (reset_f i) (q ++ E) Hq2') as Hpd.
    simpl addr in Hpd. rewrite Hpd by (apply Forall_app; split; assumption).
    unfold s3. destruct (q ++ E); reflexivity. }
  assert (Htr3 : trace s3 = trace s ++ [EvMoveOut (addr i); EvInvoke c] ++ T
                   ++ post_done_events (addr i) true
                        [null_service (reset_f (reset_f i))]).
  { unfold s3. rewrite post_done_state_trace. simpl trace. simpl _posts_lock.
    rewrite Ht2, Ht1, <- !app_assoc. reflexivity. }
  assert (Hinv3 : Inv s3).
  { split.
    - unfold s3. simpl. apply Forall_app. split; assumption.
    - unfold s3. simpl. rewrite Ha2, Ha1.
      rewrite length_app, <- (omap_f_ready E HrE), HfE.
      replace (length q + length (reposts c) + length (_aiocbsv s))%nat
        with ((length q + length (_aiocbsv s)) + length (reposts c))%nat by lia.
      apply wrap_dispatch. rewrite Hw2, Hw1, Hw. simpl length. reflexivity.
    - rewrite Htr3. split_trace. rewrite Hpu, Hin, Hf. simpl.
      unfold s3. simpl. rewrite Hc, omap_app, HfE. simpl.
      rewrite app_nil_r, <- !app_assoc. reflexivity.
    - rewrite Htr3. split_trace. rewrite Hsu, Hco. simpl.
      unfold s3. simpl. rewrite Ha2, Ha1, !app_nil_r. exact Hio.
    - rewrite Htr3. split_trace. rewrite Hde, Hin, Hco. simpl.
      rewrite !app_nil_r, !length_app. simpl. lia.
    - rewrite Htr3. split_trace. rewrite Hinc, Hpu, Hsu. simpl.
      rewrite !app_nil_r, Hi, <- replicate_add, length_app. f_equal. lia. }
  split; [exact Hc|]. split; [exact HfE|]. split; [exact HrE|].
  assert (Hfinal : forall s', (s' = s3 \/ s' = set_lock false s3) ->
            _posts s' = q ++ E /\ Inv s'
            /\ invoked (trace s') = invoked (trace s) ++ [c]
            /\ completed (trace s') = completed (trace s)
            /\ nulls (trace s') = nulls (trace s) ++ [(addr i, true, true)]
            /\ self s' = self s /\ _threadh s' = _threadh s
            /\ _aiocbsv s' = _aiocbsv s).
  { intros s' Hs'.
    assert (Htr : trace s' = trace s3) by (destruct Hs' as [-> | ->]; reflexivity).
    split; [destruct Hs' as [-> | ->]; reflexivity|].
    split; [destruct Hs' as [-> | ->]; [exact Hinv3|apply Inv_set_lock, Hinv3]|].
    rewrite Htr, Htr3. split_trace. rewrite Hin, Hco, Hnu. simpl.
    rewrite !app_nil_r.
    split; [reflexivity|]. split; [reflexivity|]. split; [reflexivity|].
    destruct Hs' as [-> | ->]; unfold s3; simpl; repeat split; congruence. }
  destruct (q ++ E) as [|j r] eqn:HqE.
  - destruct (Hfinal s3 (or_introl eq_refl)) as (H1 & H2 & H3 & H4 & H5 & H6 & H7 & H8).
    repeat (split; [assumption|]). reflexivity.
  - destruct (Hfinal (set_lock false s3) (or_intror eq_refl))
      as (H1 & H2 & H3 & H4 & H5 & H6 & H7 & H8).
    repeat (split; [assumption|]). reflexivity.
Qed.

(** *** [run_until] *)

Lemma run_until_dispatches s d e i q :
  malformed d = false -> _work_queued s <> 0 -> _posts s = i :: q ->
  run_until s (_threadh s) d e
  = match dispatch s with
    | Done s' => {| after := s'; result_of := RetOk true; elapsed := 0 |}
    | Halt why s' => {| after := s'; result_of := RetHalt why; elapsed := 0 |}
    end.
Proof.
  intros Hd Hw Hq. unfold run_until.
  rewrite Nat.eqb_refl, Hd. simpl.
  destruct (Z.eqb_spec (_work_queued s) 0) as [H0|_]; [contradiction|].
  rewrite Hq. reflexivity.
Qed.

Lemma run_until_Inv s caller d e :
  Inv s -> _posts_lock s = false ->
  Inv (after (run_until s caller d e))
  /\ ((forall why, result_of (run_until s caller d e) <> RetHalt why) ->
       _posts_lock (after (run_until s caller d e)) = false).
Proof.
  intros HI Hl. unfold run_until.
  destruct (negb (caller =? _threadh s)%nat); [simpl; auto|].
  destruct (malformed d); [simpl; auto|].
  destruct (_work_queued s =? 0); [simpl; auto|].
  destruct (_posts s) as [|i q] eqn:Hq.
  - destruct (wait_one d e (set_need_signal true s)) as [[r dt]|].
    + simpl. split; [|intros _].
      * apply Inv_complete, Inv_set_need_signal, Inv_set_need_signal, HI.
      * unfold complete. destruct (in_flight _ _); simpl; exact Hl.
    + destruct (remaining d e); simpl; split; auto using Inv_set_need_signal.
  - destruct (dispatch_spec s i q HI Hl Hq)
      as (c & E & s' & _ & _ & _ & _ & HI' & _ & _ & _ & _ & _ & _ & Hd & Hl').
    rewrite Hd. destruct (q ++ E); simpl; split; auto.
    intros Hne. exfalso. apply (Hne FrontOfEmptyDeque). reflexivity.
Qed.

Lemma exec_Inv o s :
  Inv s -> _posts_lock s = false ->
  match exec o s with
  | Done s' => Inv s' /\ _posts_lock s' = false
  | Halt _ s' => Inv s'
  end.
Proof.
  intros HI Hl. destruct o as [c|r|r| |caller d e]; simpl.
  - rewrite post_posted by exact Hl. split; [apply Inv_posted, HI|apply posted_lock].
  - split; [apply Inv_submit, HI|exact Hl].
  - split; [apply Inv_complete, HI|].
    unfold complete. destruct (in_flight r s); simpl; exact Hl.
  - destruct (_posts s) as [|i q] eqn:Hq; [split; assumption|].
    destruct (dispatch_spec s i q HI Hl Hq)
      as (c & E & s' & _ & _ & _ & _ & HI' & _ & _ & _ & _ & _ & _ & Hd & Hl').
    rewrite Hd. destruct (q ++ E); [exact HI'|split; assumption].
  - destruct (run_until_Inv s caller d e HI Hl) as [HI' Hl'].
    destruct (result_of (run_until s caller d e)) eqn:Hr; try exact HI';
      (split; [exact HI'|apply Hl'; intros why; discriminate]).
Qed.

Lemma exec_all_Inv_lock ops : forall s,
  Inv s -> _posts_lock s = false ->
  match exec_all ops s with
  | Done s' => Inv s' /\ _posts_lock s' = false
  | Halt _ s' => Inv s'
  end.
Proof.
  induction ops as [|o ops IH]; intros s HI Hl; simpl; [split; assumption|].
  pose proof (exec_Inv o s HI Hl) as H.
  destruct (exec o s) as [s'|why s']; simpl.
  - destruct H as [HI' Hl']. apply IH; assumption.
  - exact H.
Qed.

Lemma exec_all_Inv ops s :
  Inv s -> _posts_lock s = false -> Inv (state_of (exec_all ops s)).
Proof.
  intros HI Hl. pose proof (exec_all_Inv_lock ops s HI Hl) as H.
  destruct (exec_all ops s); simpl; [apply H|exact H].
Qed.

(** Every state a new service reaches satisfies the invariant, with the
    post lock free. *)
Lemma reachable_Inv this thread ops s :
  exec_all ops (io_service_new this thread) = Done s ->
  Inv s /\ _posts_lock s = false.
Proof.
  intros H.
  pose proof (exec_all_Inv_lock ops (io_service_new this thread)
                (Inv_new this thread) eq_refl) as HI.
  rewrite H in HI. exact HI.
Qed.



(** C2.  [run_until] called from a thread that is not the owning thread
    returns not-supported and leaves the service as it was. *)
Theorem run_until_wrong_thread
    (s : io_service) (caller : nat) (d : deadline) (e : env) :
  caller <> _threadh s ->
  run_until s caller d e
  = {| after := s; result_of := RetErr operation_not_supported; elapsed := 0 |}.
Proof.
  intros Hne. unfold run_until.
  destruct (Nat.eqb_spec caller (_threadh s)) as [He|_]; [contradiction|].
  reflexivity.
Qed.

Lemma run_until_wrong_thread_witness :
  1%nat <> _threadh one_post
  /\ run_until one_post 1 Never quiet
     = {| after := one_post; result_of := RetErr operation_not_supported;
          elapsed := 0 |}.
Proof.
  split; [discriminate|].
  apply (run_until_wrong_thread one_post 1 Never quiet). discriminate.
Defined.

(** C5.  One call of [run_until] by the owning thread, with a well-formed
    deadline, on a service (in any state that a new service can reach)
    with a post pending and a work counter that is not zero: exactly the
    front callable is invoked, no completion is delivered, no time is
    spent waiting, and the queue is left with the other posts followed by
    what the callable posted.  The call returns [true] -- unless that
    queue is empty: then [__post_done] has evaluated [front()] on the
    empty deque. *)
Theorem run_until_one_unit
    (this thread : nat) (ops : list op) (s : io_service)
    (d : deadline) (e : env) (i : post_info) (q : list post_info) :
  exec_all ops (io_service_new this thread) = Done s ->
  malformed d = false -> _work_queued s <> 0 -> _posts s = i :: q ->
  exists c E,
    f i = Some c /\ omap f E = reposts c
    /\ invoked (trace (after (run_until s (_threadh s) d e)))
       = invoked (trace s) ++ [c]
    /\ completed (trace (after (run_until s (_threadh s) d e)))
       = completed (trace s)
    /\ _aiocbsv (after (run_until s (_threadh s) d e)) = _aiocbsv s
    /\ _posts (after (run_until s (_threadh s) d e)) = q ++ E
    /\ elapsed (run_until s (_threadh s) d e) = 0
    /\ result_of (run_until s (_threadh s) d e)
       = match q ++ E with
         | [] => RetHalt FrontOfEmptyDeque
         | _ :: _ => RetOk true
         end.
Proof.
  intros Hreach Hd Hw Hq.
  destruct (reachable_Inv this thread ops s Hreach) as [HI Hl].
  destruct (dispatch_spec s i q HI Hl Hq)
    as (c & E & s' & Hc & HE & _ & Hq' & _ & Hinv & Hco & _ & _ & _ & Ha & Hdis & _).
  exists c, E. rewrite (run_until_dispatches s d e i q Hd Hw Hq), Hdis.
  split; [exact Hc|]. split; [exact HE|].
  destruct (q ++ E) as [|j r]; simpl; repeat split; assumption.
Qed.

Lemma run_until_one_unit_witness :
  exists c E,
    f demo_entry = Some c /\ omap f E = reposts c
    /\ invoked (trace (after (run_until one_post (_threadh one_post) Never quiet)))
       = invoked (trace one_post) ++ [c]
    /\ completed (trace (after (run_until one_post (_threadh one_post) Never quiet)))
       = completed (trace one_post)
    /\ _aiocbsv (after (run_until one_post (_threadh one_post) Never quiet))
       = _aiocbsv one_post
    /\ _posts (after (run_until one_post (_threadh one_post) Never quiet)) = [] ++ E
    /\ elapsed (run_until one_post (_threadh one_post) Never quiet) = 0
    /\ result_of (run_until one_post (_threadh one_post) Never quiet)
       = match [] ++ E with
         | [] => RetHalt FrontOfEmptyDeque
         | _ :: _ => RetOk true
         end.
Proof.
  apply (run_until_one_unit 100 0 [OpPost demo_callable] one_post
           Never quiet demo_entry []).
  - reflexivity.
  - reflexivity.
  - discriminate.
  - reflexivity.
Defined.

(** The single pending post of [one_post] is invoked, and the call then
    halts in [__post_done]; with a second post behind it the call returns
    [true]. *)
Example run_until_single_post :
  result_of (run_until one_post 0 Never quiet) = RetHalt FrontOfEmptyDeque
  /\ invoked (trace (after (run_until one_post 0 Never quiet))) = [demo_callable]
  /\ result_of (run_until (posted demo_callable one_post) 0 Never quiet) = RetOk true.
Proof. repeat split. Qed.

(** *** Dispatch order *)

Lemma exec_all_app a b s :
  exec_all (a ++ b) s = s' ← exec_all a s; exec_all b s'.
Proof.
  revert s. induction a as [|o a IH]; intros s; simpl; [reflexivity|].
  destruct (exec o s) as [s'|why s']; simpl; [apply IH|reflexivity].
Qed.

Lemma exec_all_posts cs s : exec_all (map OpPost cs) s = post_all cs s.
Proof.
  revert s. induction cs as [|c cs IH]; intros s; simpl; [reflexivity|].
  destruct (post c s) as [s'|why s']; simpl; [apply IH|reflexivity].
Qed.

Lemma omap_f_nil E : Forall ready E -> omap f E = [] -> E = [].
Proof.
  intros Hr H. apply (f_equal length) in H.
  rewrite (omap_f_ready E Hr) in H. destruct E; [reflexivity|discriminate].
Qed.

(** As many calls of [run()] by the owning thread as there are posts in
    the queue, when none of the callables posts: every callable is
    invoked, in order, and the call that empties the queue halts in
    [__post_done]. *)
Lemma run_drains e n : forall s,
  Inv s -> _posts_lock s = false ->
  Forall (fun c => reposts c = []) (omap f (_posts s)) ->
  Z.of_nat (length (_posts s) + length (_aiocbsv s)) < 2 ^ 64 ->
  length (_posts s) = S n ->
  exists s',
    exec_all (replicate (S n) (OpRunUntil (_threadh s) Never e)) s
    = Halt FrontOfEmptyDeque s'
    /\ invoked (trace s') = invoked (trace s) ++ omap f (_posts s)
    /\ _posts s' = [].
Proof.
  induction n as [|n IH]; intros s HI Hl Hnr Hlt Hn.
  - destruct (_posts s) as [|i q] eqn:Hq; [discriminate|].
    destruct q as [|j r]; [|discriminate].
    assert (Hw : _work_queued s <> 0).
    { rewrite (inv_work s HI), Hq, wrap_small by exact (conj (Nat2Z.is_nonneg _) Hlt).
      simpl length. lia. }
    destruct (dispatch_spec s i [] HI Hl Hq)
      as (c & E & s' & Hc & HE & HrE & Hq' & HI' & Hinv & _ & _ & _ & Hth & Ha
          & Hdis & Hl').
    simpl in Hnr. rewrite Hc in Hnr. simpl in Hnr.
    inversion Hnr as [|? ? Hrc Hnr']; subst.
    rewrite Hrc in HE. apply (omap_f_nil E HrE) in HE. subst E.
    simpl in Hdis, Hq'.
    exists s'. cbn [replicate exec_all exec].
    rewrite (run_until_dispatches s Never e i [] eq_refl Hw Hq), Hdis.
    cbn. rewrite Hc. cbn. repeat split; assumption.
  - destruct (_posts s) as [|i q] eqn:Hq; [discriminate|].
    destruct q as [|j r] eqn:Hqq; [discriminate|].
    assert (Hw : _work_queued s <> 0).
    { rewrite (inv_work s HI), Hq, wrap_small by exact (conj (Nat2Z.is_nonneg _) Hlt).
      simpl length. lia. }
    destruct (dispatch_spec s i (j :: r) HI Hl Hq)
      as (c & E & s' & Hc & HE & HrE & Hq' & HI' & Hinv & _ & _ & _ & Hth & Ha
          & Hdis & Hl').
    simpl in Hnr. rewrite Hc in Hnr. simpl in Hnr.
    inversion Hnr as [|? ? Hrc Hnr']; subst.
    rewrite Hrc in HE. apply (omap_f_nil E HrE) in HE. subst E.
    rewrite app_nil_r in Hdis, Hq', Hl'.
    destruct (IH s' HI' Hl') as (s'' & Hex & Hinv'' & Hq'').
    + rewrite Hq'. exact Hnr'.
    + rewrite Hq', Ha. simpl length in *. lia.
    + rewrite Hq'. simpl length in *. lia.
    + exists s''. 
      change (replicate (S (S n)) (OpRunUntil (_threadh s) Never e))
        with (OpRunUntil (_threadh s) Never e
              :: replicate (S n) (OpRunUntil (_threadh s) Never e)).
      cbn [exec_all exec].
      rewrite (run_until_dispatches s Never e i (j :: r) eq_refl Hw Hq), Hdis.
      cbn [result_of after mbind outcome_bind]. rewrite <- Hth, Hex.
      split; [reflexivity|]. split; [|exact Hq''].
      rewrite Hinv'', Hinv, Hq'.
      change (omap f (i :: j :: r))
        with (match f i with Some c => c :: omap f (j :: r) | None => omap f (j :: r) end).
      rewrite Hc, <- app_assoc. reflexivity.
Qed.

(** C6.  What the code keeps of the claim, and where it leaves it.
    Whatever is done to a new service, the callables invoked so far are,
    in order and each once, the first of the callables pushed (in the
    order in which the posts took the lock), the others being still
    queued: no callable is invoked twice and, for every producer, its
    callables are invoked in the order it posted them.  But the queue
    cannot be drained: when producers have posted the callables [cs] (at
    least one; callables that do not post), the call of [run()] that
    invokes the last of them evaluates [front()] on the empty deque in
    [__post_done], and the run of the service ends there, whatever was to
    follow: a callable posted later is neither pushed nor invoked. *)
Theorem posts_dispatch_fifo_until_drain (this thread : nat) :
  (forall ops,
     let s := state_of (exec_all ops (io_service_new this thread)) in
     pushed (trace s) = invoked (trace s) ++ queued s
     /\ forall t,
          filter (fun c => made_by c = t) (invoked (trace s))
          `prefix_of` filter (fun c => made_by c = t) (pushed (trace s)))
  /\ (forall cs e later,
       cs <> [] ->
       Forall (fun c => reposts c = []) cs ->
       Z.of_nat (length cs) < 2 ^ 64 ->
       exists s',
         exec_all
           (map OpPost cs ++ replicate (length cs) (OpRunUntil thread Never e)
            ++ later)
           (io_service_new this thread)
         = Halt FrontOfEmptyDeque s'
         /\ invoked (trace s') = cs
         /\ pushed (trace s') = cs
         /\ _posts s' = []).
Proof.
  split.
  - intros ops s.
    assert (HI : Inv s) by (apply exec_all_Inv; [apply Inv_new|reflexivity]).
    assert (Hf : pushed (trace s) = invoked (trace s) ++ queued s).
    { unfold queued, pending. rewrite (pending_ready _ (inv_posts s HI)).
      apply (inv_fifo s HI). }
    split; [exact Hf|].
    intros t. rewrite Hf, list.filter_app. apply prefix_app_r. reflexivity.
  - intros cs e later Hne Hnr Hlen.
    destruct (post_all_grown cs (io_service_new this thread) eq_refl)
      as (s1 & Hpa & Hg).
    pose proof (exec_all_Inv (map OpPost cs) (io_service_new this thread)
                  (Inv_new this thread) eq_refl) as HI1.
    rewrite exec_all_posts, Hpa in HI1. simpl in HI1.
    destruct Hg as (Hl1 & _ & Hth & Ha & _ & E & T & Hq & HrE & HfE & Ht
                    & _ & Hin & _).
    simpl in Hq, Ht, Hth, Ha.
    assert (HlE : length E = length cs)
      by (rewrite <- HfE; symmetry; apply omap_f_ready, HrE).
    destruct (length cs) as [|n] eqn:Hn;
      [destruct cs; [contradiction|discriminate]|].
    destruct (run_drains e n s1 HI1 Hl1) as (s' & Hex & Hinv & Hq').
    + rewrite Hq, HfE. exact Hnr.
    + rewrite Hq, Ha, HlE. simpl length. lia.
    + rewrite Hq. exact HlE.
    + rewrite Hth in Hex.
      assert (Hrun : exec_all
                (map OpPost cs ++ replicate (S n) (OpRunUntil thread Never e) ++ later)
                (io_service_new this thread) = Halt FrontOfEmptyDeque s').
      { rewrite exec_all_app, exec_all_posts, Hpa. cbn [mbind outcome_bind].
        rewrite exec_all_app, Hex. reflexivity. }
      exists s'. split; [exact Hrun|].
      assert (Hs : invoked (trace s') = cs).
      { rewrite Hinv, Ht, Hin, Hq, HfE. reflexivity. }
      split; [exact Hs|]. split; [|exact Hq'].
      pose proof (exec_all_Inv
                    (map OpPost cs ++ replicate (S n) (OpRunUntil thread Never e) ++ later)
                    (io_service_new this thread) (Inv_new this thread) eq_refl) as HI'.
      rewrite Hrun in HI'. cbn [state_of] in HI'.
      rewrite (inv_fifo s' HI'), Hs, Hq'. apply app_nil_r.
Qed.

Lemma posts_dispatch_fifo_until_drain_witness :
  exists s',
    exec_all
      (map OpPost [demo_callable]
       ++ replicate (length [demo_callable]) (OpRunUntil 0 Never quiet)
       ++ [OpPost (Callable 6 2 []); OpRunUntil 0 Never quiet])
      (io_service_new 100 0)
    = Halt FrontOfEmptyDeque s'
    /\ invoked (trace s') = [demo_callable]
    /\ pushed (trace s') = [demo_callable]
    /\ _posts s' = [].
Proof.
  apply (proj2 (posts_dispatch_fifo_until_drain 100 0) [demo_callable] quiet
           [OpPost (Callable 6 2 []); OpRunUntil 0 Never quiet]).
  - discriminate.
  - repeat constructor.
  - reflexivity.
Defined.

End ServiceTheory.

(** ** io_service: more on completion *)

Module ServiceMore.
Import IoService ServiceTheory.

Lemma pop_consumed_run popped j rest :
  Forall consumed popped -> live j = true ->
  pop_consumed (popped ++ j :: rest) = (map EvPop popped, Some (j :: rest)).
Proof.
  intros Hp Hj. induction Hp as [|i popped Hi _ IH]; simpl.
  - unfold live in Hj. destruct (service j); [reflexivity|discriminate].
  - unfold consumed in Hi. rewrite Hi, IH. reflexivity.
Qed.

Lemma find_and_null_head locked i q :
  find_and_null locked (addr i) (i :: q)
  = Some (null_service (reset_f i) :: q,
          [EvReset (addr i); EvNull (addr i) locked true]).
Proof. simpl. rewrite decide_True by reflexivity. reflexivity. Qed.

Lemma find_and_null_In locked pi q :
  pi ∈ map addr q -> is_Some (find_and_null locked pi q).
Proof.
  induction q as [|i q IH]; simpl; intros Hin.
  - apply elem_of_nil in Hin. contradiction.
  - destruct (decide (addr i = pi)) as [E|E]; [eexists; reflexivity|].
    apply elem_of_cons in Hin as [Hin|Hin]; [congruence|].
    destruct (IH Hin) as [[q' evs] Hq]. rewrite Hq. eexists. reflexivity.
Qed.

(** [__post_done(nullptr)]: the work counter is decremented and the
    compaction loop runs on the queue as it is. *)
Lemma post_done_nullptr s :
  __post_done nullptr s
  = match snd (pop_consumed (_posts s)) with
    | Some q' => Done (log (fst (pop_consumed (_posts s))) (set_posts q' (_work_done s)))
    | None => Halt FrontOfEmptyDeque
                (log (fst (pop_consumed (_posts s))) (set_posts [] (_work_done s)))
    end.
Proof.
  unfold __post_done. cbv beta iota zeta.
  change (_posts (_work_done s)) with (_posts s).
  destruct (pop_consumed (_posts s)) as [evs [q'|]]; reflexivity.
Qed.

(** X1.  [__post_done] aborts exactly when [pi] is set and is not the
    address of an element of the queue, and then it has changed nothing.
    Called with [nullptr] it does not abort: the loop finds nothing,
    [assert(!pi)] holds, and the work counter is decremented and the
    consumed front elements are popped although no element was
    completed. *)
Theorem post_done_aborts_iff_foreign (pi : pointer) (s : io_service) :
  (__post_done pi s = Halt Aborted s
   <-> exists a, pi = Ptr a /\ a ∉ map addr (_posts s))
  /\ exists popped,
       Forall consumed popped
       /\ _posts s = popped ++ _posts (state_of (__post_done nullptr s))
       /\ pops (trace (state_of (__post_done nullptr s))) = pops (trace s) ++ popped
       /\ nulls (trace (state_of (__post_done nullptr s))) = nulls (trace s)
       /\ _work_queued (state_of (__post_done nullptr s)) = wrap (_work_queued s - 1).
Proof.
  split.
  - destruct pi as [|a].
    + split.
      * rewrite post_done_nullptr.
        destruct (snd (pop_consumed (_posts s))); discriminate.
      * intros (a & Ha & _). discriminate.
    + split.
      * intros H. exists a. split; [reflexivity|]. intros Hin.
        unfold __post_done in H. cbv beta iota zeta in H.
        destruct (find_and_null_In (_posts_lock s) a (_posts s) Hin) as [[q evs] Hq].
        rewrite Hq in H.
        destruct (pop_consumed _) as [evs' [q'|]]; discriminate.
      * intros (a' & Ha & Hn). injection Ha as <-.
        destruct (post_done_spec a s) as [[_ H]|[Hin _]]; [exact H|contradiction].
  - rewrite post_done_nullptr.
    destruct (pop_consumed_spec (_posts s)) as (popped & Hev & Hall & Hq).
    exists popped. split; [exact Hall|].
    destruct (snd (pop_consumed (_posts s))) as [q'|];
      cbn [state_of _posts trace _work_queued log set_posts _work_done set_work];
      rewrite Hev, !pops_app, !nulls_app, pops_map_EvPop, nulls_map_EvPop;
      change (pops [EvWorkDone]) with (@nil post_info);
      change (nulls [EvWorkDone]) with (@nil (nat * bool * bool));
      rewrite ?app_nil_r.
    + destruct Hq as [Hq _]. split; [exact Hq|repeat split].
    + split; [exact Hq|repeat split].
Qed.

(** X2.  Completion out of order is lazy: [__post_done] on an element
    behind a live front element consumes it where it is.  Its callable is
    reset and its back-pointer nulled, once; the other elements stay as
    they are, in their places; nothing is popped, and the work counter
    goes down by one. *)
Theorem post_done_behind_live_front
    (pi : nat) (s : io_service) (i x : post_info) (before after : list post_info) :
  _posts s = i :: before ++ x :: after -> live i = true ->
  addr i <> pi -> pi ∉ map addr before -> addr x = pi ->
  exists s',
    __post_done pi s = Done s'
    /\ _posts s'
       = i :: before ++ {| addr := pi; service := None; f := None |} :: after
    /\ _work_queued s' = wrap (_work_queued s - 1)
    /\ pops (trace s') = pops (trace s)
    /\ nulls (trace s') = nulls (trace s) ++ [(pi, _posts_lock s, true)].
Proof.
  intros Hq Hl Hne Hnb Hx. subst pi.
  assert (Hin : addr x ∈ map addr (before ++ x :: after)).
  { rewrite map_app. apply elem_of_app. right. left. }
  unfold __post_done. cbv beta iota zeta. rewrite Hq. cbn [find_and_null].
  rewrite decide_False by exact Hne.
  destruct (find_and_null_In (_posts_lock s) (addr x) (before ++ x :: after) Hin)
    as [[q' evs] Hf].
  rewrite Hf. cbn [mbind option_bind].
  destruct (find_and_null_Some _ _ _ _ _ Hf) as (-> & _ & ->).
  rewrite null_at_middle by exact Hnb.
  cbn [_posts _work_done set_work log set_posts pop_consumed].
  unfold live in Hl. destruct (service i) as [sv|]; [|discriminate].
  eexists. split; [reflexivity|].
  cbn [_posts _work_queued trace log set_posts set_work _work_done].
  split; [reflexivity|]. split; [reflexivity|].
  rewrite !pops_app, !nulls_app.
  change (pops [EvReset (addr x); EvNull (addr x) (_posts_lock s) true])
    with (@nil post_info).
  change (pops [EvWorkDone]) with (@nil post_info).
  change (pops []) with (@nil post_info).
  change (nulls [EvWorkDone]) with (@nil (nat * bool * bool)).
  change (nulls []) with (@nil (nat * bool * bool)).
  change (nulls [EvReset (addr x); EvNull (addr x) (_posts_lock s) true])
    with [(addr x, _posts_lock s, true)].
  rewrite !app_nil_r. split; reflexivity.
Qed.

Lemma post_done_behind_live_front_witness :
  exists s',
    __post_done 1
      (set_posts [demo_entry; {| addr := 1; service := Some 100%nat; f := None |}]
         one_post_locked)
    = Done s'
    /\ _posts s' = demo_entry :: [] ++ [{| addr := 1; service := None; f := None |}]
    /\ _work_queued s' = wrap (1 - 1)
    /\ pops (trace s') = []
    /\ nulls (trace s') = [] ++ [(1%nat, true, true)].
Proof.
  apply (post_done_behind_live_front 1
           (set_posts [demo_entry; {| addr := 1; service := Some 100%nat; f := None |}]
              one_post_locked)
           demo_entry {| addr := 1; service := Some 100%nat; f := None |} [] []).
  - reflexivity.
  - reflexivity.
  - simpl. lia.
  - simpl. apply not_elem_of_nil.
  - reflexivity.
Defined.

(** X3.  The elements consumed out of order leave the queue together
    with the front: when the front element is completed and the elements
    behind it up to a live one are already consumed, [__post_done] pops
    the front and all of them, in order, and the live element becomes the
    front. *)
Theorem post_done_front_pops_consumed_run
    (s : io_service) (i j : post_info) (mid rest : list post_info) :
  _posts s = i :: mid ++ j :: rest -> Forall consumed mid -> live j = true ->
  exists s',
    __post_done (addr i) s = Done s'
    /\ _posts s' = j :: rest
    /\ pops (trace s') = pops (trace s) ++ null_service (reset_f i) :: mid
    /\ _work_queued s' = wrap (_work_queued s - 1).
Proof.
  intros Hq Hmid Hj. unfold __post_done. rewrite Hq, find_and_null_head.
  cbn [_posts _work_done set_work log set_posts].
  change (null_service (reset_f i) :: mid ++ j :: rest)
    with ((null_service (reset_f i) :: mid) ++ j :: rest).
  rewrite pop_consumed_run;
    [|constructor; [reflexivity|exact Hmid]|exact Hj].
  eexists. split; [reflexivity|].
  cbn [_posts _work_queued trace log set_posts set_work _work_done].
  split; [reflexivity|]. split; [|reflexivity].
  assert (Hp : forall a b, pops (a ++ b) = pops a ++ pops b)
    by (intros; apply omap_app).
  rewrite !Hp, pops_map_EvPop.
  change (pops [EvReset (addr i); EvNull (addr i) (_posts_lock s) true])
    with (@nil post_info).
  change (pops [EvWorkDone]) with (@nil post_info).
  rewrite !app_nil_r. reflexivity.
Qed.

Lemma post_done_front_pops_consumed_run_witness :
  exists s',
    __post_done 0
      (set_posts [demo_entry; {| addr := 1; service := None; f := None |};
                  {| addr := 2; service := Some 100%nat; f := None |}]
         one_post_locked)
    = Done s'
    /\ _posts s' = [{| addr := 2; service := Some 100%nat; f := None |}]
    /\ pops (trace s')
       = pops (trace one_post_locked)
         ++ [null_service (reset_f demo_entry);
             {| addr := 1; service := None; f := None |}]
    /\ _work_queued s' = wrap (1 - 1).
Proof.
  apply (post_done_front_pops_consumed_run
           (set_posts [demo_entry; {| addr := 1; service := None; f := None |};
                       {| addr := 2; service := Some 100%nat; f := None |}]
              one_post_locked)
           demo_entry {| addr := 2; service := Some 100%nat; f := None |}
           [{| addr := 1; service := None; f := None |}] []).
  - reflexivity.
  - repeat constructor.
  - reflexivity.
Defined.

Lemma wrap_range z : 0 <= wrap z < 2 ^ 64.
Proof. unfold wrap. apply Z.mod_pos_bound. lia. Qed.

Lemma work_done_iter (n : nat) s :
  wrap (_work_queued (Nat.iter n _work_done s))
  = wrap (_work_queued s - Z.of_nat n).
Proof.
  induction n as [|n IH]; [simpl; f_equal; lia|].
  change (Nat.iter (S n) _work_done s) with (_work_done (Nat.iter n _work_done s)).
  cbn [_work_done _work_queued set_work log].
  rewrite wrap_wrap, <- wrap_pred, IH, wrap_pred. f_equal. lia.
Qed.

Lemma work_done_iter_range (n : nat) s :
  0 <= _work_queued s < 2 ^ 64 ->
  0 <= _work_queued (Nat.iter n _work_done s) < 2 ^ 64.
Proof.
  intros Hs. destruct n as [|n]; [exact Hs|].
  change (Nat.iter (S n) _work_done s) with (_work_done (Nat.iter n _work_done s)).
  cbn [_work_done _work_queued set_work log]. apply wrap_range.
Qed.

(** X4.  The work counter is a [size_t] and is not guarded against
    underflow: [_work_done()] on a counter at zero leaves it at
    [2^64 - 1].  On a counter in range, [_work_enqueued(i)] followed by
    [i] calls of [_work_done()] gives the counter its value back. *)
Theorem work_counter_wraps (s : io_service) (i : Z) :
  0 <= _work_queued s < 2 ^ 64 -> 0 <= i ->
  (_work_queued s = 0 -> _work_queued (_work_done s) = 2 ^ 64 - 1)
  /\ _work_queued (Nat.iter (Z.to_nat i) _work_done (_work_enqueued i s))
     = _work_queued s.
Proof.
  intros Hs Hi. split.
  - intros E. cbn [_work_done _work_queued set_work log]. rewrite E. reflexivity.
  - rewrite <- (wrap_small (_work_queued (Nat.iter _ _ _))).
    2:{ apply work_done_iter_range.
        cbn [_work_enqueued _work_queued set_work log]. apply wrap_range. }
    rewrite work_done_iter. cbn [_work_enqueued _work_queued set_work log].
    rewrite Z2Nat.id by lia. unfold wrap.
    rewrite Zminus_mod_idemp_l.
    replace (_work_queued s + i - i) with (_work_queued s) by lia.
    apply Z.mod_small. lia.
Qed.

Lemma work_counter_wraps_witness :
  (_work_queued (io_service_new 100 0) = 0
   -> _work_queued (_work_done (io_service_new 100 0)) = 2 ^ 64 - 1)
  /\ _work_queued (Nat.iter (Z.to_nat 3) _work_done
                     (_work_enqueued 3 (io_service_new 100 0)))
     = _work_queued (io_service_new 100 0).
Proof.
  apply (work_counter_wraps (io_service_new 100 0) 3).
  - simpl. lia.
  - lia.
Defined.

End ServiceMore.

(** ** shared_fs_mutex: lock and try_lock *)

Module MutexTheory.
Import Guard GuardTheory Mutex.

Local Open Scope nat_scope.

Lemma get_alloc o w : o < length (objs w) -> get o (snd (alloc w)) = get o w.
Proof.
  intros Ho. unfold get, alloc. cbn [snd objs].
  rewrite lookup_app_l by exact Ho. reflexivity.
Qed.

Lemma alloc_fst w : fst (alloc w) = length (objs w).
Proof. reflexivity. Qed.

Lemma alloc_objs_length w : length (objs (snd (alloc w))) = S (length (objs w)).
Proof. unfold alloc. cbn [snd objs]. rewrite length_app. simpl. lia. Qed.

Lemma alloc_calls w : unlock_calls (snd (alloc w)) = unlock_calls w.
Proof. reflexivity. Qed.

Lemma alloc_eta w : alloc w = (length (objs w), snd (alloc w)).
Proof. reflexivity. Qed.

Section LockTheory.

Variable deadline : Type.
Variable zero_seconds : deadline.
Variable _lock : nat -> nat -> deadline -> bool -> world -> bool * world.

Lemma lock_spec this ents d spin w ok w3 g :
  _lock this (length (objs w)) d spin (handed_out this ents w) = (ok, w3) ->
  get (length (objs w)) w3 = Some g ->
  exists w',
    lock deadline _lock this ents d spin w
    = Some (if ok then Locked (length (objs w3)) else Failed, w')
    /\ get (length (objs w)) w' = None
    /\ (forall o, o <> length (objs w) -> o < length (objs w3) -> get o w' = get o w3)
    /\ (if ok
        then unlock_calls w' = unlock_calls w3
             /\ exists gr, get (length (objs w3)) w' = Some gr
                  /\ parent gr = parent g /\ entities gr = entities g
                  /\ hint gr = hint g
        else unlock_calls w' = unlock_calls w3 ++ calls_of g).
Proof.
  intros Hl Hg. unfold lock. rewrite alloc_eta.
  change (ctor_span (length (objs w)) (Some this) ents (snd (alloc w)))
    with (handed_out this ents w).
  rewrite Hl. pose proof (get_lt _ _ _ Hg) as Hlt.
  destruct ok.
  - rewrite alloc_eta.
    destruct (move_ctor_spec (length (objs w3)) (length (objs w)) (snd (alloc w3)) g)
      as (w4 & gt & gs & Hm & Hgt & Hp & He & Hh & Hgs & Hps & Hc);
      [lia|rewrite alloc_objs_length; lia|rewrite get_alloc by exact Hlt; exact Hg|].
    rewrite Hm. cbn [mbind option_bind].
    destruct (dtor_spec (length (objs w)) w4 gs Hgs) as (w5 & Hd & Hnone & Hc5 & Hframe).
    rewrite Hd. cbn [mbind option_bind].
    exists w5. split; [reflexivity|]. split; [exact Hnone|]. split.
    + intros o Ho Hlo. rewrite Hframe by exact Ho.
      unfold move_ctor in Hm. rewrite get_alloc in Hm by exact Hlt.
      rewrite Hg in Hm. cbn [mbind option_bind] in Hm.
      destruct (release_spec (length (objs w))
                  (put (length (objs w3))
                     (Some {| _entity := _entity g; parent := parent g;
                              entities := entities g; hint := hint g |})
                     (snd (alloc w3))) g)
        as (w4' & g' & Hr & _ & _ & _ & _ & Hfr).
      { rewrite get_put_ne by lia. rewrite get_alloc by exact Hlt. exact Hg. }
      rewrite Hr in Hm. injection Hm as <-.
      rewrite Hfr by exact Ho. rewrite get_put_ne by lia.
      apply get_alloc. exact Hlo.
    + split.
      * rewrite Hc5, Hc. unfold calls_of. rewrite Hps, app_nil_r. reflexivity.
      * exists gt. rewrite Hframe by lia. repeat split; assumption.
  - destruct (dtor_spec (length (objs w)) w3 g Hg) as (w4 & Hd & Hnone & Hc & Hframe).
    rewrite Hd. cbn [mbind option_bind].
    exists w4. split; [reflexivity|]. split; [exact Hnone|]. split; [|exact Hc].
    intros o Ho _. apply Hframe, Ho.
Qed.

Lemma with_temporary_get this entity w :
  get (length (objs w)) (with_temporary this entity w)
  = Some {| _entity := entity; parent := Some this;
            entities := {| data := EntityOf (length (objs w)); size := 1 |};
            hint := 0 |}.
Proof.
  unfold with_temporary, ctor_entity. apply get_put_eq.
  rewrite alloc_objs_length. lia.
Qed.

Lemma with_temporary_length this entity w :
  length (objs (with_temporary this entity w)) = S (length (objs w)).
Proof.
  unfold with_temporary, ctor_entity. rewrite put_length. apply alloc_objs_length.
Qed.

Lemma lock_entity_spec this entity d spin w ok w3 g :
  let t := length (objs w) in
  let span := {| data := EntityOf t; size := 1 |} in
  let w1 := with_temporary this entity w in
  _lock this (S t) d spin (handed_out this span w1) = (ok, w3) ->
  get (S t) w3 = Some g ->
  get t w3 = get t w1 ->
  exists w',
    lock_entity deadline _lock this entity d spin w
    = Some (if ok then Locked (length (objs w3)) else Failed, w')
    /\ get t w' = None
    /\ unlock_calls w'
       = unlock_calls w3 ++ (if ok then [] else calls_of g)
         ++ [{| uc_parent := this; uc_entities := span; uc_hint := 0 |}]
    /\ (ok = true ->
        exists gr, get (length (objs w3)) w' = Some gr
                   /\ parent gr = parent g /\ entities gr = entities g
                   /\ hint gr = hint g).
Proof.
  intros t span w1 Hl Hg Ht.
  pose proof (with_temporary_get this entity w) as Htmp.
  pose proof (with_temporary_length this entity w) as Hlen.
  fold t in Htmp, Hlen. fold w1 in Htmp, Hlen. fold span in Htmp.
  rewrite Htmp in Ht.
  unfold lock_entity.
  change (alloc w) with (length (objs w), snd (alloc w)). cbv beta iota.
  change (ctor_entity (length (objs w)) (Some this) entity (snd (alloc w))) with w1.
  fold t. rewrite Htmp. cbn [mbind option_bind entities].
  rewrite <- Hlen in Hl, Hg.
  destruct (lock_spec this span d spin w1 ok w3 g Hl Hg)
    as (w4 & Hlock & Hnone & Hframe & Hres).
  rewrite Hlock. cbn [mbind option_bind].
  pose proof (get_lt _ _ _ Ht) as Htlt.
  assert (Ht4 : get t w4 = Some {| _entity := entity; parent := Some this;
                                   entities := span; hint := 0 |}).
  { rewrite Hframe by lia. exact Ht. }
  destruct (dtor_spec t w4 _ Ht4) as (w5 & Hd & Hn5 & Hc5 & Hf5).
  rewrite Hd. cbn [mbind option_bind].
  exists w5. split; [reflexivity|]. split; [exact Hn5|]. split.
  - rewrite Hc5. unfold calls_of at 2. cbn [parent entities hint].
    destruct ok.
    + destruct Hres as [-> _]. reflexivity.
    + rewrite Hres, <- app_assoc. reflexivity.
  - intros ->. destruct Hres as (_ & gr & Hgr & Hp & He & Hh).
    exists gr. rewrite Hf5 by lia. repeat split; assumption.
Qed.

Lemma try_lock_entity_unfold this entity w :
  try_lock_entity deadline zero_seconds _lock this entity w
  = lock_entity deadline _lock this entity zero_seconds false w.
Proof. reflexivity. Qed.

End LockTheory.

(** X5.  [lock(entities_type)] makes no call to [unlock] of its own
    when [_lock] succeeds: the guard it returns has the parent, entities
    and hint that [_lock] left in [out], and the local guard is gone.
    When [_lock] fails, the local guard is destroyed as [_lock] left it:
    if its [parent] is still set, [unlock] is called on the entities of
    a lock that was not taken. *)
Theorem lock_returns_what__lock_left
    (deadline : Type) (_lock : nat -> nat -> deadline -> bool -> world -> bool * world)
    (this : nat) (ents : entities_type) (d : deadline) (spin : bool)
    (w w3 : world) (ok : bool) (g : entities_guard) :
  _lock this (length (objs w)) d spin (handed_out this ents w) = (ok, w3) ->
  get (length (objs w)) w3 = Some g ->
  exists w',
    lock deadline _lock this ents d spin w
    = Some (if ok then Locked (length (objs w3)) else Failed, w')
    /\ get (length (objs w)) w' = None
    /\ (if ok
        then unlock_calls w' = unlock_calls w3
             /\ exists gr, get (length (objs w3)) w' = Some gr
                  /\ parent gr = parent g /\ entities gr = entities g
                  /\ hint gr = hint g
        else unlock_calls w' = unlock_calls w3 ++ calls_of g).
Proof.
  intros Hl Hg.
  destruct (lock_spec deadline _lock this ents d spin w ok w3 g Hl Hg)
    as (w' & H1 & H2 & _ & H3).
  exists w'. repeat split; assumption.
Qed.

Lemma lock_returns_what__lock_left_witness :
  exists w',
    lock unit demo_lock 7 demo_span tt false empty_world
    = Some (Locked 1, w')
    /\ get 0 w' = None
    /\ unlock_calls w' = []
       /\ exists gr, get 1 w' = Some gr
            /\ parent gr = Some 7 /\ entities gr = demo_span /\ hint gr = 0%Z.
Proof.
  apply (lock_returns_what__lock_left unit demo_lock 7 demo_span tt false
           empty_world (handed_out 7 demo_span empty_world) true
           {| _entity := {| value := 0; exclusive := false |}; parent := Some 7;
              entities := demo_span; hint := 0 |}).
  - reflexivity.
  - reflexivity.
Defined.

(** X6.  [lock(entity_type)] and [try_lock(entity_type)] unlock what
    they lock.  The local guard [ret] they construct around the entity
    keeps its [parent], so when the function returns its destructor calls
    [unlock] on the entity, with hint 0, after [_lock] took the lock and
    before the caller receives the guard; and the guard returned refers to
    the entity inside [ret], which no longer exists. *)
Theorem lock_entity_unlocks_on_return
    (deadline : Type) (zero_seconds : deadline)
    (_lock : nat -> nat -> deadline -> bool -> world -> bool * world)
    (this : nat) (entity : entity_type) (d : deadline) (spin : bool)
    (w w3 : world) (ok : bool) (g : entities_guard) :
  let t := length (objs w) in
  let span := {| data := EntityOf t; size := 1 |} in
  let w1 := with_temporary this entity w in
  _lock this (S t) d spin (handed_out this span w1) = (ok, w3) ->
  get (S t) w3 = Some g ->
  get t w3 = get t w1 ->
  (exists w',
     lock_entity deadline _lock this entity d spin w
     = Some (if ok then Locked (length (objs w3)) else Failed, w')
     /\ get t w' = None
     /\ unlock_calls w'
        = unlock_calls w3 ++ (if ok then [] else calls_of g)
          ++ [{| uc_parent := this; uc_entities := span; uc_hint := 0 |}]
     /\ (ok = true ->
         exists gr, get (length (objs w3)) w' = Some gr
                    /\ parent gr = parent g /\ entities gr = entities g
                    /\ hint gr = hint g))
  /\ try_lock_entity deadline zero_seconds _lock this entity w
     = lock_entity deadline _lock this entity zero_seconds false w.
Proof.
  intros t span w1 Hl Hg Ht. split.
  - apply (lock_entity_spec deadline _lock this entity d spin w ok w3 g Hl Hg Ht).
  - apply try_lock_entity_unfold.
Qed.

Lemma lock_entity_unlocks_on_return_witness :
  (exists w',
     lock_entity unit demo_lock 7 demo_entity tt false empty_world
     = Some (Locked 2, w')
     /\ get 0 w' = None
     /\ unlock_calls w'
        = [] ++ [] ++ [{| uc_parent := 7;
                          uc_entities := {| data := EntityOf 0; size := 1 |};
                          uc_hint := 0 |}]
     /\ (true = true ->
         exists gr, get 2 w' = Some gr
                    /\ parent gr = Some 7
                    /\ entities gr = {| data := EntityOf 0; size := 1 |}
                    /\ hint gr = 0%Z))
  /\ try_lock_entity unit tt demo_lock 7 demo_entity empty_world
     = lock_entity unit demo_lock 7 demo_entity tt false empty_world.
Proof.
  apply (lock_entity_unlocks_on_return unit tt demo_lock 7 demo_entity tt false
           empty_world
           (handed_out 7 {| data := EntityOf 0; size := 1 |}
              (with_temporary 7 demo_entity empty_world))
           true
           {| _entity := {| value := 0; exclusive := false |}; parent := Some 7;
              entities := {| data := EntityOf 0; size := 1 |}; hint := 0 |}).
  - reflexivity.
  - reflexivity.
  - reflexivity.
Defined.

End MutexTheory.

(** ** utils.hpp: hex strings in place, random strings, page sizes *)

Module UtilsTheory.
Import Hex HexTheory Utils.

(** *** Encoding in place *)

Lemma insert4_at {A} (buf : list A) (k : nat) a b c d :
  (k + 4 <= length buf)%nat ->
  <[k := a]> (<[(k + 1)%nat := b]> (<[(k + 2)%nat := c]> (<[(k + 3)%nat := d]> buf)))
  = take k buf ++ [a; b; c; d] ++ drop (k + 4) buf.
Proof.
  intros Hk.
  assert (Hd : exists x0 x1 x2 x3, drop k buf = [x0; x1; x2; x3] ++ drop (k + 4) buf).
  { destruct (drop k buf) as [|x0 [|x1 [|x2 [|x3 Q]]]] eqn:E;
      try (apply (f_equal length) in E; rewrite length_drop in E; simpl in E; lia).
    exists x0, x1, x2, x3. simpl. do 4 f_equal.
    rewrite <- drop_drop, E. reflexivity. }
  destruct Hd as (x0 & x1 & x2 & x3 & Hd).
  rewrite <- (take_drop k buf) at 1. rewrite Hd.
  assert (HP : length (take k buf) = k) by (rewrite length_take; lia).
  rewrite <- HP at 1 2 3 4. apply insert4.
Qed.

(** One turn of the loop on a single buffer: the bytes at [n] and
    [n + 1] are read before the characters written over them are. *)
Lemma to_hex_body_alias_spec buf (n : nat) v0 v1 :
  buf !! n = Some v0 -> buf !! S n = Some v1 ->
  (2 * n + 4 <= length buf)%nat -> Z.of_nat n < 2 ^ 62 ->
  to_hex_body_alias (Z.of_nat n) buf
  = Ok (take (2 * n) buf ++ encode_byte v0 ++ encode_byte v1
        ++ drop (2 * n + 4) buf).
Proof.
  intros H0 H1 Hlen Hn. unfold to_hex_body_alias.
  replace (wrap (Z.of_nat n + 1)) with (Z.of_nat (S n)) by (rewrite size_wrap_small; lia).
  replace (wrap (Z.of_nat n * 2 + 3)) with (Z.of_nat (2 * n + 3))
    by (rewrite size_wrap_small; lia).
  replace (wrap (Z.of_nat n * 2 + 2)) with (Z.of_nat (2 * n + 2))
    by (rewrite size_wrap_small; lia).
  replace (wrap (Z.of_nat n * 2 + 1)) with (Z.of_nat (2 * n + 1))
    by (rewrite size_wrap_small; lia).
  replace (wrap (Z.of_nat n * 2 + 0)) with (Z.of_nat (2 * n))
    by (rewrite size_wrap_small; lia).
  rewrite (hi_digit_ok _ _ _ H1). cbn [mbind result_bind].
  rewrite wr_ok by lia. cbn [mbind result_bind].
  rewrite (lo_digit_ok _ (S n) v1)
    by (rewrite list_lookup_insert_ne by lia; exact H1).
  cbn [mbind result_bind].
  rewrite wr_ok by (rewrite !length_insert; lia). cbn [mbind result_bind].
  rewrite (hi_digit_ok _ n v0)
    by (rewrite !list_lookup_insert_ne by lia; exact H0).
  cbn [mbind result_bind].
  rewrite wr_ok by (rewrite !length_insert; lia). cbn [mbind result_bind].
  rewrite (lo_digit_ok _ n v0)
    by (rewrite !list_lookup_insert_ne by lia; exact H0).
  cbn [mbind result_bind].
  rewrite wr_ok by (rewrite !length_insert; lia).
  rewrite insert4_at by lia. reflexivity.
Qed.

Lemma in_place_body b tail buf (n : nat) :
  in_place b tail buf (n + 2) -> (n + 2 <= length b)%nat ->
  Z.of_nat n < 2 ^ 62 ->
  exists buf', to_hex_body_alias (Z.of_nat n) buf = Ok buf'
               /\ in_place b tail buf' n.
Proof.
  intros (Hl & Ht & Hd) Hn Hsmall.
  destruct (lookup_lt_is_Some_2 b n ltac:(lia)) as [v0 H0].
  destruct (lookup_lt_is_Some_2 b (S n) ltac:(lia)) as [v1 H1].
  assert (B0 : buf !! n = Some v0).
  { rewrite <- (lookup_take_lt buf (n + 2) n) by lia.
    rewrite Ht, lookup_take_lt by lia. exact H0. }
  assert (B1 : buf !! S n = Some v1).
  { rewrite <- (lookup_take_lt buf (n + 2) (S n)) by lia.
    rewrite Ht, lookup_take_lt by lia. exact H1. }
  assert (Hlen : (2 * n + 4 <= length buf)%nat) by lia.
  rewrite (to_hex_body_alias_spec buf n v0 v1 B0 B1 Hlen Hsmall).
  eexists. split; [reflexivity|]. split; [|split].
  - rewrite !length_app, length_take, length_drop. simpl. lia.
  - rewrite take_app_le by (rewrite length_take; lia).
    rewrite take_take. replace (n `min` (2 * n))%nat with n by lia.
    replace n with (n `min` (n + 2))%nat at 1 by lia.
    rewrite <- take_take, Ht, take_take.
    f_equal. lia.
  - rewrite drop_app_length' by (rewrite length_take; lia).
    replace (2 * n + 4)%nat with (2 * (n + 2))%nat by lia. rewrite Hd.
    rewrite (encode_drop b n v0 v1 H0 H1).
    replace (S (S n)) with (n + 2)%nat by lia.
    rewrite <- !app_assoc. reflexivity.
Qed.

Lemma to_hex_loop_alias_spec b tail (r : nat) :
  (r <= 1)%nat -> Z.of_nat (length b) < 2 ^ 62 ->
  forall (j fuel n : nat) buf,
    n = (r + 2 * j)%nat -> (n + 2 <= length b)%nat -> (j + 1 < fuel)%nat ->
    in_place b tail buf (n + 2) ->
    exists buf', to_hex_loop_alias fuel (Z.of_nat (length b)) (Z.of_nat n) buf = Ok buf'
                 /\ in_place b tail buf' r.
Proof.
  intros Hr HL. induction j as [|j IH]; intros fuel n buf Hn Hlen Hfuel Hinv.
  - destruct fuel as [|[|fuel]]; try lia. cbn [to_hex_loop_alias].
    rewrite (size_wrap_small (Z.of_nat (length b) - 2)) by lia.
    destruct (Z.leb_spec (Z.of_nat n) (Z.of_nat (length b) - 2)); [|lia].
    destruct (in_place_body b tail buf n Hinv Hlen ltac:(lia)) as (buf' & Hb & Hinv').
    rewrite Hb. cbn [mbind result_bind].
    replace (wrap (Z.of_nat n - 2)) with (2 ^ 64 + Z.of_nat n - 2).
    2:{ unfold wrap, size_max. apply (Z.mod_unique _ _ (-1)); lia. }
    destruct (Z.leb_spec (2 ^ 64 + Z.of_nat n - 2) (Z.of_nat (length b) - 2)); [lia|].
    exists buf'. split; [reflexivity|]. replace r with n by lia. exact Hinv'.
  - destruct fuel as [|fuel]; try lia. cbn [to_hex_loop_alias].
    rewrite (size_wrap_small (Z.of_nat (length b) - 2)) by lia.
    destruct (Z.leb_spec (Z.of_nat n) (Z.of_nat (length b) - 2)); [|lia].
    destruct (in_place_body b tail buf n Hinv Hlen ltac:(lia)) as (buf' & Hb & Hinv').
    rewrite Hb. cbn [mbind result_bind].
    replace (wrap (Z.of_nat n - 2)) with (Z.of_nat (n - 2))
      by (rewrite size_wrap_small; lia).
    apply IH; [lia|lia|lia|].
    replace (n - 2 + 2)%nat with n by lia. exact Hinv'.
Qed.

Lemma in_place_0 b tail buf : in_place b tail buf 0 -> buf = encode b ++ tail.
Proof. intros (_ & _ & H). simpl in H. rewrite !drop_0 in H. exact H. Qed.

Lemma to_hex_string_alias_ok buf (L : nat) :
  (2 <= L)%nat -> Z.of_nat L < 2 ^ 62 -> (2 * L <= length buf)%nat ->
  to_hex_string_alias buf (Z.of_nat (length buf)) (Z.of_nat L)
  = Ok (encode (take L buf) ++ drop (2 * L) buf, Z.of_nat L * 2).
Proof.
  intros H2 HL Hlen. unfold to_hex_string_alias.
  rewrite (size_wrap_small (Z.of_nat L * 2)) by lia.
  destruct (Z.ltb_spec (Z.of_nat (length buf)) (Z.of_nat L * 2)); [lia|].
  rewrite Nat2Z.id.
  replace (wrap (Z.of_nat L - 2)) with (Z.of_nat (L - 2))
    by (rewrite size_wrap_small; lia).
  set (b := take L buf). set (tail := drop (2 * L) buf).
  assert (Hb : length b = L) by (subst b; rewrite length_take; lia).
  assert (Hinv : in_place b tail buf (L - 2 + 2)).
  { replace (L - 2 + 2)%nat with L by lia. split; [|split].
    - subst tail. rewrite length_drop. lia.
    - subst b. rewrite take_take. f_equal. lia.
    - rewrite (drop_ge b) by lia. reflexivity. }
  assert (HLb : Z.of_nat (length b) < 2 ^ 62) by (rewrite Hb; exact HL).
  destruct (Nat.Even_or_Odd L) as [[k Hk]|[k Hk]].
  - destruct (to_hex_loop_alias_spec b tail 0 ltac:(lia) HLb (k - 1)
                (S (S L)) (L - 2) buf) as (buf' & Hr & Hinv');
      [lia|lia|lia|exact Hinv|].
    rewrite Hb in Hr. rewrite Hr. cbn [mbind result_bind].
    rewrite Hk, land_1_even. cbn [Z.eqb mbind result_bind].
    rewrite (in_place_0 _ _ _ Hinv'). reflexivity.
  - destruct (to_hex_loop_alias_spec b tail 1 ltac:(lia) HLb (k - 1)
                (S (S L)) (L - 2) buf) as (buf' & Hr & Hinv');
      [lia|lia|lia|exact Hinv|].
    rewrite Hb in Hr. rewrite Hr. cbn [mbind result_bind].
    rewrite Hk, land_1_odd. cbn [Z.eqb].
    destruct Hinv' as (Hl' & Ht & Hd).
    destruct b as [|x b']; [simpl in Hb; lia|].
    assert (B0 : buf' !! 0%nat = Some x).
    { rewrite <- (lookup_take_lt buf' 1 0) by lia. rewrite Ht. reflexivity. }
    simpl in Hl'.
    change (hi_digit buf' 0) with (hi_digit buf' (Z.of_nat 0)).
    rewrite (hi_digit_ok buf' 0 x B0). cbn [mbind result_bind].
    rewrite wr_ok_Z by lia. cbn [mbind result_bind].
    change (lo_digit (<[Z.to_nat 1:=hexdigit (Z.land (x ≫ 4) 15)]> buf') 0)
      with (lo_digit (<[Z.to_nat 1:=hexdigit (Z.land (x ≫ 4) 15)]> buf') (Z.of_nat 0)).
    rewrite (lo_digit_ok _ 0 x) by (rewrite list_lookup_insert_ne by lia; exact B0).
    cbn [mbind result_bind].
    rewrite wr_ok_Z by (rewrite length_insert; lia).
    do 2 f_equal.
    destruct buf' as [|y0 [|y1 rest]]; simpl in Hl'; try lia.
    simpl in Hd. rewrite ?drop_0 in Hd. cbn. rewrite Hd. reflexivity.
Qed.


Lemma hexdigit_in_table k : 0 <= k < 16 -> hexdigit k ∈ table.
Proof.
  intros Hk.
  assert (k = 0 \/ k = 1 \/ k = 2 \/ k = 3 \/ k = 4 \/ k = 5 \/ k = 6 \/ k = 7
          \/ k = 8 \/ k = 9 \/ k = 10 \/ k = 11 \/ k = 12 \/ k = 13 \/ k = 14
          \/ k = 15) as H by lia.
  repeat (destruct H as [->|H]; [unfold hexdigit, table; simpl; repeat constructor|]).
  subst k. unfold hexdigit, table; simpl; repeat constructor.
Qed.

Lemma land_15_range x : 0 <= Z.land x 15 < 16.
Proof.
  change 15 with (Z.ones 4). rewrite Z.land_ones by lia.
  apply Z.mod_pos_bound. lia.
Qed.

Lemma encode_in_table b : Forall (fun c => c ∈ table) (encode b).
Proof.
  induction b as [|x b IH]; simpl; [constructor|].
  constructor; [apply hexdigit_in_table, land_15_range|].
  constructor; [apply hexdigit_in_table, land_15_range|exact IH].
Qed.

(** *** [to_hex_string] into a buffer of its own *)

Lemma to_hex_loop_frame b tail (r : nat) :
  (r <= 1)%nat -> Z.of_nat (length b) < 2 ^ 62 ->
  forall (j fuel n : nat) P,
    n = (r + 2 * j)%nat -> (n + 2 <= length b)%nat -> (j + 1 < fuel)%nat ->
    length P = (2 * (n + 2))%nat ->
    to_hex_loop fuel b (Z.of_nat (length b)) (Z.of_nat n)
      (P ++ encode (drop (n + 2) b) ++ tail)
    = Ok (take (2 * r) P ++ encode (drop r b) ++ tail).
Proof.
  intros Hr HL. induction j as [|j IH]; intros fuel n P Hn Hlen Hfuel HP.
  - destruct fuel as [|[|fuel]]; try lia. cbn [to_hex_loop].
    rewrite (size_wrap_small (Z.of_nat (length b) - 2)) by lia.
    destruct (Z.leb_spec (Z.of_nat n) (Z.of_nat (length b) - 2)); [|lia].
    destruct (lookup_lt_is_Some_2 b n ltac:(lia)) as [v0 H0].
    destruct (lookup_lt_is_Some_2 b (S n) ltac:(lia)) as [v1 H1].
    rewrite <- (take_drop (2 * n) P).
    destruct (drop (2 * n) P) as [|x0 [|x1 [|x2 [|x3 [|x4 R]]]]] eqn:E;
      try (apply (f_equal length) in E; rewrite length_drop in E; simpl in E; lia).
    rewrite <- app_assoc.
    rewrite (to_hex_body_spec b n v0 v1 (take (2 * n) P)
               (encode (drop (n + 2) b) ++ tail) x0 x1 x2 x3 H0 H1)
      by (try rewrite length_take; lia).
    cbn [mbind result_bind].
    replace (wrap (Z.of_nat n - 2)) with (2 ^ 64 + Z.of_nat n - 2).
    2:{ unfold wrap, size_max. apply (Z.mod_unique _ _ (-1)); lia. }
    destruct (Z.leb_spec (2 ^ 64 + Z.of_nat n - 2) (Z.of_nat (length b) - 2)); [lia|].
    replace r with n by lia.
    rewrite (encode_drop b n v0 v1 H0 H1).
    replace (n + 2)%nat with (S (S n)) by lia.
    rewrite take_app_le by (rewrite length_take; lia).
    rewrite take_take, Nat.min_id.
    rewrite <- !app_assoc. reflexivity.
  - destruct fuel as [|fuel]; try lia. cbn [to_hex_loop].
    rewrite (size_wrap_small (Z.of_nat (length b) - 2)) by lia.
    destruct (Z.leb_spec (Z.of_nat n) (Z.of_nat (length b) - 2)); [|lia].
    destruct (lookup_lt_is_Some_2 b n ltac:(lia)) as [v0 H0].
    destruct (lookup_lt_is_Some_2 b (S n) ltac:(lia)) as [v1 H1].
    rewrite <- (take_drop (2 * n) P).
    destruct (drop (2 * n) P) as [|x0 [|x1 [|x2 [|x3 [|x4 R]]]]] eqn:E;
      try (apply (f_equal length) in E; rewrite length_drop in E; simpl in E; lia).
    rewrite <- app_assoc.
    rewrite (to_hex_body_spec b n v0 v1 (take (2 * n) P)
               (encode (drop (n + 2) b) ++ tail) x0 x1 x2 x3 H0 H1)
      by (try rewrite length_take; lia).
    cbn [mbind result_bind].
    replace (wrap (Z.of_nat n - 2)) with (Z.of_nat (n - 2))
      by (rewrite size_wrap_small; lia).
    assert (Heq : encode_byte v0 ++ encode_byte v1 ++ encode (drop (n + 2) b) ++ tail
                  = encode (drop (n - 2 + 2) b) ++ tail).
    { replace (n - 2 + 2)%nat with n by lia. rewrite (encode_drop b n v0 v1 H0 H1).
      replace (S (S n)) with (n + 2)%nat by lia. rewrite <- !app_assoc. reflexivity. }
    rewrite Heq.
    rewrite (IH fuel (n - 2)%nat (take (2 * n) P)); [|lia|lia|lia|rewrite length_take; lia].
    rewrite take_app_le by (rewrite length_take; lia). reflexivity.
Qed.

Lemma to_hex_string_ok out inp :
  (2 <= length inp)%nat -> Z.of_nat (length inp) < 2 ^ 62 ->
  (2 * length inp <= length out)%nat ->
  to_hex_string out (Z.of_nat (length out)) inp (Z.of_nat (length inp))
  = Ok (encode inp ++ drop (2 * length inp) out, Z.of_nat (length inp) * 2).
Proof.
  intros H2 HL Hlen. unfold to_hex_string.
  rewrite (size_wrap_small (Z.of_nat (length inp) * 2)) by lia.
  destruct (Z.ltb_spec (Z.of_nat (length out)) (Z.of_nat (length inp) * 2)); [lia|].
  rewrite Nat2Z.id.
  replace (wrap (Z.of_nat (length inp) - 2)) with (Z.of_nat (length inp - 2))
    by (rewrite size_wrap_small; lia).
  set (tail := drop (2 * length inp) out).
  assert (Hout : out = take (2 * (length inp - 2 + 2)) out
                       ++ encode (drop (length inp - 2 + 2) inp) ++ tail).
  { rewrite (drop_ge inp) by lia. subst tail.
    replace (2 * (length inp - 2 + 2))%nat with (2 * length inp)%nat by lia.
    change (encode []) with (@nil Z). rewrite app_nil_l.
    symmetry. apply take_drop. }
  rewrite Hout at 1.
  destruct (Nat.Even_or_Odd (length inp)) as [[k Hk]|[k Hk]].
  - rewrite (to_hex_loop_frame inp tail 0 ltac:(lia) HL (k - 1))
      by (try rewrite length_take; lia).
    cbn [mbind result_bind]. rewrite Hk at 1. rewrite land_1_even.
    cbn [Z.eqb mbind result_bind]. simpl take. rewrite drop_0. reflexivity.
  - rewrite (to_hex_loop_frame inp tail 1 ltac:(lia) HL (k - 1))
      by (try rewrite length_take; lia).
    cbn [mbind result_bind]. rewrite Hk at 1. rewrite land_1_odd. cbn [Z.eqb].
    destruct inp as [|x inp']; [simpl in H2; lia|].
    change (hi_digit (x :: inp') 0) with (hi_digit (x :: inp') (Z.of_nat 0)).
    change (lo_digit (x :: inp') 0) with (lo_digit (x :: inp') (Z.of_nat 0)).
    rewrite (hi_digit_ok (x :: inp') 0 x eq_refl), (lo_digit_ok (x :: inp') 0 x eq_refl).
    cbn [mbind result_bind].
    rewrite take_take.
    assert (Hmin : ((2 * 1) `min` (2 * (length (x :: inp') - 2 + 2)))%nat = 2%nat)
      by (simpl length in *; lia).
    rewrite Hmin.
    destruct (take 2 out) as [|y0 [|y1 [|y2 R]]] eqn:E;
      try (apply (f_equal length) in E; rewrite length_take in E;
           simpl length in *; lia).
    change (drop 1 (x :: inp')) with inp'.
    rewrite wr_ok_Z by (simpl length; lia). cbn [mbind result_bind].
    rewrite wr_ok_Z by (rewrite length_insert; simpl length; lia).
    reflexivity.
Qed.


(** *** What [from_hex_string] accepts *)

Lemma fromhex_raw inv c : fromhex inv c = (raw c, bad c || inv).
Proof.
  unfold bad, raw, fromhex. cbn [fst]. reflexivity.
Qed.

Lemma fh_get_raw inp (i : nat) c inv :
  inp !! i = Some c -> fh_get inp (Z.of_nat i) inv = Ok (raw c, bad c || inv).
Proof. intros H. rewrite (fh_get_ok _ _ _ _ H), fromhex_raw. reflexivity. Qed.

Lemma from_hex_body4_any inp (n : nat) c0 c1 c2 c3 c4 c5 c6 c7 P Q y0 y1 y2 y3 inv :
  inp !! (2 * n)%nat = Some c0 -> inp !! (2 * n + 1)%nat = Some c1 ->
  inp !! (2 * n + 2)%nat = Some c2 -> inp !! (2 * n + 3)%nat = Some c3 ->
  inp !! (2 * n + 4)%nat = Some c4 -> inp !! (2 * n + 5)%nat = Some c5 ->
  inp !! (2 * n + 6)%nat = Some c6 -> inp !! (2 * n + 7)%nat = Some c7 ->
  length P = n -> Z.of_nat n < 2 ^ 62 ->
  from_hex_body4 inp (Z.of_nat n) (P ++ [y0; y1; y2; y3] ++ Q, inv)
  = Ok (P ++ [pack (raw c1) (raw c0); pack (raw c3) (raw c2);
              pack (raw c5) (raw c4); pack (raw c7) (raw c6)] ++ Q,
        existsb bad [c0; c1; c2; c3; c4; c5; c6; c7] || inv).
Proof.
  intros H0 H1 H2 H3 H4 H5 H6 H7 HP Hn. unfold from_hex_body4.
  replace (wrap (Z.of_nat n * 2)) with (Z.of_nat (2 * n))
    by (rewrite size_wrap_small; lia).
  replace (wrap (Z.of_nat n * 2 + 1)) with (Z.of_nat (2 * n + 1))
    by (rewrite size_wrap_small; lia).
  replace (wrap (Z.of_nat n * 2 + 2)) with (Z.of_nat (2 * n + 2))
    by (rewrite size_wrap_small; lia).
  replace (wrap (Z.of_nat n * 2 + 3)) with (Z.of_nat (2 * n + 3))
    by (rewrite size_wrap_small; lia).
  replace (wrap (Z.of_nat n * 2 + 4)) with (Z.of_nat (2 * n + 4))
    by (rewrite size_wrap_small; lia).
  replace (wrap (Z.of_nat n * 2 + 5)) with (Z.of_nat (2 * n + 5))
    by (rewrite size_wrap_small; lia).
  replace (wrap (Z.of_nat n * 2 + 6)) with (Z.of_nat (2 * n + 6))
    by (rewrite size_wrap_small; lia).
  replace (wrap (Z.of_nat n * 2 + 7)) with (Z.of_nat (2 * n + 7))
    by (rewrite size_wrap_small; lia).
  replace (wrap (Z.of_nat n + 1)) with (Z.of_nat (length P + 1))
    by (rewrite size_wrap_small; lia).
  replace (wrap (Z.of_nat n + 2)) with (Z.of_nat (length P + 2))
    by (rewrite size_wrap_small; lia).
  replace (wrap (Z.of_nat n + 3)) with (Z.of_nat (length P + 3))
    by (rewrite size_wrap_small; lia).
  rewrite (fh_get_raw _ _ _ _ H0). cbn [mbind result_bind fst snd].
  rewrite (fh_get_raw _ _ _ _ H1). cbn [mbind result_bind fst snd].
  rewrite (fh_get_raw _ _ _ _ H2). cbn [mbind result_bind fst snd].
  rewrite (fh_get_raw _ _ _ _ H3). cbn [mbind result_bind fst snd].
  replace (Z.of_nat n) with (Z.of_nat (length P + 0)) by lia.
  rewrite wr_ok by (rewrite length_app; simpl; lia). cbn [mbind result_bind].
  rewrite (fh_get_raw _ _ _ _ H4). cbn [mbind result_bind fst snd].
  rewrite (fh_get_raw _ _ _ _ H5). cbn [mbind result_bind fst snd].
  rewrite wr_ok by (rewrite !length_insert, length_app; simpl; lia).
  cbn [mbind result_bind].
  rewrite (fh_get_raw _ _ _ _ H6). cbn [mbind result_bind fst snd].
  rewrite (fh_get_raw _ _ _ _ H7). cbn [mbind result_bind fst snd].
  rewrite wr_ok by (rewrite !length_insert, length_app; simpl; lia).
  cbn [mbind result_bind].
  rewrite wr_ok by (rewrite !length_insert, length_app; simpl; lia).
  cbn [mbind result_bind].
  rewrite insert4_up. do 2 f_equal. cbn [existsb].
  destruct (bad c0), (bad c1), (bad c2), (bad c3), (bad c4), (bad c5), (bad c6),
    (bad c7), inv; reflexivity.
Qed.

Lemma decode_raw_lookup : forall (i : nat) h c0 c1,
  h !! (2 * i)%nat = Some c0 -> h !! (2 * i + 1)%nat = Some c1 ->
  decode_raw h !! i = Some (pack (raw c1) (raw c0)).
Proof.
  induction i as [|i IH]; intros h c0 c1 H0 H1.
  - change (2 * 0)%nat with 0%nat in H0. change (2 * 0 + 1)%nat with 1%nat in H1.
    destruct h as [|a [|b h]]; try discriminate.
    cbn in H0, H1. injection H0 as ->. injection H1 as ->. reflexivity.
  - destruct h as [|a [|b h]]; try discriminate.
    replace (2 * S i)%nat with (S (S (2 * i))) in H0 by lia.
    replace (2 * S i + 1)%nat with (S (S (2 * i + 1))) in H1 by lia.
    change (h !! (2 * i)%nat = Some c0) in H0.
    change (h !! (2 * i + 1)%nat = Some c1) in H1.
    change (decode_raw h !! i = Some (pack (raw c1) (raw c0))).
    apply IH; assumption.
Qed.

Lemma decode_raw_length : forall (m : nat) h,
  length h = (2 * m)%nat -> length (decode_raw h) = m.
Proof.
  induction m as [|m IH]; intros h Hh.
  - destruct h; [reflexivity|simpl in Hh; lia].
  - destruct h as [|a [|b h]]; simpl in Hh; try lia.
    simpl. f_equal. apply IH. lia.
Qed.

Lemma drop_8 (l : list Z) (i : nat) c0 c1 c2 c3 c4 c5 c6 c7 :
  l !! i = Some c0 -> l !! (i + 1)%nat = Some c1 ->
  l !! (i + 2)%nat = Some c2 -> l !! (i + 3)%nat = Some c3 ->
  l !! (i + 4)%nat = Some c4 -> l !! (i + 5)%nat = Some c5 ->
  l !! (i + 6)%nat = Some c6 -> l !! (i + 7)%nat = Some c7 ->
  drop i l = [c0; c1; c2; c3; c4; c5; c6; c7] ++ drop (i + 8) l.
Proof.
  intros H0 H1 H2 H3 H4 H5 H6 H7.
  rewrite (drop_S l c0 i H0).
  replace (S i) with (i + 1)%nat by lia. rewrite (drop_S l c1 _ H1).
  replace (S (i + 1)) with (i + 2)%nat by lia. rewrite (drop_S l c2 _ H2).
  replace (S (i + 2)) with (i + 3)%nat by lia. rewrite (drop_S l c3 _ H3).
  replace (S (i + 3)) with (i + 4)%nat by lia. rewrite (drop_S l c4 _ H4).
  replace (S (i + 4)) with (i + 5)%nat by lia. rewrite (drop_S l c5 _ H5).
  replace (S (i + 5)) with (i + 6)%nat by lia. rewrite (drop_S l c6 _ H6).
  replace (S (i + 6)) with (i + 7)%nat by lia. rewrite (drop_S l c7 _ H7).
  replace (S (i + 7)) with (i + 8)%nat by lia. reflexivity.
Qed.

(** The first loop on an input of [2 m] characters, [m] a multiple of
    four: it writes the bytes of the pairs, and flags the input when one
    of its characters is flagged. *)
Lemma from_hex_loop4_any inp (m : nat) :
  length inp = (2 * m)%nat -> Z.of_nat m < 2 ^ 62 ->
  forall (k fuel n : nat) inv,
    (n + 4 * k)%nat = m -> (k < fuel)%nat ->
    from_hex_loop4 fuel inp (Z.of_nat (length inp)) (Z.of_nat n)
      (take n (decode_raw inp) ++ replicate (4 * k) 0, inv)
    = Ok (decode_raw inp, existsb bad (drop (2 * n) inp) || inv).
Proof.
  intros Hlen Hm.
  assert (Hhalf : Z.of_nat (length inp) / 2 = Z.of_nat m)
    by (rewrite Hlen; apply half_length).
  pose proof (decode_raw_length m inp Hlen) as HD.
  induction k as [|k IH]; intros fuel n inv Hn Hfuel;
    (destruct fuel as [|fuel]; [lia|]); cbn [from_hex_loop4];
    rewrite Hhalf.
  - destruct (Z.ltb_spec (Z.of_nat n) (Z.of_nat m)); [lia|].
    simpl. rewrite app_nil_r, take_ge by lia.
    rewrite drop_ge by lia. reflexivity.
  - destruct (Z.ltb_spec (Z.of_nat n) (Z.of_nat m)); [|lia].
    destruct (lookup_lt_is_Some_2 inp (2 * n) ltac:(lia)) as [c0 H0].
    destruct (lookup_lt_is_Some_2 inp (2 * n + 1) ltac:(lia)) as [c1 H1].
    destruct (lookup_lt_is_Some_2 inp (2 * n + 2) ltac:(lia)) as [c2 H2].
    destruct (lookup_lt_is_Some_2 inp (2 * n + 3) ltac:(lia)) as [c3 H3].
    destruct (lookup_lt_is_Some_2 inp (2 * n + 4) ltac:(lia)) as [c4 H4].
    destruct (lookup_lt_is_Some_2 inp (2 * n + 5) ltac:(lia)) as [c5 H5].
    destruct (lookup_lt_is_Some_2 inp (2 * n + 6) ltac:(lia)) as [c6 H6].
    destruct (lookup_lt_is_Some_2 inp (2 * n + 7) ltac:(lia)) as [c7 H7].
    replace (4 * S k)%nat with (4 + 4 * k)%nat by lia.
    rewrite replicate_add. change (replicate 4 0) with [0; 0; 0; 0].
    rewrite (from_hex_body4_any inp n c0 c1 c2 c3 c4 c5 c6 c7);
      try assumption; try (rewrite length_take; lia); try lia.
    cbn [mbind result_bind].
    replace (wrap (Z.of_nat n + 4)) with (Z.of_nat (n + 4))
      by (rewrite size_wrap_small; lia).
    assert (D0 := decode_raw_lookup n inp c0 c1 H0 H1).
    assert (D1 := decode_raw_lookup (n + 1) inp c2 c3
                    ltac:(replace (2 * (n + 1))%nat with (2 * n + 2)%nat by lia; exact H2)
                    ltac:(replace (2 * (n + 1) + 1)%nat with (2 * n + 3)%nat by lia; exact H3)).
    assert (D2 := decode_raw_lookup (n + 2) inp c4 c5
                    ltac:(replace (2 * (n + 2))%nat with (2 * n + 4)%nat by lia; exact H4)
                    ltac:(replace (2 * (n + 2) + 1)%nat with (2 * n + 5)%nat by lia; exact H5)).
    assert (D3 := decode_raw_lookup (n + 3) inp c6 c7
                    ltac:(replace (2 * (n + 3))%nat with (2 * n + 6)%nat by lia; exact H6)
                    ltac:(replace (2 * (n + 3) + 1)%nat with (2 * n + 7)%nat by lia; exact H7)).
    rewrite app_assoc, <- (take_4 (decode_raw inp) n _ _ _ _ D0 D1 D2 D3).
    rewrite (IH fuel (n + 4)%nat) by lia.
    do 2 f_equal.
    rewrite (drop_8 inp (2 * n) c0 c1 c2 c3 c4 c5 c6 c7) by assumption.
    rewrite existsb_app.
    replace (2 * (n + 4))%nat with (2 * n + 8)%nat by lia.
    destruct (existsb bad (drop (2 * n + 8) inp)),
      (existsb bad [c0; c1; c2; c3; c4; c5; c6; c7]), inv; reflexivity.
Qed.

Lemma from_hex_string_s_raw inp (m : nat) :
  length inp = (2 * m)%nat -> (m mod 4 = 0)%nat -> Z.of_nat m < 2 ^ 62 ->
  from_hex_string_s inp
  = if existsb bad inp then Fault InvalidArgument else Ok (decode_raw inp).
Proof.
  intros Hlen Hmod Hm. unfold from_hex_string_s, from_hex_string.
  rewrite length_replicate.
  assert (Hev : Z.of_nat (length inp) mod 2 = 0).
  { rewrite Hlen. replace (Z.of_nat (2 * m)) with (Z.of_nat m * 2) by lia.
    apply Z.mod_mul. lia. }
  assert (Hhalf : Z.of_nat (length inp) / 2 = Z.of_nat m)
    by (rewrite Hlen; apply half_length).
  rewrite Hev. cbn [Z.eqb negb]. rewrite Hhalf, Nat2Z.id.
  destruct (Z.ltb_spec (Z.of_nat m) (Z.of_nat m)); [lia|].
  pose proof (Nat.div_mod_eq m 4) as Hdm.
  assert (Hk : (m / 4 < S (Z.to_nat (Z.of_nat (length inp))))%nat).
  { rewrite Nat2Z.id, Hlen. lia. }
  pose proof (from_hex_loop4_any inp m Hlen Hm (m / 4) _ 0 false
                ltac:(lia) Hk) as Hloop.
  replace (4 * (m / 4))%nat with m in Hloop by lia.
  simpl take in Hloop. simpl app in Hloop.
  change (Z.of_nat 0) with 0 in Hloop. rewrite Hloop.
  cbn [mbind result_bind].
  assert (Hm4 : Z.of_nat m mod 4 = 0).
  { replace m with (m / 4 * 4)%nat by lia.
    rewrite Nat2Z.inj_mul. apply Z.mod_mul. lia. }
  rewrite Hm4, Z.sub_0_r, size_wrap_small by lia.
  cbn [from_hex_loop1]. rewrite Hhalf.
  destruct (Z.ltb_spec (Z.of_nat m) (Z.of_nat m)); [lia|].
  cbn [mbind result_bind fst snd]. change (2 * 0)%nat with 0%nat.
  rewrite drop_0, orb_false_r.
  destruct (existsb bad inp); reflexivity.
Qed.

Lemma raw_table :
  forallb (fun c => raw c =? (if is_hex_char c then digit_value c else 255))
    (seqZ 48 55) = true.
Proof. vm_compute. reflexivity. Qed.

Lemma raw_spec c : raw c = if is_hex_char c then digit_value c else 255.
Proof.
  destruct (decide (48 <= c <= 102)) as [Hc|Hc].
  - pose proof raw_table as H. rewrite forallb_forall in H.
    apply Z.eqb_eq, H. apply list_elem_of_In, elem_of_seqZ. lia.
  - unfold raw, fromhex, is_hex_char. cbn [fst].
    destruct (Z.leb_spec 48 c), (Z.leb_spec c 102), (Z.leb_spec c 57),
      (Z.leb_spec 97 c), (Z.leb_spec 65 c), (Z.leb_spec c 70);
      cbn; try reflexivity; lia.
Qed.

Lemma digit_value_range c : is_hex_char c = true -> 0 <= digit_value c < 16.
Proof.
  unfold is_hex_char, digit_value.
  destruct (Z.leb_spec 48 c), (Z.leb_spec c 102), (Z.leb_spec c 57),
    (Z.leb_spec 97 c), (Z.leb_spec 65 c), (Z.leb_spec c 70); cbn; intros; try lia;
    discriminate.
Qed.

Lemma bad_spec c : bad c = negb (is_hex_char c).
Proof.
  unfold bad. rewrite raw_spec. destruct (is_hex_char c) eqn:E; [|reflexivity].
  pose proof (digit_value_range c E). simpl. apply Z.eqb_neq. lia.
Qed.

Lemma existsb_bad h : existsb bad h = negb (forallb is_hex_char h).
Proof.
  induction h as [|c h IH]; simpl; [reflexivity|].
  rewrite IH, bad_spec. destruct (is_hex_char c); reflexivity.
Qed.

Lemma pack_table :
  forallb (fun hi => forallb (fun lo => pack hi lo =? 16 * hi + lo) (seqZ 0 16))
    (seqZ 0 16) = true.
Proof. vm_compute. reflexivity. Qed.

Lemma pack_digits hi lo :
  0 <= hi < 16 -> 0 <= lo < 16 -> pack hi lo = 16 * hi + lo.
Proof.
  intros Hh Hl. pose proof pack_table as H. rewrite forallb_forall in H.
  specialize (H hi ltac:(apply list_elem_of_In, elem_of_seqZ; lia)).
  rewrite forallb_forall in H. apply Z.eqb_eq, H.
  apply list_elem_of_In, elem_of_seqZ. lia.
Qed.

Lemma decode_raw_valid : forall (m : nat) h,
  (length h <= m)%nat -> forallb is_hex_char h = true -> decode_raw h = decode h.
Proof.
  induction m as [|m IH]; intros h Hm Hv.
  - destruct h; [reflexivity|simpl in Hm; lia].
  - destruct h as [|c0 [|c1 h]]; try reflexivity.
    simpl in Hv. apply andb_prop in Hv as [V0 Hv]. apply andb_prop in Hv as [V1 Hv].
    cbn [decode_raw decode].
    rewrite !raw_spec, V0, V1.
    rewrite pack_digits by (apply digit_value_range; assumption).
    f_equal. apply IH; [simpl in Hm; lia|exact Hv].
Qed.


(** *** Decoding in place *)

Lemma insert4_up_at {A} (buf : list A) (k : nat) a b c d :
  (k + 4 <= length buf)%nat ->
  <[(k + 3)%nat := d]> (<[(k + 2)%nat := c]> (<[(k + 1)%nat := b]>
     (<[(k + 0)%nat := a]> buf)))
  = take k buf ++ [a; b; c; d] ++ drop (k + 4) buf.
Proof.
  intros Hk.
  assert (Hd : exists x0 x1 x2 x3, drop k buf = [x0; x1; x2; x3] ++ drop (k + 4) buf).
  { destruct (drop k buf) as [|x0 [|x1 [|x2 [|x3 Q]]]] eqn:E;
      try (apply (f_equal length) in E; rewrite length_drop in E; simpl in E; lia).
    exists x0, x1, x2, x3. simpl. do 4 f_equal.
    rewrite <- drop_drop, E. reflexivity. }
  destruct Hd as (x0 & x1 & x2 & x3 & Hd).
  rewrite <- (take_drop k buf) at 1. rewrite Hd.
  assert (HP : length (take k buf) = k) by (rewrite length_take; lia).
  rewrite <- HP at 1 2 3 4. apply insert4_up.
Qed.

Lemma from_hex_body4_alias_spec buf (n : nat) c0 c1 c2 c3 c4 c5 c6 c7 inv :
  buf !! (2 * n)%nat = Some c0 -> buf !! (2 * n + 1)%nat = Some c1 ->
  buf !! (2 * n + 2)%nat = Some c2 -> buf !! (2 * n + 3)%nat = Some c3 ->
  buf !! (2 * n + 4)%nat = Some c4 -> buf !! (2 * n + 5)%nat = Some c5 ->
  buf !! (2 * n + 6)%nat = Some c6 -> buf !! (2 * n + 7)%nat = Some c7 ->
  Z.of_nat n < 2 ^ 62 ->
  from_hex_body4_alias (Z.of_nat n) (buf, inv)
  = Ok (take n buf
        ++ [pack (raw c1) (raw c0); pack (raw c3) (raw c2);
            pack (raw c5) (raw c4); pack (raw c7) (raw c6)]
        ++ drop (n + 4) buf,
        existsb bad [c0; c1; c2; c3; c4; c5; c6; c7] || inv).
Proof.
  intros H0 H1 H2 H3 H4 H5 H6 H7 Hn. unfold from_hex_body4_alias.
  pose proof (lookup_lt_Some _ _ _ H7) as Hlen.
  replace (wrap (Z.of_nat n * 2)) with (Z.of_nat (2 * n))
    by (rewrite size_wrap_small; lia).
  replace (wrap (Z.of_nat n * 2 + 1)) with (Z.of_nat (2 * n + 1))
    by (rewrite size_wrap_small; lia).
  replace (wrap (Z.of_nat n * 2 + 2)) with (Z.of_nat (2 * n + 2))
    by (rewrite size_wrap_small; lia).
  replace (wrap (Z.of_nat n * 2 + 3)) with (Z.of_nat (2 * n + 3))
    by (rewrite size_wrap_small; lia).
  replace (wrap (Z.of_nat n * 2 + 4)) with (Z.of_nat (2 * n + 4))
    by (rewrite size_wrap_small; lia).
  replace (wrap (Z.of_nat n * 2 + 5)) with (Z.of_nat (2 * n + 5))
    by (rewrite size_wrap_small; lia).
  replace (wrap (Z.of_nat n * 2 + 6)) with (Z.of_nat (2 * n + 6))
    by (rewrite size_wrap_small; lia).
  replace (wrap (Z.of_nat n * 2 + 7)) with (Z.of_nat (2 * n + 7))
    by (rewrite size_wrap_small; lia).
  replace (wrap (Z.of_nat n + 1)) with (Z.of_nat (n + 1))
    by (rewrite size_wrap_small; lia).
  replace (wrap (Z.of_nat n + 2)) with (Z.of_nat (n + 2))
    by (rewrite size_wrap_small; lia).
  replace (wrap (Z.of_nat n + 3)) with (Z.of_nat (n + 3))
    by (rewrite size_wrap_small; lia).
  rewrite (fh_get_raw _ _ _ _ H0). cbn [mbind result_bind fst snd].
  rewrite (fh_get_raw _ _ _ _ H1). cbn [mbind result_bind fst snd].
  rewrite (fh_get_raw _ _ _ _ H2). cbn [mbind result_bind fst snd].
  rewrite (fh_get_raw _ _ _ _ H3). cbn [mbind result_bind fst snd].
  replace (Z.of_nat n) with (Z.of_nat (n + 0)) by lia.
  rewrite wr_ok by lia. cbn [mbind result_bind].
  rewrite (fh_get_raw _ (2 * n + 4) c4)
    by (rewrite !list_lookup_insert_ne by lia; exact H4).
  cbn [mbind result_bind fst snd].
  rewrite (fh_get_raw _ (2 * n + 5) c5)
    by (rewrite !list_lookup_insert_ne by lia; exact H5).
  cbn [mbind result_bind fst snd].
  rewrite wr_ok by (rewrite !length_insert; lia). cbn [mbind result_bind].
  rewrite (fh_get_raw _ (2 * n + 6) c6)
    by (rewrite !list_lookup_insert_ne by lia; exact H6).
  cbn [mbind result_bind fst snd].
  rewrite (fh_get_raw _ (2 * n + 7) c7)
    by (rewrite !list_lookup_insert_ne by lia; exact H7).
  cbn [mbind result_bind fst snd].
  rewrite wr_ok by (rewrite !length_insert; lia). cbn [mbind result_bind].
  rewrite wr_ok by (rewrite !length_insert; lia). cbn [mbind result_bind].
  rewrite insert4_up_at by lia. do 2 f_equal. cbn [existsb].
  destruct (bad c0), (bad c1), (bad c2), (bad c3), (bad c4), (bad c5), (bad c6),
    (bad c7), inv; reflexivity.
Qed.

(** The first loop on a single buffer [buf0] whose first [2 m]
    characters are the input: below [n] the buffer holds decoded bytes,
    from [n] on it is as it was. *)
Lemma from_hex_loop4_alias_spec buf0 (m : nat) :
  (2 * m <= length buf0)%nat -> Z.of_nat m < 2 ^ 62 ->
  forall (k fuel n : nat) buf inv,
    (n + 4 * k)%nat = m -> (k < fuel)%nat ->
    take n buf = take n (decode_raw (take (2 * m) buf0)) ->
    drop n buf = drop n buf0 ->
    from_hex_loop4_alias fuel (Z.of_nat (2 * m)) (Z.of_nat n) (buf, inv)
    = Ok (decode_raw (take (2 * m) buf0) ++ drop m buf0,
          existsb bad (drop (2 * n) (take (2 * m) buf0)) || inv).
Proof.
  intros Hlen Hm.
  set (inp := take (2 * m) buf0).
  assert (Hinp : length inp = (2 * m)%nat) by (subst inp; rewrite length_take; lia).
  pose proof (decode_raw_length m inp Hinp) as HD.
  induction k as [|k IH]; intros fuel n buf inv Hn Hfuel Ht Hd;
    (destruct fuel as [|fuel]; [lia|]); cbn [from_hex_loop4_alias];
    rewrite half_length.
  - destruct (Z.ltb_spec (Z.of_nat n) (Z.of_nat m)); [lia|].
    assert (n = m) as -> by lia.
    rewrite (drop_ge inp) by lia. cbn [existsb orb].
    rewrite (take_ge (decode_raw inp)) in Ht by lia.
    rewrite <- (take_drop m buf), Ht, Hd. reflexivity.
  - destruct (Z.ltb_spec (Z.of_nat n) (Z.of_nat m)); [|lia].
    assert (Hrd : forall i, (i < 8)%nat ->
              buf !! (2 * n + i)%nat = inp !! (2 * n + i)%nat).
    { intros i Hi. subst inp. rewrite lookup_take_lt by lia.
      replace (2 * n + i)%nat with (n + (n + i))%nat by lia.
      rewrite <- !lookup_drop, Hd. reflexivity. }
    destruct (lookup_lt_is_Some_2 inp (2 * n) ltac:(lia)) as [c0 H0].
    destruct (lookup_lt_is_Some_2 inp (2 * n + 1) ltac:(lia)) as [c1 H1].
    destruct (lookup_lt_is_Some_2 inp (2 * n + 2) ltac:(lia)) as [c2 H2].
    destruct (lookup_lt_is_Some_2 inp (2 * n + 3) ltac:(lia)) as [c3 H3].
    destruct (lookup_lt_is_Some_2 inp (2 * n + 4) ltac:(lia)) as [c4 H4].
    destruct (lookup_lt_is_Some_2 inp (2 * n + 5) ltac:(lia)) as [c5 H5].
    destruct (lookup_lt_is_Some_2 inp (2 * n + 6) ltac:(lia)) as [c6 H6].
    destruct (lookup_lt_is_Some_2 inp (2 * n + 7) ltac:(lia)) as [c7 H7].
    rewrite (from_hex_body4_alias_spec buf n c0 c1 c2 c3 c4 c5 c6 c7); try lia.
    2:{ rewrite <- (Nat.add_0_r (2 * n)), (Hrd 0%nat), Nat.add_0_r by lia. exact H0. }
    2:{ rewrite (Hrd 1%nat) by lia. exact H1. }
    2:{ rewrite (Hrd 2%nat) by lia. exact H2. }
    2:{ rewrite (Hrd 3%nat) by lia. exact H3. }
    2:{ rewrite (Hrd 4%nat) by lia. exact H4. }
    2:{ rewrite (Hrd 5%nat) by lia. exact H5. }
    2:{ rewrite (Hrd 6%nat) by lia. exact H6. }
    2:{ rewrite (Hrd 7%nat) by lia. exact H7. }
    cbn [mbind result_bind].
    replace (wrap (Z.of_nat n + 4)) with (Z.of_nat (n + 4))
      by (rewrite size_wrap_small; lia).
    assert (D0 := decode_raw_lookup n inp c0 c1 H0 H1).
    assert (D1 := decode_raw_lookup (n + 1) inp c2 c3
                    ltac:(replace (2 * (n + 1))%nat with (2 * n + 2)%nat by lia; exact H2)
                    ltac:(replace (2 * (n + 1) + 1)%nat with (2 * n + 3)%nat by lia; exact H3)).
    assert (D2 := decode_raw_lookup (n + 2) inp c4 c5
                    ltac:(replace (2 * (n + 2))%nat with (2 * n + 4)%nat by lia; exact H4)
                    ltac:(replace (2 * (n + 2) + 1)%nat with (2 * n + 5)%nat by lia; exact H5)).
    assert (D3 := decode_raw_lookup (n + 3) inp c6 c7
                    ltac:(replace (2 * (n + 3))%nat with (2 * n + 6)%nat by lia; exact H6)
                    ltac:(replace (2 * (n + 3) + 1)%nat with (2 * n + 7)%nat by lia; exact H7)).
    assert (Hbl : (n + 4 <= length buf)%nat).
    { apply (f_equal length) in Hd. rewrite !length_drop in Hd. lia. }
    rewrite (IH fuel (n + 4)%nat); [|lia|lia| |].
    + do 2 f_equal.
      rewrite (drop_8 inp (2 * n) c0 c1 c2 c3 c4 c5 c6 c7) by assumption.
      rewrite existsb_app.
      replace (2 * (n + 4))%nat with (2 * n + 8)%nat by lia.
      destruct (existsb bad (drop (2 * n + 8) inp)),
        (existsb bad [c0; c1; c2; c3; c4; c5; c6; c7]), inv; reflexivity.
    + rewrite app_assoc, take_app_length'
        by (rewrite length_app, length_take; simpl; lia).
      rewrite Ht. symmetry. apply (take_4 _ n _ _ _ _ D0 D1 D2 D3).
    + rewrite app_assoc, drop_app_length'
        by (rewrite length_app, length_take; simpl; lia).
      rewrite <- !(drop_drop _ 4 n), Hd. reflexivity.
Qed.

Lemma from_hex_string_alias_raw buf (m : nat) :
  (2 * m <= length buf)%nat -> (m mod 4 = 0)%nat -> Z.of_nat m < 2 ^ 62 ->
  from_hex_string_alias buf (Z.of_nat (length buf)) (Z.of_nat (2 * m))
  = if existsb bad (take (2 * m) buf) then Fault InvalidArgument
    else Ok (decode_raw (take (2 * m) buf) ++ drop m buf, Z.of_nat m).
Proof.
  intros Hlen Hmod Hm. unfold from_hex_string_alias.
  assert (Hev : Z.of_nat (2 * m) mod 2 = 0).
  { replace (Z.of_nat (2 * m)) with (Z.of_nat m * 2) by lia. apply Z.mod_mul. lia. }
  rewrite Hev. cbn [Z.eqb negb]. rewrite half_length.
  destruct (Z.ltb_spec (Z.of_nat (length buf)) (Z.of_nat m)); [lia|].
  pose proof (Nat.div_mod_eq m 4) as Hdm.
  rewrite Nat2Z.id.
  change 0 with (Z.of_nat 0) at 1.
  rewrite (from_hex_loop4_alias_spec buf m Hlen Hm (m / 4) _ 0 buf false);
    [|lia|lia|reflexivity|reflexivity].
  cbn [mbind result_bind].
  assert (Hm4 : Z.of_nat m mod 4 = 0).
  { replace m with (m / 4 * 4)%nat by lia.
    rewrite Nat2Z.inj_mul. apply Z.mod_mul. lia. }
  rewrite Hm4, Z.sub_0_r, size_wrap_small by lia.
  cbn [from_hex_loop1_alias]. rewrite half_length.
  destruct (Z.ltb_spec (Z.of_nat m) (Z.of_nat m)); [lia|].
  cbn [mbind result_bind fst snd]. change (2 * 0)%nat with 0%nat.
  rewrite drop_0, orb_false_r.
  destruct (existsb bad (take (2 * m) buf)); reflexivity.
Qed.

(** *** Page sizes *)

Lemma first_large_small sizes :
  Forall (fun i => i < 1024 * 1024) sizes -> first_large sizes = 0.
Proof.
  induction 1 as [|i sizes Hi _ IH]; simpl; [reflexivity|].
  destruct (Z.leb_spec (1024 * 1024) i); [lia|exact IH].
Qed.

Lemma first_large_found pre x post :
  Forall (fun i => i < 1024 * 1024) pre -> 1024 * 1024 <= x ->
  first_large (pre ++ x :: post) = x.
Proof.
  intros Hpre Hx. induction Hpre as [|i pre Hi _ IH]; simpl.
  - destruct (Z.leb_spec (1024 * 1024) x); [reflexivity|lia].
  - destruct (Z.leb_spec (1024 * 1024) i); [lia|exact IH].
Qed.

Lemma first_large_range sizes : first_large sizes = 0 \/ 1024 * 1024 <= first_large sizes.
Proof.
  induction sizes as [|i sizes IH]; simpl; [left; reflexivity|].
  destruct (Z.leb_spec (1024 * 1024) i); [right; assumption|exact IH].
Qed.

Lemma choose_page_size_spec bytes skipped : forall x rest,
  0 <= bytes ->
  Forall (fun y => bytes < y) skipped ->
  rest = [] \/ 0 < x <= bytes ->
  choose_page_size bytes (skipped ++ x :: rest) = Ret x.
Proof.
  induction skipped as [|y skipped IH]; intros x rest Hb Hs Hx.
  - simpl. destruct rest as [|z rest]; [reflexivity|].
    destruct Hx as [Hx|Hx]; [discriminate|].
    destruct (Z.eqb_spec x 0); [lia|].
    assert (1 <= bytes / x) by (apply Z.div_le_lower_bound; lia).
    destruct (Z.eqb_spec (bytes / x) 0); [lia|reflexivity].
  - inversion Hs as [|? ? Hy Hs']; subst.
    cbn [app choose_page_size].
    destruct (skipped ++ x :: rest) as [|z l] eqn:E.
    { destruct skipped; discriminate. }
    destruct (Z.eqb_spec y 0); [lia|].
    rewrite Z.div_small by lia. cbn [Z.eqb].
    rewrite <- E. apply IH; assumption.
Qed.

Lemma testbit_above X n : 0 <= X < 2 ^ 64 -> 64 <= n -> Z.testbit X n = false.
Proof.
  intros HX Hn. destruct (decide (X = 0)) as [->|Hne]; [apply Z.bits_0|].
  apply Z.bits_above_log2; [lia|].
  assert (Z.log2 X < 64) by (apply Z.log2_lt_pow2; lia). lia.
Qed.

(** [x & ~(2^k - 1)] clears the low [k] bits. *)
Lemma land_mask X k :
  0 <= X < 2 ^ 64 -> 0 <= k <= 64 ->
  Z.land X (lnot64 (2 ^ k - 1)) = X - X mod 2 ^ k.
Proof.
  intros HX Hk.
  assert (HM : lnot64 (2 ^ k - 1) = Z.shiftl (Z.ones (64 - k)) k).
  { unfold lnot64. rewrite Z.shiftl_mul_pow2, Z.ones_equiv by lia.
    rewrite Z.mul_pred_l. rewrite <- Z.pow_add_r by lia.
    replace (64 - k + k) with 64 by lia. lia. }
  assert (HR : X - X mod 2 ^ k = Z.shiftl (Z.shiftr X k) k).
  { rewrite Z.shiftl_mul_pow2, Z.shiftr_div_pow2 by lia.
    pose proof (Z.div_mod X (2 ^ k) ltac:(pose proof (Z.pow_pos_nonneg 2 k); lia)). lia. }
  rewrite HM, HR. apply Z.bits_inj'. intros n Hn.
  rewrite Z.land_spec, !Z.shiftl_spec by lia.
  destruct (Z.lt_ge_cases n k) as [Hlt|Hge].
  - rewrite !(Z.testbit_neg_r _ (n - k)) by lia. apply andb_false_r.
  - rewrite Z.shiftr_spec by lia. replace (n - k + k) with n by lia.
    destruct (Z.lt_ge_cases n 64) as [H64|H64].
    + rewrite Z.ones_spec_low by lia. apply andb_true_r.
    + rewrite Z.ones_spec_high by lia. rewrite testbit_above by lia. reflexivity.
Qed.

Lemma max_size_lt sz n :
  1 <= sz -> 0 <= n -> (max_size sz <? n) = (2 ^ 64 <=? n * sz).
Proof.
  intros Hsz Hn. unfold max_size.
  pose proof (Z.div_mod (2 ^ 64 - 1) sz ltac:(lia)) as Hd.
  pose proof (Z.mod_pos_bound (2 ^ 64 - 1) sz ltac:(lia)) as Hr.
  destruct (Z.ltb_spec ((2 ^ 64 - 1) / sz) n), (Z.leb_spec (2 ^ 64) (n * sz));
    try reflexivity; exfalso; nia.
Qed.

(** *** Properties of the utilities *)

(** X7.  [to_hex_string] throws [invalid_argument] exactly when the
    output buffer is shorter than twice the input; otherwise, for two or
    more bytes of input, it writes the [2 * inlen] characters of the
    encoding at the front of the output buffer, leaves the rest of the
    buffer untouched, and returns [2 * inlen]. *)
Theorem to_hex_string_writes_prefix (out inp : list Z) :
  (2 <= length inp)%nat -> Z.of_nat (length inp) < 2 ^ 62 ->
  to_hex_string out (Z.of_nat (length out)) inp (Z.of_nat (length inp))
  = (if (length out <? 2 * length inp)%nat then Fault InvalidArgument
     else Ok (encode inp ++ drop (2 * length inp) out, Z.of_nat (length inp) * 2)).
Proof.
  intros H2 HL. destruct (Nat.ltb_spec (length out) (2 * length inp)) as [Hlt|Hge].
  - unfold to_hex_string. rewrite (size_wrap_small (Z.of_nat (length inp) * 2)) by lia.
    destruct (Z.ltb_spec (Z.of_nat (length out)) (Z.of_nat (length inp) * 2)); [|lia].
    reflexivity.
  - apply to_hex_string_ok; assumption.
Qed.

Lemma to_hex_string_writes_prefix_witness :
  to_hex_string [1; 2; 3; 4; 5; 6] (Z.of_nat 6) [18; 52] (Z.of_nat 2)
  = Ok ([50; 49; 52; 51; 5; 6], 4).
Proof.
  apply (to_hex_string_writes_prefix [1; 2; 3; 4; 5; 6] [18; 52]).
  - simpl. lia.
  - simpl. lia.
Defined.

(** X8.  "Out buffer can be same as in buffer": called with one buffer
    as both [out] and [in], [to_hex_string] replaces the first
    [2 * inlen] bytes of the buffer by the encoding of its first [inlen]
    bytes -- no byte is overwritten before it has been read -- and leaves
    the rest of the buffer untouched. *)
Theorem to_hex_string_in_place (buf : list Z) (inlen : nat) :
  (2 <= inlen)%nat -> Z.of_nat inlen < 2 ^ 62 -> (2 * inlen <= length buf)%nat ->
  to_hex_string_alias buf (Z.of_nat (length buf)) (Z.of_nat inlen)
  = Ok (encode (take inlen buf) ++ drop (2 * inlen) buf, Z.of_nat inlen * 2).
Proof. apply to_hex_string_alias_ok. Qed.

Lemma to_hex_string_in_place_witness :
  to_hex_string_alias [18; 52; 0; 0; 7] (Z.of_nat 5) (Z.of_nat 2)
  = Ok ([50; 49; 52; 51; 7], 4).
Proof.
  apply (to_hex_string_in_place [18; 52; 0; 0; 7] 2).
  - lia.
  - simpl. lia.
  - simpl. lia.
Defined.

(** X9.  [random_string(n)] for [n >= 2] returns the [2 n] characters
    that encode the [n] random bytes, all of them from [0-9a-f]; for
    [n < 2] the loop of [to_hex_string] starts from a wrapped-around
    index and reads outside of the string. *)
Theorem random_string_encodes_entropy (entropy : list Z) :
  Z.of_nat (length entropy) < 2 ^ 62 ->
  random_string entropy (Z.of_nat (length entropy))
  = (if (length entropy <? 2)%nat then Fault (OutOfBoundsRead (2 ^ 64 - 1))
     else Ok (encode entropy))
  /\ length (encode entropy) = (2 * length entropy)%nat
  /\ Forall (fun c => c ∈ table) (encode entropy).
Proof.
  intros HL. split; [|split; [apply encode_length|apply encode_in_table]].
  destruct (Nat.ltb_spec (length entropy) 2) as [Hlt|Hge].
  - destruct entropy as [|x [|y e]]; [| |simpl in Hlt; lia]; vm_compute; reflexivity.
  - unfold random_string, random_fill.
    rewrite (size_wrap_small (Z.of_nat (length entropy) * 2)) by lia.
    rewrite Nat2Z.id, take_ge by lia.
    set (ret := entropy ++ drop (length entropy)
                  (replicate (Z.to_nat (Z.of_nat (length entropy) * 2)) 0)).
    assert (Hret : length ret = (2 * length entropy)%nat).
    { subst ret. rewrite length_app, length_drop, length_replicate. lia. }
    replace (Z.of_nat (length entropy) * 2) with (Z.of_nat (length ret)) by lia.
    rewrite (to_hex_string_alias_ok ret (length entropy)) by lia.
    cbn [mbind result_bind fst].
    subst ret. rewrite take_app_length.
    rewrite drop_ge by (rewrite length_app, length_drop, length_replicate; lia).
    rewrite app_nil_r. reflexivity.
Qed.

Lemma random_string_encodes_entropy_witness :
  random_string demo_entropy (Z.of_nat (length demo_entropy))
  = Ok [101; 100; 100; 97; 101; 98; 102; 101].
Proof.
  apply (proj1 (random_string_encodes_entropy demo_entropy ltac:(simpl; lia))).
Defined.

(** X10.  On an input whose length is a multiple of eight,
    [from_hex_string] stays within its buffers; it throws
    [invalid_argument] exactly when some character is not one of [0-9],
    [a-f], [A-F], and otherwise returns the bytes the pairs of digits
    stand for, upper and lower case alike. *)
Theorem from_hex_string_validates (inp : list Z) :
  (length inp mod 8 = 0)%nat -> Z.of_nat (length inp) < 2 ^ 62 ->
  from_hex_string_s inp
  = (if forallb is_hex_char inp then Ok (decode inp) else Fault InvalidArgument).
Proof.
  intros Hmod HL.
  pose proof (Nat.div_mod_eq (length inp) 8) as Hd.
  rewrite (from_hex_string_s_raw inp (4 * (length inp / 8))); [|lia| |lia].
  2:{ rewrite Nat.mul_comm. apply Nat.Div0.mod_mul. }
  rewrite existsb_bad.
  destruct (forallb is_hex_char inp) eqn:E; [|reflexivity].
  cbn [negb]. rewrite (decode_raw_valid (length inp)); [reflexivity|lia|exact E].
Qed.

Lemma from_hex_string_validates_witness :
  from_hex_string_s [68; 101; 97; 68; 98; 69; 101; 70] = Ok [237; 218; 235; 254].
Proof.
  apply (from_hex_string_validates [68; 101; 97; 68; 98; 69; 101; 70]).
  - reflexivity.
  - simpl. lia.
Defined.

(** X11.  "Out buffer can be same as in buffer" holds for
    [from_hex_string] too: called with one buffer as both [out] and [in]
    on [inlen] characters, [inlen] a multiple of eight, it replaces the
    first [inlen / 2] bytes of the buffer by the decoded bytes -- no
    character is overwritten before it has been read -- and leaves the
    rest of the buffer untouched; it throws when a character of the input
    is not a hex digit. *)
Theorem from_hex_string_in_place (buf : list Z) (inlen : nat) :
  (inlen mod 8 = 0)%nat -> (inlen <= length buf)%nat -> Z.of_nat inlen < 2 ^ 62 ->
  from_hex_string_alias buf (Z.of_nat (length buf)) (Z.of_nat inlen)
  = (if forallb is_hex_char (take inlen buf)
     then Ok (decode (take inlen buf) ++ drop (inlen / 2) buf,
              Z.of_nat (inlen / 2))
     else Fault InvalidArgument).
Proof.
  intros Hmod Hlen HL.
  pose proof (Nat.div_mod_eq inlen 8) as Hd.
  assert (exists m, inlen = (2 * m)%nat /\ (m mod 4 = 0)%nat) as (m & -> & Hm4).
  { exists (4 * (inlen / 8))%nat. split; [lia|].
    rewrite Nat.mul_comm. apply Nat.Div0.mod_mul. }
  replace (2 * m / 2)%nat with m
    by (symmetry; rewrite Nat.mul_comm; apply Nat.div_mul; lia).
  rewrite (from_hex_string_alias_raw buf m) by (try assumption; lia).
  rewrite existsb_bad.
  destruct (forallb is_hex_char (take (2 * m) buf)) eqn:E; [|reflexivity].
  cbn [negb].
  rewrite (decode_raw_valid (length (take (2 * m) buf))); [reflexivity|lia|exact E].
Qed.

Lemma from_hex_string_in_place_witness :
  from_hex_string_alias [68; 101; 97; 68; 98; 69; 101; 70; 7] (Z.of_nat 9) (Z.of_nat 8)
  = Ok ([237; 218; 235; 254; 98; 69; 101; 70; 7], 4).
Proof.
  apply (from_hex_string_in_place [68; 101; 97; 68; 98; 69; 101; 70; 7] 8).
  - reflexivity.
  - simpl. lia.
  - simpl. lia.
Defined.

(** X12.  [file_buffer_default_size()] never returns less than 1 MiB: its
    first call returns the first page size of at least 1 MiB, or 1 MiB
    when there is none, and keeps that value; later calls return it
    whatever the page sizes then are. *)
Theorem file_buffer_default_size_caches (sizes : list Z) :
  exists size,
    file_buffer_default_size sizes 0 = (size, size)
    /\ 1024 * 1024 <= size
    /\ (forall pre x post, sizes = pre ++ x :: post ->
          Forall (fun i => i < 1024 * 1024) pre -> 1024 * 1024 <= x -> size = x)
    /\ (Forall (fun i => i < 1024 * 1024) sizes -> size = 1024 * 1024)
    /\ forall sizes', file_buffer_default_size sizes' size = (size, size).
Proof.
  unfold file_buffer_default_size. cbn [Z.eqb].
  destruct (first_large_range sizes) as [H0|Hbig].
  - rewrite H0. cbn [Z.eqb]. exists (1024 * 1024). split; [reflexivity|].
    split; [lia|]. split; [|split; [reflexivity|reflexivity]].
    intros pre x post -> Hpre Hx. rewrite first_large_found in H0 by assumption. lia.
  - exists (first_large sizes).
    destruct (Z.eqb_spec (first_large sizes) 0) as [E|_]; [lia|].
    split; [reflexivity|]. split; [exact Hbig|]. split; [|split].
    + intros pre x post -> Hpre Hx. apply first_large_found; assumption.
    + intros Hs. rewrite first_large_small in Hbig by exact Hs. lia.
    + intros sizes'. destruct (Z.eqb_spec (first_large sizes) 0); [lia|reflexivity].
Qed.

(** X13.  [calculate_large_page_allocation] scans the page sizes from
    the back and uses the first one that is not larger than [bytes]; when
    every page size is larger it uses the one at the front. *)
Theorem calculate_large_page_allocation_page_size
    (pre post : list Z) (x bytes : Z) :
  0 <= bytes ->
  Forall (fun y => bytes < y) post ->
  pre = [] \/ 0 < x <= bytes ->
  exists a, calculate_large_page_allocation (pre ++ x :: post) bytes = Ret a
            /\ page_size_used a = x /\ p a = None.
Proof.
  intros Hb Hpost Hx. unfold calculate_large_page_allocation.
  rewrite reverse_app, reverse_cons, <- app_assoc. cbn [app].
  rewrite (choose_page_size_spec bytes (reverse post) x (reverse pre) Hb).
  - cbn. eexists. split; [reflexivity|]. split; reflexivity.
  - apply Forall_reverse. exact Hpost.
  - destruct Hx as [->|Hx]; [left; reflexivity|right; exact Hx].
Qed.

Lemma calculate_large_page_allocation_page_size_witness :
  exists a, calculate_large_page_allocation ([4096] ++ 2097152 :: [1073741824]) 5000000
            = Ret a
            /\ page_size_used a = 2097152 /\ p a = None.
Proof.
  apply (calculate_large_page_allocation_page_size [4096] [1073741824] 2097152 5000000).
  - lia.
  - repeat constructor.
  - right. lia.
Defined.

(** X14.  When the page size used is a power of two,
    [calculate_large_page_allocation] rounds [bytes] up to the next
    multiple of the page size. *)
Theorem calculate_large_page_allocation_rounds_up
    (pagesizes : list Z) (bytes k : Z) (a : large_page_allocation) :
  calculate_large_page_allocation pagesizes bytes = Ret a ->
  page_size_used a = 2 ^ k -> 0 <= k < 64 ->
  0 <= bytes -> bytes + 2 ^ k <= 2 ^ 64 ->
  actual_size a mod 2 ^ k = 0
  /\ bytes <= actual_size a < bytes + 2 ^ k.
Proof.
  unfold calculate_large_page_allocation. intros Hc Hu Hk Hb Hfit.
  destruct (choose_page_size bytes (reverse pagesizes)) as [used|e]; [|discriminate].
  cbn in Hc. injection Hc as <-. cbn [page_size_used actual_size] in *. subst used.
  pose proof (Z.pow_pos_nonneg 2 k ltac:(lia) ltac:(lia)) as Hp.
  rewrite !size_wrap_small by lia.
  rewrite land_mask by lia.
  pose proof (Z.div_mod (bytes + 2 ^ k - 1) (2 ^ k) ltac:(lia)) as Hd.
  pose proof (Z.mod_pos_bound (bytes + 2 ^ k - 1) (2 ^ k) ltac:(lia)) as Hr.
  split; [|lia].
  replace (bytes + 2 ^ k - 1 - (bytes + 2 ^ k - 1) mod 2 ^ k)
    with ((bytes + 2 ^ k - 1) / 2 ^ k * 2 ^ k) by lia.
  apply Z.mod_mul. lia.
Qed.

Lemma calculate_large_page_allocation_rounds_up_witness :
  actual_size {| p := None; page_size_used := 2097152; actual_size := 6291456 |}
    mod 2 ^ 21 = 0
  /\ 5000000 <= actual_size {| p := None; page_size_used := 2097152;
                               actual_size := 6291456 |} < 5000000 + 2 ^ 21.
Proof.
  apply (calculate_large_page_allocation_rounds_up demo_pagesizes 5000000 21).
  - vm_compute. reflexivity.
  - reflexivity.
  - lia.
  - lia.
  - vm_compute. discriminate.
Defined.

(** X15.  [page_allocator<T>::allocate(n)] throws [bad_alloc] exactly
    when [n * sizeof(T)] does not fit in a [size_t] or the pages cannot be
    had; otherwise it asks for exactly [n * sizeof(T)] bytes -- the byte
    count it passes on never wraps around. *)
Theorem allocate_never_wraps
    (allocate_large_pages : Z -> large_page_allocation) (sizeof_T n : Z) :
  1 <= sizeof_T -> 0 <= n ->
  allocate allocate_large_pages sizeof_T n
  = (if 2 ^ 64 <=? n * sizeof_T then Trap BadAlloc
     else match p (allocate_large_pages (n * sizeof_T)) with
          | Some q => Ret q
          | None => Trap BadAlloc
          end).
Proof.
  intros Hsz Hn. unfold allocate. rewrite max_size_lt by assumption.
  destruct (Z.leb_spec (2 ^ 64) (n * sizeof_T)) as [Hbig|Hfit]; [reflexivity|].
  rewrite size_wrap_small by nia.
  destruct (p (allocate_large_pages (n * sizeof_T))); reflexivity.
Qed.

Lemma allocate_never_wraps_witness :
  allocate demo_allocator 8 (2 ^ 61) = Trap BadAlloc
  /\ allocate demo_allocator 8 100 = Ret 7%nat.
Proof.
  split.
  - apply (allocate_never_wraps demo_allocator 8 (2 ^ 61)); lia.
  - apply (allocate_never_wraps demo_allocator 8 100); lia.
Defined.

End UtilsTheory.

(** ** secded_ecc *)

Module SecdedTheory.
Import Secded.

(** *** Powers of two *)

Lemma popcount_pos_pos p : 1 <= popcount_pos p.
Proof. induction p; simpl; lia. Qed.

Lemma pow2_double x : 0 < x -> pow2 (2 * x) <-> pow2 x.
Proof.
  intros Hx. split; intros (m & Hm & E).
  - destruct (decide (m = 0)) as [->|Hne]; [simpl in E; lia|].
    exists (m - 1). split; [lia|].
    replace m with (Z.succ (m - 1)) in E by lia.
    rewrite Z.pow_succ_r in E by lia. lia.
  - exists (m + 1). split; [lia|]. rewrite Z.pow_add_r by lia. lia.
Qed.

Lemma pow2_odd x : 0 < x -> pow2 (2 * x + 1) -> False.
Proof.
  intros Hx (m & Hm & E).
  destruct (decide (m = 0)) as [->|Hne]; [simpl in E; lia|].
  replace m with (Z.succ (m - 1)) in E by lia.
  rewrite Z.pow_succ_r in E by lia. lia.
Qed.

Lemma single_bit_pos p : popcount_pos p = 1 <-> pow2 (Zpos p).
Proof.
  induction p as [p IH|p IH|].
  - simpl. pose proof (popcount_pos_pos p) as Hp. split; [lia|].
    intros H. exfalso. apply (pow2_odd (Zpos p)); [lia|].
    rewrite Pos2Z.inj_xI in H. exact H.
  - simpl. rewrite IH. rewrite Pos2Z.inj_xO. symmetry. apply pow2_double. lia.
  - simpl. split; [|reflexivity]. intros _. exists 0. split; [lia|reflexivity].
Qed.

Lemma single_bit_iff x : _is_single_bit_set x = true <-> pow2 x.
Proof.
  unfold _is_single_bit_set. rewrite Z.eqb_eq.
  destruct x as [|p|p]; simpl.
  - split; [lia|]. intros (m & Hm & E). pose proof (Z.pow_pos_nonneg 2 m). lia.
  - apply single_bit_pos.
  - split; [lia|]. intros (m & Hm & E). pose proof (Z.pow_pos_nonneg 2 m). lia.
Qed.

Lemma not_single_bit x : _is_single_bit_set x = false <-> ~ pow2 x.
Proof.
  rewrite <- single_bit_iff. destruct (_is_single_bit_set x); split; congruence.
Qed.


Lemma pow2_pos x : pow2 x -> 0 < x.
Proof. intros (m & Hm & ->). apply Z.pow_pos_nonneg; lia. Qed.

Lemma pow2_between m x : 0 <= m -> 2 ^ m < x < 2 ^ (m + 1) -> ~ pow2 x.
Proof.
  intros Hm [Hlo Hhi] (n & Hn & ->).
  apply Z.pow_lt_mono_r_iff in Hlo; [|lia|lia].
  apply Z.pow_lt_mono_r_iff in Hhi; [|lia|lia]. lia.
Qed.

Lemma pow2_succ x : pow2 x -> pow2 (x + 1) -> x = 1.
Proof.
  intros (m & Hm & ->) (n & Hn & E).
  destruct (decide (m = 0)) as [->|Hm0]; [reflexivity|].
  destruct (decide (n = 0)) as [->|Hn0].
  - pose proof (Z.pow_pos_nonneg 2 m). simpl in E. lia.
  - replace m with (Z.succ (m - 1)) in E by lia.
    replace n with (Z.succ (n - 1)) in E by lia.
    rewrite !Z.pow_succ_r in E by lia. lia.
Qed.

Lemma not_pow2_3 : ~ pow2 3.
Proof. intros H. apply (pow2_odd 1); [lia|exact H]. Qed.

(** *** Code positions *)

Lemma code_position_ge3 i t : code_position i t -> 3 <= t.
Proof.
  intros (Hpos & Hn & _).
  destruct (decide (t = 1)) as [->|H1];
    [exfalso; apply Hn; exists 0; split; [lia|reflexivity]|].
  destruct (decide (t = 2)) as [->|H2];
    [exfalso; apply Hn; exists 1; split; [lia|reflexivity]|].
  lia.
Qed.

Lemma count_mono a d : 0 < a -> 0 <= d -> a - Z.log2 a <= (a + d) - Z.log2 (a + d).
Proof.
  intros Ha Hd. revert d Hd. apply natlike_ind.
  - rewrite Z.add_0_r. lia.
  - intros d Hd IH. replace (a + Z.succ d) with (Z.succ (a + d)) by lia.
    pose proof (Z.log2_succ_le (a + d)). lia.
Qed.

Lemma code_position_step i t :
  code_position i t ->
  code_position (i + 1) (if _is_single_bit_set (t + 1) then t + 2 else t + 1).
Proof.
  intros Hc. pose proof (code_position_ge3 _ _ Hc) as H3.
  destruct Hc as (Hpos & Hn & Hf).
  destruct (_is_single_bit_set (t + 1)) eqn:Hs.
  - apply single_bit_iff in Hs. destruct Hs as (m & Hm & E).
    assert (2 <= m).
    { destruct (decide (m = 0)) as [->|]; [simpl in E; lia|].
      destruct (decide (m = 1)) as [->|]; [simpl in E; lia|]. lia. }
    assert (Hm1 : 2 ^ m = 2 * 2 ^ (m - 1)).
    { replace m with (Z.succ (m - 1)) at 1 by lia. rewrite Z.pow_succ_r by lia. lia. }
    assert (Hm2 : 2 ^ (m + 1) = 2 * 2 ^ m) by (rewrite Z.pow_add_r by lia; lia).
    pose proof (Z.pow_pos_nonneg 2 (m - 1)) as Hp.
    assert (Hlt : Z.log2 t = m - 1).
    { apply Z.log2_unique; [lia|]. replace (Z.succ (m - 1)) with m by lia. lia. }
    assert (Hlu : Z.log2 (t + 2) = m).
    { apply Z.log2_unique; [lia|]. replace (Z.succ m) with (m + 1) by lia. lia. }
    split; [lia|]. split; [|lia].
    apply (pow2_between m); lia.
  - apply not_single_bit in Hs.
    split; [lia|]. split; [exact Hs|].
    destruct (Z.log2_succ_or t) as [E|E].
    + exfalso. apply Z.log2_eq_succ_is_pow2 in E. destruct E as (b & E).
      apply Hs. exists b. split; [|lia].
      destruct (Z.neg_nonneg_cases b) as [Hb|Hb]; [|exact Hb].
      rewrite Z.pow_neg_r in E by exact Hb. lia.
    + replace (t + 1) with (Z.succ t) by lia. rewrite E. lia.
Qed.

Lemma code_position_0 : code_position 0 3.
Proof.
  split; [lia|]. split; [exact not_pow2_3|]. reflexivity.
Qed.

Lemma code_position_lt i j t u :
  code_position i t -> code_position j u -> i < j -> t < u.
Proof.
  intros (Ht & _ & Hf) (Hu & _ & Hg) Hij.
  destruct (Z.lt_ge_cases t u) as [H|H]; [exact H|].
  pose proof (count_mono u (t - u) Hu ltac:(lia)) as Hm.
  replace (u + (t - u)) with t in Hm by lia. lia.
Qed.

(** Each data bit has one code position. *)
Lemma code_position_inj i t u : code_position i t -> code_position i u -> t = u.
Proof.
  assert (Hlt : forall t u, code_position i t -> code_position i u -> t < u -> False).
  { clear t u. intros t u Ht Hu Hlt.
    pose proof (code_position_step _ _ Ht) as Hs.
    set (v := if _is_single_bit_set (t + 1) then t + 2 else t + 1) in Hs.
    assert (Hv : v <= u).
    { subst v. destruct (_is_single_bit_set (t + 1)) eqn:Hb; [|lia].
      apply single_bit_iff in Hb. destruct Hu as (_ & Hn & _).
      destruct (decide (u = t + 1)) as [->|]; [contradiction|lia]. }
    destruct Hs as (Hv0 & _ & Hf). destruct Hu as (_ & _ & Hg).
    pose proof (count_mono v (u - v) Hv0 ltac:(lia)) as Hm.
    replace (v + (u - v)) with u in Hm by lia. lia. }
  intros Ht Hu. destruct (Z.lt_trichotomy t u) as [H|[H|H]]; [|exact H|].
  - exfalso. exact (Hlt _ _ Ht Hu H).
  - exfalso. exact (Hlt _ _ Hu Ht H).
Qed.

Lemma code_position_bound i t : code_position i t -> 0 <= i -> i + 2 <= t <= i + 2 + Z.log2 t.
Proof. intros (Ht & _ & Hf) Hi. pose proof (Z.log2_nonneg t). lia. Qed.

(** The code position of a data bit stays below the power of two at
    which the code bit loop stops. *)
Lemma code_position_small i t k :
  code_position i t -> 1 <= k -> i + 1 + k < 2 ^ k -> t < 2 ^ k.
Proof.
  intros (Ht & Hn & Hf) Hk Hi.
  destruct (Z.lt_ge_cases t (2 ^ k)) as [H|H]; [exact H|exfalso].
  assert (t <> 2 ^ k) by (intros ->; apply Hn; exists k; split; [lia|reflexivity]).
  pose proof (Z.pow_pos_nonneg 2 k ltac:(lia) ltac:(lia)) as Hp.
  assert (Hk2 : 2 ^ (k + 1) = 2 * 2 ^ k) by (rewrite Z.pow_add_r by lia; lia).
  assert (2 <= 2 ^ k).
  { replace 2 with (2 ^ 1) at 1 by reflexivity. apply Z.pow_le_mono_r; lia. }
  assert (Hl : Z.log2 (2 ^ k + 1) = k).
  { apply Z.log2_unique; [lia|]. replace (Z.succ k) with (k + 1) by lia. lia. }
  pose proof (count_mono (2 ^ k + 1) (t - (2 ^ k + 1)) ltac:(lia) ltac:(lia)) as Hm.
  replace (2 ^ k + 1 + (t - (2 ^ k + 1))) with t in Hm by lia.
  rewrite Hl in Hm. lia.
Qed.

(** *** The constructor's tables *)

Lemma twospowers_pow : twospowers = map (Z.pow 2) (seqZ 0 32).
Proof. reflexivity. Qed.

Lemma wrap32_small z : 0 <= z < 2 ^ 32 -> wrap32 z = z.
Proof. intros H. unfold wrap32. apply Z.mod_small, H. Qed.

Lemma position_of_loop i k :
  0 <= i -> 0 <= k ->
  (forall q, 0 <= q < k -> 2 ^ q <= i + 1 + q) -> i + 1 + k < 2 ^ k ->
  code_position i (i + 1 + k).
Proof.
  intros Hi Hk Hq Hlt.
  assert (1 <= k) by (destruct (decide (k = 0)) as [->|]; [simpl in Hlt; lia|lia]).
  pose proof (Hq (k - 1) ltac:(lia)) as Hlo.
  assert (Hl : Z.log2 (i + 1 + k) = k - 1).
  { apply Z.log2_unique; [lia|]. replace (Z.succ (k - 1)) with k by lia. lia. }
  split; [lia|]. split; [|lia].
  apply (pow2_between (k - 1)); [lia|]. replace (k - 1 + 1) with k by lia. lia.
Qed.

Lemma code_bit_loop len : forall p i,
  0 <= i -> 0 <= p -> p + Z.of_nat len = 32 -> i + 33 < 2 ^ 31 ->
  (forall q, 0 <= q < p -> 2 ^ q <= i + 1 + q) ->
  exists k, p <= k < 32
    /\ code_bit p (map (Z.pow 2) (seqZ p (Z.of_nat len))) (i + 1 + p) = Val (i + 1 + k)
    /\ (forall q, 0 <= q < k -> 2 ^ q <= i + 1 + q) /\ i + 1 + k < 2 ^ k.
Proof.
  induction len as [|len IH]; intros p i Hi Hp Hlen Hb Hq.
  - exfalso. assert (p = 32) as -> by lia.
    pose proof (Hq 31 ltac:(lia)). lia.
  - rewrite Nat2Z.inj_succ, seqZ_cons by lia. cbn [map code_bit].
    rewrite Z.pred_succ.
    assert (Hpp : 2 ^ p <= 2 ^ 31) by (apply Z.pow_le_mono_r; lia).
    rewrite wrap32_small by lia.
    destruct (Z.ltb_spec (2 ^ p) (i + 1 + p + 1)) as [Hlt|Hge].
    + destruct (IH (p + 1) i Hi ltac:(lia) ltac:(lia) Hb) as (k & Hk & Hc & Hqk & Hkk).
      { intros q Hqr. destruct (decide (q = p)) as [->|]; [lia|]. apply Hq. lia. }
      exists k. split; [lia|]. split; [|split; assumption].
      replace (Z.succ p) with (p + 1) by lia.
      replace (i + 1 + p + 1) with (i + 1 + (p + 1)) by lia. exact Hc.
    + exists p. split; [lia|]. split; [reflexivity|]. split; [exact Hq|lia].
Qed.

(** The code bit loop finds the code position of data bit [i]. *)
Lemma code_bit_position i :
  0 <= i -> i + 33 < 2 ^ 31 ->
  exists t, code_bit 0 twospowers (wrap32 (i + 1)) = Val t /\ code_position i t.
Proof.
  intros Hi Hb.
  destruct (code_bit_loop 32 0 i Hi ltac:(lia) ltac:(lia) Hb) as (k & Hk & Hc & Hq & Hlt).
  { intros q Hq. lia. }
  exists (i + 1 + k). rewrite wrap32_small by lia. rewrite twospowers_pow.
  rewrite Z.add_0_r in Hc. split; [exact Hc|].
  apply position_of_loop; [lia|lia|exact Hq|exact Hlt].
Qed.


Lemma at_ok a l i x :
  0 <= i -> l !! Z.to_nat i = Some x -> at_ a l i = Val x.
Proof.
  intros Hi Hl. unfold at_. pose proof (lookup_lt_Some _ _ _ Hl).
  rewrite decide_True by lia. rewrite Hl. reflexivity.
Qed.

Lemma at_past a l i :
  ~ (0 <= i < Z.of_nat (length l)) -> at_ a l i = Stop (ReadPast a i).
Proof. intros H. unfold at_. rewrite decide_False by exact H. reflexivity. Qed.

Lemma twospowers_lookup p :
  0 <= p < 32 -> twospowers !! Z.to_nat p = Some (2 ^ p).
Proof.
  intros Hp. rewrite twospowers_pow, list_lookup_fmap.
  rewrite (proj2 (lookup_seqZ 0 32 (Z.to_nat p) p)) by lia. reflexivity.
Qed.

Lemma twospowers_at p : 0 <= p < 32 -> at_ Twos twospowers p = Val (2 ^ p).
Proof. intros Hp. apply at_ok; [lia|]. apply twospowers_lookup, Hp. Qed.

(** The number of parity bits: the least [p >= 1] with
    [length + p + 1 <= 2^p]. *)
Lemma find_bitsvalid_spec len : forall p length,
  0 <= length -> length + 33 < 2 ^ 31 -> 1 <= p -> p + Z.of_nat len = 32 ->
  (forall q, 1 <= q < p -> 2 ^ q < length + q + 1) ->
  exists v, p <= v < 32
    /\ find_bitsvalid twospowers length (seqZ p (Z.of_nat len)) = Val (Some v)
    /\ length + v + 1 <= 2 ^ v
    /\ (forall q, 1 <= q < v -> 2 ^ q < length + q + 1).
Proof.
  induction len as [|len IH]; intros p length Hl Hb Hp Hlen Hq.
  - exfalso. assert (p = 32) as -> by lia. pose proof (Hq 31 ltac:(lia)). lia.
  - rewrite Nat2Z.inj_succ, seqZ_cons by lia. cbn [find_bitsvalid].
    rewrite Z.pred_succ, twospowers_at by lia. cbn.
    rewrite wrap32_small by lia.
    destruct (Z.leb_spec (length + p + 1) (2 ^ p)) as [Hle|Hgt].
    + exists p. split; [lia|]. split; [reflexivity|]. split; [exact Hle|exact Hq].
    + destruct (IH (p + 1) length Hl Hb ltac:(lia) ltac:(lia)) as (v & Hv & Hf & Hle & Hmin).
      { intros q Hqr. destruct (decide (q = p)) as [->|]; [lia|]. apply Hq. lia. }
      exists v. split; [lia|]. split; [|split; assumption].
      replace (Z.succ p) with (p + 1) by lia. exact Hf.
Qed.

Lemma wrap16_small z : 0 <= z < 2 ^ 16 -> wrap16 z = z.
Proof. intros H. unfold wrap16. apply Z.mod_small, H. Qed.

(** The table the constructor fills holds the code positions of the data
    bits, in order. *)
Lemma fill_table_positions n : forall i l,
  0 <= i -> i + Z.of_nat n + 33 < 2 ^ 31 ->
  fill_table twospowers n i = Val l ->
  length l = n
  /\ forall j t, l !! j = Some t -> code_position (i + Z.of_nat j) t /\ t <= 65535.
Proof.
  induction n as [|n IH]; intros i l Hi Hb Hf.
  - simpl in Hf. injection Hf as <-. split; [reflexivity|]. intros j t Hj. discriminate.
  - cbn [fill_table] in Hf.
    destruct (code_bit_position i Hi ltac:(lia)) as (t0 & Hc & Hp).
    rewrite Hc in Hf. cbn in Hf.
    destruct (Z.ltb_spec 65535 t0) as [Hbig|Hfit]; [discriminate|].
    rewrite wrap32_small in Hf by lia.
    destruct (fill_table twospowers n (i + 1)) as [rest|e] eqn:Hr; [|discriminate].
    cbn in Hf. injection Hf as <-.
    destruct (IH (i + 1) rest ltac:(lia) ltac:(lia) Hr) as [Hlen Hall].
    pose proof (code_position_ge3 _ _ Hp).
    split; [simpl; lia|].
    intros [|j] t Hj; simpl in Hj.
    + injection Hj as <-. rewrite wrap16_small by lia.
      rewrite Z.add_0_r. split; [exact Hp|exact Hfit].
    + destruct (Hall j t Hj) as [Hcp Hle]. split; [|exact Hle].
      replace (i + Z.of_nat (S j)) with (i + 1 + Z.of_nat j) by lia. exact Hcp.
Qed.

Lemma fill_table_fits n : forall i,
  0 <= i -> i + Z.of_nat n + 33 < 2 ^ 31 ->
  (forall j t, 0 <= j < Z.of_nat n -> code_position (i + j) t -> t <= 65535) ->
  exists l, fill_table twospowers n i = Val l.
Proof.
  induction n as [|n IH]; intros i Hi Hb Hall.
  - exists []. reflexivity.
  - cbn [fill_table].
    destruct (code_bit_position i Hi ltac:(lia)) as (t0 & Hc & Hp).
    rewrite Hc. cbn.
    pose proof (Hall 0 t0 ltac:(lia)) as H0. rewrite Z.add_0_r in H0.
    specialize (H0 Hp).
    destruct (Z.ltb_spec 65535 t0) as [Hbig|Hfit]; [lia|].
    rewrite wrap32_small by lia.
    destruct (IH (i + 1) ltac:(lia) ltac:(lia)) as (rest & Hr).
    { intros j t Hj Hcp. apply (Hall (j + 1) t); [lia|].
      replace (i + (j + 1)) with (i + 1 + j) by lia. exact Hcp. }
    rewrite Hr. cbn. eexists. reflexivity.
Qed.

Lemma fill_table_overflow n : forall i j t,
  0 <= i -> 0 <= j < Z.of_nat n -> i + j + 33 < 2 ^ 31 ->
  code_position (i + j) t -> 65535 < t ->
  fill_table twospowers n i = Stop RuntimeError.
Proof.
  induction n as [|n IH]; intros i j t Hi Hj Hb Hcp Hbig; [lia|].
  cbn [fill_table].
  destruct (code_bit_position i Hi ltac:(lia)) as (t0 & Hc & Hp).
  rewrite Hc. cbn.
  destruct (Z.ltb_spec 65535 t0) as [Hbig0|Hfit]; [reflexivity|].
  rewrite wrap32_small by lia.
  assert (j <> 0).
  { intros ->. rewrite Z.add_0_r in Hcp.
    pose proof (code_position_inj _ _ _ Hp Hcp). lia. }
  rewrite (IH (i + 1) (j - 1) t); [reflexivity|lia|lia|lia| |exact Hbig].
  replace (i + 1 + (j - 1)) with (i + j) by lia. exact Hcp.
Qed.

Lemma code_position_65518 : code_position 65518 65535.
Proof.
  split; [lia|]. split; [|reflexivity].
  apply (pow2_between 15); [lia|]. simpl. lia.
Qed.

Lemma code_position_65519 : code_position 65519 65537.
Proof.
  split; [lia|]. split; [|reflexivity].
  apply (pow2_between 16); [lia|]. simpl. lia.
Qed.

(** What a constructed object holds. *)
Lemma secded_ecc_new_spec blocksize o :
  secded_ecc_new blocksize = Val o ->
  Z.of_nat blocksize <= 8189
  /\ ecc_twospowers o = twospowers
  /\ length (ecc_table o) = (blocksize * 8)%nat
  /\ (forall j t, ecc_table o !! j = Some t -> code_position (Z.of_nat j) t /\ t <= 65535)
  /\ 1 <= bitsvalid o < 32
  /\ Z.of_nat blocksize * 8 + bitsvalid o + 1 <= 2 ^ bitsvalid o
  /\ (forall q, 1 <= q < bitsvalid o -> 2 ^ q < Z.of_nat blocksize * 8 + q + 1).
Proof.
  unfold secded_ecc_new. intros H.
  destruct (find_bitsvalid twospowers (wrap32 (Z.of_nat blocksize * 8)) (seqZ 1 31))
    as [[v|]|e] eqn:Hv; cbn in H; try discriminate.
  destruct (4 <? (8 - 1 + v) / 8); [discriminate|].
  destruct (fill_table twospowers (blocksize * 8) 0) as [tbl|e] eqn:Ht; [|discriminate].
  cbn in H. injection H as <-. cbn [ecc_twospowers ecc_table bitsvalid].
  assert (Hsmall : Z.of_nat blocksize <= 8189).
  { destruct (Z.le_gt_cases (Z.of_nat blocksize) 8189) as [Hle|Hgt]; [exact Hle|exfalso].
    rewrite (fill_table_overflow _ 0 65519 65537) in Ht;
      [discriminate|lia|lia|lia|exact code_position_65519|lia]. }
  split; [exact Hsmall|]. split; [reflexivity|].
  destruct (fill_table_positions (blocksize * 8) 0 tbl ltac:(lia) ltac:(lia) Ht)
    as [Hlen Hall].
  split; [exact Hlen|]. split; [exact Hall|].
  rewrite wrap32_small in Hv by lia.
  destruct (find_bitsvalid_spec 31 1 (Z.of_nat blocksize * 8)
              ltac:(lia) ltac:(lia) ltac:(lia) ltac:(lia)) as (v' & Hr & Hf & Hle & Hmin).
  { intros q Hq. lia. }
  change (Z.of_nat 31) with 31 in Hf. rewrite Hv in Hf. injection Hf as <-.
  split; [lia|]. split; [exact Hle|exact Hmin].
Qed.

Lemma secded_ecc_new_fits blocksize :
  Z.of_nat blocksize <= 8189 -> exists o, secded_ecc_new blocksize = Val o.
Proof.
  intros Hb. unfold secded_ecc_new.
  rewrite wrap32_small by lia.
  destruct (find_bitsvalid_spec 31 1 (Z.of_nat blocksize * 8)
              ltac:(lia) ltac:(lia) ltac:(lia) ltac:(lia)) as (v & Hr & Hf & Hle & Hmin).
  { intros q Hq. lia. }
  change (Z.of_nat 31) with 31 in Hf. rewrite Hf. cbn.
  destruct (Z.ltb_spec 4 ((8 - 1 + v) / 8)) as [Hw|Hw].
  { exfalso. assert ((8 - 1 + v) / 8 < 5); [|lia].
    apply Z.div_lt_upper_bound; lia. }
  destruct (fill_table_fits (blocksize * 8) 0 ltac:(lia) ltac:(lia)) as (tbl & Ht).
  { intros j t Hj Hcp.
    pose proof (code_position_lt _ _ _ _ Hcp code_position_65518 ltac:(lia)). lia. }
  rewrite Ht. cbn. eexists. reflexivity.
Qed.


(** *** Finding the bad bit *)

(** The skipping loop stops after at most two turns. *)
Lemma skip_parity_total fuel b :
  (3 <= fuel)%nat -> 0 <= b < 2 ^ 32 ->
  exists b', skip_parity fuel b = Val b' /\ _is_single_bit_set b' = false
             /\ b <= b' <= b + 2.
Proof.
  intros Hf Hb.
  destruct fuel as [|[|[|fuel]]]; try lia. cbn [skip_parity].
  destruct (_is_single_bit_set b) eqn:H0; [|exists b; split; [reflexivity|split; [exact H0|lia]]].
  apply single_bit_iff in H0.
  assert (Hb1 : b + 1 < 2 ^ 32).
  { destruct (decide (b = 2 ^ 32 - 1)) as [->|]; [|lia].
    exfalso. revert H0. apply (pow2_between 31); [lia|]. simpl. lia. }
  rewrite wrap32_small by lia.
  destruct (_is_single_bit_set (b + 1)) eqn:H1;
    [|exists (b + 1); split; [reflexivity|split; [exact H1|lia]]].
  apply single_bit_iff in H1.
  pose proof (pow2_succ _ H0 H1) as ->. simpl.
  exists 3. split; [reflexivity|]. split; [reflexivity|lia].
Qed.

Lemma skip_parity_next i t :
  code_position i t -> t + 2 < 2 ^ 32 ->
  skip_parity 32 (t + 1)
  = Val (if _is_single_bit_set (t + 1) then t + 2 else t + 1).
Proof.
  intros Hc Hb. pose proof (code_position_ge3 _ _ Hc).
  change 32%nat with (S (S 30)). cbn [skip_parity].
  destruct (_is_single_bit_set (t + 1)) eqn:H1; [|reflexivity].
  rewrite wrap32_small by lia.
  replace (t + 1 + 1) with (t + 2) by lia.
  destruct (_is_single_bit_set (t + 2)) eqn:H2; [|reflexivity].
  apply single_bit_iff in H1, H2.
  replace (t + 2) with (t + 1 + 1) in H2 by lia.
  pose proof (pow2_succ _ H1 H2). lia.
Qed.

Lemma code_position_lt_2_31 i t :
  code_position i t -> 0 <= i -> i + 33 < 2 ^ 31 -> t < 2 ^ 31.
Proof. intros Hc Hi Hb. apply (code_position_small i t 31 Hc); lia. Qed.

Lemma find_loop_found n : forall i b t j d,
  0 <= i -> skip_parity 32 b = Val t -> code_position i t ->
  code_position j d -> i <= j < i + Z.of_nat n -> j + 33 < 2 ^ 31 ->
  find_loop n i b d = Val j.
Proof.
  induction n as [|n IH]; intros i b t j d Hi Hs Ht Hd Hj Hb; [lia|].
  cbn [find_loop]. rewrite Hs. cbn.
  pose proof (code_position_lt_2_31 _ _ Ht Hi ltac:(lia)) as Htb.
  pose proof (code_position_ge3 _ _ Ht) as Ht3.
  destruct (Z.eqb_spec t d) as [->|Hne].
  - f_equal. destruct (decide (i = j)) as [E|E]; [exact E|exfalso].
    pose proof (code_position_lt _ _ _ _ Ht Hd ltac:(lia)). lia.
  - assert (i <> j) by (intros ->; apply Hne; exact (code_position_inj _ _ _ Ht Hd)).
    rewrite !wrap32_small by lia.
    eapply (IH (i + 1) (t + 1) _ j d); [lia| | |exact Hd|lia|exact Hb].
    + apply (skip_parity_next i); [exact Ht|lia].
    + apply code_position_step, Ht.
Qed.

Lemma find_loop_absent n : forall i b t d,
  0 <= i -> skip_parity 32 b = Val t -> code_position i t ->
  (forall j, i <= j < i + Z.of_nat n -> ~ code_position j d) ->
  i + Z.of_nat n + 33 < 2 ^ 31 ->
  find_loop n i b d = Val (wrap32 (-1)).
Proof.
  induction n as [|n IH]; intros i b t d Hi Hs Ht Hno Hb; [reflexivity|].
  cbn [find_loop]. rewrite Hs. cbn.
  pose proof (code_position_lt_2_31 _ _ Ht Hi ltac:(lia)) as Htb.
  pose proof (code_position_ge3 _ _ Ht) as Ht3.
  destruct (Z.eqb_spec t d) as [->|Hne].
  - exfalso. apply (Hno i); [lia|exact Ht].
  - rewrite !wrap32_small by lia.
    eapply (IH (i + 1) (t + 1) _ d); [lia| | | |lia].
    + apply (skip_parity_next i); [exact Ht|lia].
    + apply code_position_step, Ht.
    + intros j Hj. apply Hno. lia.
Qed.

Lemma skip_parity_1 : skip_parity 32 1 = Val 3.
Proof. reflexivity. Qed.

Lemma lxor_cancel a d : Z.lxor a (Z.lxor a d) = d.
Proof. rewrite <- Z.lxor_assoc, Z.lxor_nilpotent, Z.lxor_0_l. reflexivity. Qed.

Lemma find_bad_bit_found blocksize good bad j :
  Z.of_nat blocksize <= 8189 ->
  0 <= j < Z.of_nat blocksize * 8 -> code_position j (Z.lxor good bad) ->
  find_bad_bit blocksize good bad = Val j.
Proof.
  intros Hb Hj Hd. unfold find_bad_bit.
  destruct Hd as (Hd0 & Hdn & Hdf).
  apply not_single_bit in Hdn. rewrite Hdn.
  rewrite wrap32_small by lia.
  apply (find_loop_found _ 0 1 3 j); [lia|exact skip_parity_1|exact code_position_0| |lia|lia].
  split; [exact Hd0|]. split; [apply not_single_bit, Hdn|exact Hdf].
Qed.

Lemma find_bad_bit_absent blocksize good bad :
  Z.of_nat blocksize <= 8189 ->
  (forall j, 0 <= j < Z.of_nat blocksize * 8 -> ~ code_position j (Z.lxor good bad)) ->
  find_bad_bit blocksize good bad = Val (wrap32 (-1)).
Proof.
  intros Hb Hno. unfold find_bad_bit.
  destruct (_is_single_bit_set (Z.lxor good bad)); [reflexivity|].
  rewrite wrap32_small by lia.
  apply (find_loop_absent _ 0 1 3); [lia|exact skip_parity_1|exact code_position_0| |lia].
  intros j Hj. apply Hno. lia.
Qed.


(** *** Sums of table entries *)

Lemma lxor_shuffle a b c d :
  Z.lxor (Z.lxor a b) (Z.lxor c d) = Z.lxor (Z.lxor a c) (Z.lxor b d).
Proof.
  rewrite !Z.lxor_assoc. f_equal.
  rewrite <- !Z.lxor_assoc. f_equal. apply Z.lxor_comm.
Qed.

Lemma xsum_app a b : xsum (a ++ b) = Z.lxor (xsum a) (xsum b).
Proof.
  induction a as [|x a IH]; simpl; [rewrite Z.lxor_0_l; reflexivity|].
  rewrite IH, Z.lxor_assoc. reflexivity.
Qed.

Lemma xsum_map_lxor {A} (F G : A -> Z) (K : list A) :
  xsum (map (fun k => Z.lxor (F k) (G k)) K)
  = Z.lxor (xsum (map F K)) (xsum (map G K)).
Proof.
  induction K as [|k K IH]; simpl; [reflexivity|].
  rewrite IH. apply lxor_shuffle.
Qed.

Lemma xsum_map_0 {A} (K : list A) : xsum (map (fun _ => 0) K) = 0.
Proof. induction K as [|k K IH]; simpl; [reflexivity|exact IH]. Qed.

(** Summing by rows or by columns gives the same. *)
Lemma xsum_exchange {A B} (F : A -> B -> Z) (K : list A) (N : list B) :
  xsum (map (fun n => xsum (map (fun k => F k n) K)) N)
  = xsum (map (fun k => xsum (map (fun n => F k n) N)) K).
Proof.
  induction N as [|n N IH]; simpl.
  - rewrite xsum_map_0. reflexivity.
  - rewrite IH. rewrite <- xsum_map_lxor. reflexivity.
Qed.

Lemma xor_if_lxor e b t : xor_if e b t = Z.lxor e (if b then t else 0).
Proof. destruct b; simpl; [reflexivity|rewrite Z.lxor_0_r; reflexivity]. Qed.

Lemma fold_zip_xsum {A} (P : Z -> bool) (g h : A -> Z) (ks : list A) : forall a,
  fold_left (fun e ct => xor_if e (P ct.1) ct.2) (zip (map g ks) (map h ks)) a
  = Z.lxor a (xsum (map (fun k => if P (g k) then h k else 0) ks)).
Proof.
  induction ks as [|k ks IH]; intros a; simpl.
  - rewrite Z.lxor_0_r. reflexivity.
  - rewrite IH, xor_if_lxor, Z.lxor_assoc. reflexivity.
Qed.

Lemma fold_zip_bits {A} (g : A -> bool) (h : A -> Z) (ks : list A) : forall a,
  fold_left (fun acc bt => xor_if acc bt.1 bt.2) (zip (map g ks) (map h ks)) a
  = Z.lxor a (xsum (map (fun k => if g k then h k else 0) ks)).
Proof.
  induction ks as [|k ks IH]; intros a; simpl.
  - rewrite Z.lxor_0_r. reflexivity.
  - rewrite IH, xor_if_lxor, Z.lxor_assoc. reflexivity.
Qed.

Lemma traverse_map {A B} (f : A -> res B) (g : A -> B) (l : list A) :
  (forall x, x ∈ l -> f x = Val (g x)) -> traverse f l = Val (map g l).
Proof.
  induction l as [|x l IH]; intros H; simpl; [reflexivity|].
  rewrite (H x) by left. cbn.
  rewrite IH by (intros y Hy; apply H; right; exact Hy). reflexivity.
Qed.

Lemma land_pow2 c n :
  0 <= n -> Z.land c (2 ^ n) = if Z.testbit c n then 2 ^ n else 0.
Proof.
  intros Hn. apply Z.bits_inj'. intros m Hm.
  rewrite Z.land_spec, Z.pow2_bits_eqb by exact Hn.
  destruct (Z.eqb_spec n m) as [->|Hne].
  - destruct (Z.testbit c m); simpl.
    + rewrite Z.pow2_bits_true by exact Hm. reflexivity.
    + rewrite Z.bits_0. reflexivity.
  - rewrite andb_false_r.
    destruct (Z.testbit c n).
    + rewrite Z.pow2_bits_false by lia. reflexivity.
    + rewrite Z.bits_0. reflexivity.
Qed.

Lemma bit_set_testbit c n : 0 <= n -> bit_set c n = Z.testbit c n.
Proof.
  intros Hn. unfold bit_set. rewrite Z.shiftl_1_l, land_pow2 by exact Hn.
  pose proof (Z.pow_pos_nonneg 2 n ltac:(lia) Hn).
  destruct (Z.testbit c n).
  - destruct (Z.eqb_spec (2 ^ n) 0); [lia|reflexivity].
  - reflexivity.
Qed.

Lemma entry_at o x :
  0 <= x < Z.of_nat (length (ecc_table o)) ->
  at_ Table (ecc_table o) x = Val (table_entry o x).
Proof.
  intros Hx. unfold table_entry.
  destruct (lookup_lt_is_Some_2 (ecc_table o) (Z.to_nat x) ltac:(lia)) as [t Ht].
  rewrite Ht. apply at_ok; [lia|exact Ht].
Qed.

Lemma byte_at buffer x :
  0 <= x < Z.of_nat (length buffer) ->
  at_ Buffer buffer x = Val (byte_of buffer x).
Proof.
  intros Hx. unfold byte_of.
  destruct (lookup_lt_is_Some_2 buffer (Z.to_nat x) ltac:(lia)) as [t Ht].
  rewrite Ht. apply at_ok; [lia|exact Ht].
Qed.

Lemma elem_of_seqZ_0_8 n : n ∈ seqZ 0 8 -> 0 <= n < 8.
Proof. intros H. apply elem_of_seqZ in H. lia. Qed.

Lemma byte_sum_0 o i : byte_sum o i 0 = 0.
Proof. reflexivity. Qed.

(** One byte of the variable length routine. *)
Lemma ecc_of_byte_spec o i c e :
  0 <= i -> (c = 0 \/ (i + 1) * 8 <= Z.of_nat (length (ecc_table o))) ->
  ecc_of_byte o i c e = Val (Z.lxor e (byte_sum o i c)).
Proof.
  intros Hi Hc. unfold ecc_of_byte.
  destruct (Z.eqb_spec c 0) as [->|Hne].
  - rewrite byte_sum_0, Z.lxor_0_r. reflexivity.
  - destruct Hc as [->|Ht]; [contradiction|].
    rewrite (traverse_map _ (fun n => table_entry o (i * 8 + n))).
    2:{ intros n Hn. apply elem_of_seqZ_0_8 in Hn. apply entry_at. lia. }
    cbn. rewrite fold_zip_bits, Z.lxor_0_l.
    do 2 f_equal. unfold byte_sum. f_equal.
    apply map_ext_in. intros n Hn. apply list_elem_of_In, elem_of_seqZ_0_8 in Hn.
    unfold term. rewrite bit_set_testbit by lia. reflexivity.
Qed.

Lemma range_sum_cons o buffer i n :
  0 < n ->
  range_sum o buffer i n
  = Z.lxor (byte_sum o i (byte_of buffer i)) (range_sum o buffer (i + 1) (n - 1)).
Proof.
  intros Hn. unfold range_sum. rewrite seqZ_cons by exact Hn. simpl.
  replace (Z.succ i) with (i + 1) by lia. replace (Z.pred n) with (n - 1) by lia.
  reflexivity.
Qed.

Lemma range_sum_app o buffer i n m :
  0 <= n -> 0 <= m ->
  range_sum o buffer i (n + m)
  = Z.lxor (range_sum o buffer i n) (range_sum o buffer (i + n) m).
Proof.
  intros Hn Hm. unfold range_sum. rewrite seqZ_app by lia.
  rewrite map_app, xsum_app. reflexivity.
Qed.

(** The variable length loop adds the sum of the bytes it runs over. *)
Lemma ecc_bytes_spec o buffer n : forall i e,
  0 <= i -> i + Z.of_nat n <= Z.of_nat (length buffer) ->
  (i + Z.of_nat n) * 8 <= Z.of_nat (length (ecc_table o)) ->
  ecc_bytes o buffer n i e = Val (Z.lxor e (range_sum o buffer i (Z.of_nat n))).
Proof.
  induction n as [|n IH]; intros i e Hi Hb Ht.
  - simpl. unfold range_sum. simpl. rewrite Z.lxor_0_r. reflexivity.
  - cbn [ecc_bytes]. rewrite byte_at by lia. cbn.
    rewrite ecc_of_byte_spec by (try right; lia). cbn.
    rewrite IH by lia. rewrite (range_sum_cons o buffer i (Z.of_nat (S n))) by lia.
    rewrite Z.lxor_assoc. do 4 f_equal. lia.
Qed.

(** One round of the fixed size routine. *)
Lemma round_spec o buffer i e n :
  0 <= i -> 0 <= n < 8 -> (i + 8) * 8 <= Z.of_nat (length (ecc_table o)) ->
  round o i (map (fun k => byte_of buffer (i + k)) (seqZ 0 8)) e n
  = Val (Z.lxor e
      (xsum (map (fun k => term o (byte_of buffer (i + k)) (i + k) n) (seqZ 0 8)))).
Proof.
  intros Hi Hn Ht. unfold round.
  rewrite (traverse_map _ (fun k => table_entry o ((i + k) * 8 + n))).
  2:{ intros k Hk. apply elem_of_seqZ_0_8 in Hk. apply entry_at. lia. }
  cbn.
  rewrite (fold_zip_xsum (fun c => bit_set c n)).
  do 3 f_equal. apply map_ext_in. intros k Hk.
  unfold term. rewrite bit_set_testbit by lia. reflexivity.
Qed.

Lemma rounds_spec o buffer i ns : forall e,
  0 <= i -> (forall n, n ∈ ns -> 0 <= n < 8) ->
  (i + 8) * 8 <= Z.of_nat (length (ecc_table o)) ->
  rounds o i (map (fun k => byte_of buffer (i + k)) (seqZ 0 8)) ns e
  = Val (Z.lxor e
      (xsum (map (fun n =>
         xsum (map (fun k => term o (byte_of buffer (i + k)) (i + k) n) (seqZ 0 8)))
       ns))).
Proof.
  induction ns as [|n ns IH]; intros e Hi Hns Ht.
  - simpl. rewrite Z.lxor_0_r. reflexivity.
  - cbn [rounds].
    assert (Hn : 0 <= n < 8) by (apply Hns; left).
    rewrite round_spec by lia. cbn.
    rewrite IH; [|lia|intros m Hm; apply Hns; right; exact Hm|lia].
    cbn [map xsum foldr]. rewrite Z.lxor_assoc. reflexivity.
Qed.

(** One lump of the fixed size routine adds what the variable length
    routine adds for its eight bytes. *)
Lemma lump_spec o buffer i e :
  0 <= i -> i + 8 <= Z.of_nat (length buffer) ->
  (i + 8) * 8 <= Z.of_nat (length (ecc_table o)) ->
  lump o buffer i e = Val (Z.lxor e (range_sum o buffer i 8)).
Proof.
  intros Hi Hb Ht. unfold lump.
  rewrite (traverse_map _ (fun k => byte_of buffer (i + k))).
  2:{ intros k Hk. apply elem_of_seqZ_0_8 in Hk. apply byte_at. lia. }
  cbn [mbind res_bind].
  rewrite rounds_spec; [|lia|apply elem_of_seqZ_0_8|lia].
  do 2 f_equal.
  rewrite (xsum_exchange
    (fun k n => term o (byte_of buffer (i + k)) (i + k) n) (seqZ 0 8) (seqZ 0 8)).
  unfold range_sum.
  replace (seqZ i 8) with (map (fun k => i + k) (seqZ 0 8)).
  2:{ change (seqZ 0 8) with [0;1;2;3;4;5;6;7].
      rewrite !seqZ_cons by lia. simpl. rewrite seqZ_nil by lia.
      repeat (f_equal; try lia). }
  rewrite map_map. reflexivity.
Qed.

Lemma lumps_spec o buffer n : forall i e,
  0 <= i -> i + 8 * Z.of_nat n <= Z.of_nat (length buffer) ->
  (i + 8 * Z.of_nat n) * 8 <= Z.of_nat (length (ecc_table o)) ->
  lumps o buffer n i e = Val (Z.lxor e (range_sum o buffer i (8 * Z.of_nat n))).
Proof.
  induction n as [|n IH]; intros i e Hi Hb Ht.
  - simpl. unfold range_sum. simpl. rewrite Z.lxor_0_r. reflexivity.
  - cbn [lumps]. rewrite lump_spec by lia. cbn.
    rewrite IH by lia.
    replace (8 * Z.of_nat (S n)) with (8 + 8 * Z.of_nat n) by lia.
    rewrite range_sum_app by lia. rewrite Z.lxor_assoc. reflexivity.
Qed.


(** *** The two routines *)

Lemma ecc_partial_spec o e buffer n :
  (n <= length buffer)%nat ->
  Z.of_nat n * 8 <= Z.of_nat (length (ecc_table o)) ->
  ecc_partial o e buffer n = Val (Z.lxor e (range_sum o buffer 0 (Z.of_nat n))).
Proof. intros Hb Ht. unfold ecc_partial. apply ecc_bytes_spec; lia. Qed.

Lemma ecc_block_spec o blocksize e buffer :
  length buffer = blocksize ->
  length (ecc_table o) = (blocksize * 8)%nat ->
  Z.of_nat blocksize < 8 \/ Z.of_nat blocksize mod 8 = 0 ->
  ecc_block o blocksize e buffer
  = Val (Z.lxor e (range_sum o buffer 0 (Z.of_nat blocksize))).
Proof.
  intros Hb Ht Hm. unfold ecc_block.
  destruct (Z.ltb_spec (Z.of_nat blocksize) 8) as [Hlt|Hge].
  - apply ecc_partial_spec; lia.
  - destruct Hm as [Hm|Hm]; [lia|].
    pose proof (Z.div_mod (Z.of_nat blocksize) 8 ltac:(lia)) as Hd.
    rewrite Hm, Z.add_0_r in Hd.
    assert (Hq : (Z.of_nat blocksize + 7) / 8 = Z.of_nat blocksize / 8).
    { rewrite Hd at 1. rewrite Z.mul_comm, Z.div_add_l by lia.
      rewrite (Z.div_small 7 8) by lia. lia. }
    rewrite Hq.
    pose proof (Z.div_pos (Z.of_nat blocksize) 8 ltac:(lia) ltac:(lia)).
    rewrite lumps_spec by lia.
    rewrite Z2Nat.id by lia. rewrite <- Hd. reflexivity.
Qed.

Lemma traverse_stop {A B} (f : A -> res B) (g : A -> B) l1 x l2 e :
  (forall y, y ∈ l1 -> f y = Val (g y)) -> f x = Stop e ->
  traverse f (l1 ++ x :: l2) = Stop e.
Proof.
  induction l1 as [|y l1 IH]; intros H Hx; simpl.
  - rewrite Hx. reflexivity.
  - rewrite (H y) by left. cbn.
    rewrite IH; [reflexivity| |exact Hx]. intros z Hz. apply H. right. exact Hz.
Qed.

Lemma lumps_app o buffer n m : forall i e,
  lumps o buffer (n + m) i e
  = (e' ← lumps o buffer n i e; lumps o buffer m (i + 8 * Z.of_nat n) e').
Proof.
  induction n as [|n IH]; intros i e.
  - simpl. rewrite Z.add_0_r. reflexivity.
  - cbn [Nat.add lumps].
    destruct (lump o buffer i e) as [e1|err]; cbn; [|reflexivity].
    rewrite IH.
    replace (i + 8 + 8 * Z.of_nat n) with (i + 8 * Z.of_nat (S n)) by lia.
    reflexivity.
Qed.


Lemma ecc_block_past o blocksize e buffer :
  length buffer = blocksize ->
  length (ecc_table o) = (blocksize * 8)%nat ->
  8 <= Z.of_nat blocksize -> Z.of_nat blocksize mod 8 <> 0 ->
  ecc_block o blocksize e buffer = Stop (ReadPast Buffer (Z.of_nat blocksize)).
Proof.
  intros Hb Ht Hge Hm. unfold ecc_block.
  destruct (Z.ltb_spec (Z.of_nat blocksize) 8) as [Hlt|_]; [lia|].
  pose proof (Z.div_mod (Z.of_nat blocksize) 8 ltac:(lia)) as Hd.
  pose proof (Z.mod_pos_bound (Z.of_nat blocksize) 8 ltac:(lia)) as Hr.
  set (q := Z.of_nat blocksize / 8) in *. set (r := Z.of_nat blocksize mod 8) in *.
  assert (Hq0 : 0 <= q) by (apply Z.div_pos; lia).
  assert (Hn : (Z.of_nat blocksize + 7) / 8 = q + 1).
  { symmetry. apply (Z.div_unique _ _ _ (r - 1)); lia. }
  rewrite Hn. replace (Z.to_nat (q + 1)) with (Z.to_nat q + 1)%nat by lia.
  rewrite lumps_app.
  rewrite lumps_spec by lia. cbn [mbind res_bind lumps].
  unfold lump.
  replace (seqZ 0 8) with (seqZ 0 r ++ r :: seqZ (r + 1) (7 - r)).
  2:{ symmetry. transitivity (seqZ 0 (r + (8 - r))); [f_equal; lia|].
      rewrite (seqZ_app 0 r (8 - r)) by lia.
      f_equal. rewrite (seqZ_cons (0 + r)) by lia.
      replace (0 + r) with r by lia. replace (Z.succ r) with (r + 1) by lia.
      replace (Z.pred (8 - r)) with (7 - r) by lia. reflexivity. }
  rewrite (traverse_stop _ (fun k => byte_of buffer (0 + 8 * Z.of_nat (Z.to_nat q) + k))
             _ _ _ (ReadPast Buffer (Z.of_nat blocksize))).
  - reflexivity.
  - intros k Hk. apply elem_of_seqZ in Hk. apply byte_at. lia.
  - replace (0 + 8 * Z.of_nat (Z.to_nat q) + r) with (Z.of_nat blocksize) by lia.
    apply at_past. lia.
Qed.

(** The starting value is xored into the result, and nothing else. *)
Lemma ecc_of_byte_from_0 o i c e :
  ecc_of_byte o i c e = (l ← ecc_of_byte o i c 0; Val (Z.lxor e l)).
Proof.
  unfold ecc_of_byte. destruct (c =? 0).
  - cbn. rewrite Z.lxor_0_r. reflexivity.
  - destruct (traverse _ _) as [p|err]; cbn; [|reflexivity].
    rewrite Z.lxor_0_l. reflexivity.
Qed.

Lemma ecc_bytes_from_0 o buffer n : forall i e,
  ecc_bytes o buffer n i e = (r ← ecc_bytes o buffer n i 0; Val (Z.lxor e r)).
Proof.
  induction n as [|n IH]; intros i e.
  - cbn. rewrite Z.lxor_0_r. reflexivity.
  - cbn [ecc_bytes].
    destruct (at_ Buffer buffer i) as [c|err]; cbn; [|reflexivity].
    rewrite (ecc_of_byte_from_0 o i c e).
    destruct (ecc_of_byte o i c 0) as [l|err]; cbn; [|reflexivity].
    rewrite (IH (i + 1) (Z.lxor e l)), (IH (i + 1) l).
    destruct (ecc_bytes o buffer n (i + 1) 0) as [r|err]; cbn; [|reflexivity].
    rewrite Z.lxor_assoc. reflexivity.
Qed.

(** *** Inverting one bit *)

Lemma xsum_single m (E : Z -> Z) :
  0 <= m < 8 ->
  xsum (map (fun n => if n =? m then E n else 0) (seqZ 0 8)) = E m.
Proof.
  intros Hm.
  assert (m = 0 \/ m = 1 \/ m = 2 \/ m = 3 \/ m = 4 \/ m = 5 \/ m = 6 \/ m = 7)
    as [->|[->|[->|[->|[->|[->|[->| ->]]]]]]] by lia;
    change (seqZ 0 8) with [0;1;2;3;4;5;6;7]; unfold xsum; simpl;
    rewrite ?Z.lxor_0_r, ?Z.lxor_0_l; reflexivity.
Qed.

Lemma term_toggle o c x m n :
  0 <= m -> 0 <= n ->
  term o (Z.lxor c (2 ^ m)) x n
  = Z.lxor (term o c x n) (if n =? m then table_entry o (x * 8 + n) else 0).
Proof.
  intros Hm Hn. unfold term.
  rewrite Z.lxor_spec, Z.pow2_bits_eqb by exact Hm.
  rewrite (Z.eqb_sym m n).
  destruct (Z.testbit c n), (n =? m); cbn;
    rewrite ?Z.lxor_0_r, ?Z.lxor_0_l, ?Z.lxor_nilpotent; reflexivity.
Qed.

Lemma byte_sum_toggle o x c m :
  0 <= m < 8 ->
  byte_sum o x (Z.lxor c (2 ^ m)) = Z.lxor (byte_sum o x c) (table_entry o (x * 8 + m)).
Proof.
  intros Hm. unfold byte_sum.
  rewrite <- (xsum_single m (fun n => table_entry o (x * 8 + n))) by exact Hm.
  rewrite <- xsum_map_lxor. f_equal.
  apply map_ext_in. intros n Hn. apply list_elem_of_In, elem_of_seqZ_0_8 in Hn.
  apply term_toggle; lia.
Qed.

Lemma toggled_insert j buffer c :
  buffer !! Z.to_nat (j / 8) = Some c ->
  toggled j buffer = <[Z.to_nat (j / 8) := Z.lxor c (2 ^ (j mod 8))]> buffer.
Proof. intros H. unfold toggled. rewrite H. reflexivity. Qed.

Lemma toggled_length j buffer : length (toggled j buffer) = length buffer.
Proof.
  unfold toggled. destruct (buffer !! Z.to_nat (j / 8)); [|reflexivity].
  apply length_insert.
Qed.

Lemma byte_of_toggled_eq j buffer :
  0 <= j -> j / 8 < Z.of_nat (length buffer) ->
  byte_of (toggled j buffer) (j / 8)
  = Z.lxor (byte_of buffer (j / 8)) (2 ^ (j mod 8)).
Proof.
  intros Hj Hb. unfold byte_of.
  pose proof (Z.div_pos j 8 Hj ltac:(lia)) as Hq.
  destruct (lookup_lt_is_Some_2 buffer (Z.to_nat (j / 8)) ltac:(lia)) as [c Hc].
  rewrite (toggled_insert _ _ _ Hc), Hc.
  rewrite list_lookup_insert_eq by lia. reflexivity.
Qed.

Lemma byte_of_toggled_ne j buffer x :
  0 <= j -> 0 <= x -> x <> j / 8 ->
  byte_of (toggled j buffer) x = byte_of buffer x.
Proof.
  intros Hj Hx Hne. unfold byte_of, toggled.
  destruct (buffer !! Z.to_nat (j / 8)) as [c|]; [|reflexivity].
  rewrite list_lookup_insert_ne; [reflexivity|].
  pose proof (Z.div_pos j 8 Hj ltac:(lia)). lia.
Qed.

Lemma range_sum_ext o b1 b2 i n :
  (forall x, i <= x < i + n -> byte_of b1 x = byte_of b2 x) ->
  range_sum o b1 i n = range_sum o b2 i n.
Proof.
  intros H. unfold range_sum. f_equal. apply map_ext_in.
  intros x Hx. apply list_elem_of_In, elem_of_seqZ in Hx. rewrite H by lia. reflexivity.
Qed.

(** Inverting bit [j] of the buffer changes the sum by the table entry of [j]. *)
Lemma range_sum_toggled o buffer j n :
  0 <= j < n * 8 -> n <= Z.of_nat (length buffer) ->
  range_sum o (toggled j buffer) 0 n
  = Z.lxor (range_sum o buffer 0 n) (table_entry o j).
Proof.
  intros Hj Hn.
  pose proof (Z.div_mod j 8 ltac:(lia)) as Hd.
  pose proof (Z.mod_pos_bound j 8 ltac:(lia)) as Hr.
  assert (Hq : 0 <= j / 8 < n).
  { split; [apply Z.div_pos; lia|]. apply Z.div_lt_upper_bound; lia. }
  set (q := j / 8) in *.
  replace n with (q + (1 + (n - q - 1))) by lia.
  rewrite !(range_sum_app _ _ 0 q) by lia.
  rewrite !(range_sum_app _ _ (0 + q) 1) by lia.
  rewrite (range_sum_ext o (toggled j buffer) buffer 0 q).
  2:{ intros x Hx. apply byte_of_toggled_ne; lia. }
  rewrite (range_sum_ext o (toggled j buffer) buffer (0 + q + 1)).
  2:{ intros x Hx. apply byte_of_toggled_ne; lia. }
  assert (H1 : forall b, range_sum o b (0 + q) 1 = byte_sum o q (byte_of b q)).
  { intros b. unfold range_sum. rewrite seqZ_cons by lia.
    change (Z.pred 1) with 0. rewrite seqZ_nil by lia. simpl.
    rewrite Z.lxor_0_r, Z.add_0_l. reflexivity. }
  rewrite !H1. subst q. rewrite byte_of_toggled_eq by lia.
  rewrite byte_sum_toggle by exact Hr.
  replace (j / 8 * 8 + j mod 8) with j by lia.
  set (A := range_sum o buffer 0 (j / 8)).
  set (Bs := byte_sum o (j / 8) (byte_of buffer (j / 8))).
  set (C := range_sum o buffer (0 + j / 8 + 1) (n - j / 8 - 1)).
  set (E := table_entry o j).
  rewrite !Z.lxor_assoc. f_equal. f_equal. apply Z.lxor_comm.
Qed.

Lemma toggled_toggled j buffer : toggled j (toggled j buffer) = buffer.
Proof.
  unfold toggled at 2.
  destruct (buffer !! Z.to_nat (j / 8)) as [c|] eqn:Hc.
  - pose proof (lookup_lt_Some _ _ _ Hc) as Hlt.
    rewrite (toggled_insert j _ (Z.lxor c (2 ^ (j mod 8)))).
    + rewrite list_insert_insert_eq.
      rewrite Z.lxor_assoc, Z.lxor_nilpotent, Z.lxor_0_r.
      apply list_insert_id, Hc.
    + apply list_lookup_insert_eq. exact Hlt.
  - unfold toggled. rewrite Hc. reflexivity.
Qed.


(** *** Verifying and healing *)

Lemma flip_toggled o buffer j :
  ecc_twospowers o = twospowers ->
  0 <= j -> j / 8 < Z.of_nat (length buffer) ->
  flip o buffer j = Val (toggled j buffer).
Proof.
  intros Ho Hj Hb. unfold flip.
  pose proof (Z.mod_pos_bound j 8 ltac:(lia)) as Hr.
  pose proof (Z.div_pos j 8 Hj ltac:(lia)) as Hq.
  rewrite Ho, twospowers_at by lia. cbn.
  destruct (lookup_lt_is_Some_2 buffer (Z.to_nat (j / 8)) ltac:(lia)) as [c Hc].
  rewrite (at_ok Buffer buffer (j / 8) c) by (try lia; exact Hc). cbn.
  rewrite (toggled_insert _ _ _ Hc).
  rewrite (Z.mod_small (2 ^ (j mod 8))); [reflexivity|].
  split; [apply Z.pow_nonneg; lia|]. apply Z.pow_lt_mono_r; lia.
Qed.

Lemma entry_lookup o j t :
  ecc_table o !! j = Some t -> table_entry o (Z.of_nat j) = t.
Proof. intros H. unfold table_entry. rewrite Nat2Z.id, H. reflexivity. Qed.

(** When the ECC of the buffer differs from the good one by the table
    entry of data bit [j], [verify] inverts bit [j] and reports [healed]. *)
Lemma verify_inverts o blocksize buffer good j t :
  secded_ecc_new blocksize = Val o ->
  Z.of_nat blocksize < 8 \/ Z.of_nat blocksize mod 8 = 0 ->
  length buffer = blocksize ->
  ecc_table o !! j = Some t ->
  ecc_block o blocksize 0 buffer = Val (Z.lxor good t) ->
  verify o blocksize buffer good = Val (healed, toggled (Z.of_nat j) buffer).
Proof.
  intros Hnew Hm Hlen Ht He.
  destruct (secded_ecc_new_spec _ _ Hnew) as (Hb & Htw & Htl & Hpos & _).
  destruct (Hpos j t Ht) as [Hcp Hfit].
  pose proof (lookup_lt_Some _ _ _ Ht) as Hj. rewrite Htl in Hj.
  pose proof (code_position_ge3 _ _ Hcp) as H3.
  unfold verify. rewrite He. cbn.
  destruct (Z.eqb_spec (Z.lxor good t) good) as [E|_].
  { exfalso. pose proof (lxor_cancel good t) as Hc. rewrite E in Hc.
    rewrite Z.lxor_nilpotent in Hc. lia. }
  rewrite (find_bad_bit_found blocksize good (Z.lxor good t) (Z.of_nat j));
    [|exact Hb|lia|rewrite lxor_cancel; exact Hcp].
  cbn.
  destruct (Z.eqb_spec (wrap32 (-1)) (Z.of_nat j)) as [E|_].
  { exfalso. change (wrap32 (-1)) with 4294967295 in E. lia. }
  assert (Hq : Z.of_nat j / 8 < Z.of_nat (length buffer)).
  { apply Z.div_lt_upper_bound; lia. }
  rewrite flip_toggled by (try exact Htw; lia). cbn.
  rewrite ecc_block_spec; [|rewrite toggled_length; exact Hlen|exact Htl|exact Hm].
  rewrite range_sum_toggled by lia.
  rewrite ecc_block_spec in He by assumption. injection He as He.
  rewrite Z.lxor_0_l in He. rewrite Z.lxor_0_l, He.
  rewrite (entry_lookup _ _ _ Ht).
  rewrite Z.lxor_assoc, Z.lxor_nilpotent, Z.lxor_0_r. cbn.
  rewrite Z.eqb_refl. reflexivity.
Qed.

Lemma verify_okay o blocksize buffer good :
  ecc_block o blocksize 0 buffer = Val good ->
  verify o blocksize buffer good = Val (okay, buffer).
Proof. intros He. unfold verify. rewrite He. cbn. rewrite Z.eqb_refl. reflexivity. Qed.

(** *** The width of the ECC *)

Lemma lxor_bound v a b :
  0 <= v -> 0 <= a < 2 ^ v -> 0 <= b < 2 ^ v -> 0 <= Z.lxor a b < 2 ^ v.
Proof.
  intros Hv Ha Hb.
  assert (Hn : 0 <= Z.lxor a b) by (apply Z.lxor_nonneg; lia).
  split; [exact Hn|].
  destruct (decide (Z.lxor a b = 0)) as [->|Hne]; [lia|].
  assert (0 < v).
  { destruct (decide (v = 0)) as [->|]; [|lia]. exfalso. apply Hne.
    assert (a = 0) as -> by (simpl in Ha; lia).
    assert (b = 0) as -> by (simpl in Hb; lia). reflexivity. }
  apply Z.log2_lt_pow2; [lia|].
  pose proof (Z.log2_lxor a b ltac:(lia) ltac:(lia)) as Hl.
  assert (Hla : Z.log2 a < v).
  { destruct (decide (a = 0)) as [->|]; [simpl; lia|]. apply Z.log2_lt_pow2; lia. }
  assert (Hlb : Z.log2 b < v).
  { destruct (decide (b = 0)) as [->|]; [simpl; lia|]. apply Z.log2_lt_pow2; lia. }
  lia.
Qed.

Lemma xsum_bound v l :
  0 <= v -> Forall (fun x => 0 <= x < 2 ^ v) l -> 0 <= xsum l < 2 ^ v.
Proof.
  intros Hv. induction 1 as [|x l Hx _ IH]; simpl.
  - pose proof (Z.pow_pos_nonneg 2 v ltac:(lia) Hv). lia.
  - apply lxor_bound; assumption.
Qed.

Lemma range_sum_bound o buffer i n v :
  0 <= v -> (forall x, 0 <= table_entry o x < 2 ^ v) ->
  0 <= range_sum o buffer i n < 2 ^ v.
Proof.
  intros Hv He. unfold range_sum. apply xsum_bound; [exact Hv|].
  apply Forall_forall. intros y Hy. apply in_map_iff in Hy as (x & <- & _).
  unfold byte_sum. apply xsum_bound; [exact Hv|].
  apply Forall_forall. intros z Hz. apply in_map_iff in Hz as (n' & <- & _).
  unfold term. destruct (Z.testbit _ _); [apply He|].
  pose proof (Z.pow_pos_nonneg 2 v ltac:(lia) Hv). lia.
Qed.

Lemma entry_bound blocksize o x :
  secded_ecc_new blocksize = Val o -> 0 <= table_entry o x < 2 ^ bitsvalid o.
Proof.
  intros Hnew.
  destruct (secded_ecc_new_spec _ _ Hnew) as (Hb & Htw & Htl & Hpos & Hv & Hle & _).
  pose proof (Z.pow_pos_nonneg 2 (bitsvalid o) ltac:(lia) ltac:(lia)) as Hp.
  unfold table_entry. destruct (ecc_table o !! Z.to_nat x) as [t|] eqn:Ht; simpl; [|lia].
  destruct (Hpos _ _ Ht) as [Hcp _].
  pose proof (lookup_lt_Some _ _ _ Ht) as Hlt. rewrite Htl in Hlt.
  pose proof (code_position_ge3 _ _ Hcp).
  split; [lia|].
  apply (code_position_small _ _ _ Hcp); lia.
Qed.


(** *** Properties of the class *)

(** X16.  The table a constructed [secded_ecc<blocksize>] holds has one
    entry per data bit, and entry [j] is the code position of data bit
    [j]: it is not a power of two (those positions are the parity bits),
    exactly [j + 1] of the positions [1 .. t] are not powers of two
    ([log2 t + 1] of them are), and later entries are larger. *)
Theorem ecc_table_holds_code_positions (blocksize : nat) (o : secded_ecc) :
  secded_ecc_new blocksize = Val o ->
  length (ecc_table o) = (blocksize * 8)%nat
  /\ forall j t, ecc_table o !! j = Some t ->
       _is_single_bit_set t = false
       /\ t - (Z.log2 t + 1) = Z.of_nat j + 1
       /\ forall j' t', (j < j')%nat -> ecc_table o !! j' = Some t' -> t < t'.
Proof.
  intros Hnew.
  destruct (secded_ecc_new_spec _ _ Hnew) as (_ & _ & Htl & Hpos & _).
  split; [exact Htl|]. intros j t Ht.
  destruct (Hpos j t Ht) as [Hcp _].
  split; [apply not_single_bit; apply Hcp|].
  split; [destruct Hcp as (_ & _ & Hf); lia|].
  intros j' t' Hjj Ht'. destruct (Hpos j' t' Ht') as [Hcp' _].
  apply (code_position_lt _ _ _ _ Hcp Hcp'). lia.
Qed.

Lemma ecc_table_holds_code_positions_witness :
  length (ecc_table demo_ecc) = (8 * 8)%nat
  /\ forall j t, ecc_table demo_ecc !! j = Some t ->
       _is_single_bit_set t = false
       /\ t - (Z.log2 t + 1) = Z.of_nat j + 1
       /\ forall j' t', (j < j')%nat -> ecc_table demo_ecc !! j' = Some t' -> t < t'.
Proof. apply (ecc_table_holds_code_positions 8 demo_ecc). vm_compute. reflexivity. Defined.

(** X17.  The constructor returns an object exactly for the block sizes
    up to 8189 bytes: from 8190 bytes on a code position exceeds what an
    [unsigned short] table entry holds, and the constructor throws (or
    never assigns [bitsvalid]). *)
Theorem secded_ecc_new_accepts_up_to_8189 (blocksize : nat) :
  (exists o, secded_ecc_new blocksize = Val o) <-> Z.of_nat blocksize <= 8189.
Proof.
  split.
  - intros [o Hnew]. apply (secded_ecc_new_spec _ _ Hnew).
  - apply secded_ecc_new_fits.
Qed.

(** X18.  [result_bits_valid()] of a constructed object is the number of
    parity bits of the Hamming bound, the least [v >= 1] with
    [8 * blocksize + v + 1 <= 2^v]; and the ECC of any part of a block,
    accumulated from zero, fits in that many bits. *)
Theorem result_bits_valid_bounds_ecc (blocksize : nat) (o : secded_ecc) :
  secded_ecc_new blocksize = Val o ->
  (1 <= result_bits_valid o
   /\ Z.of_nat blocksize * 8 + result_bits_valid o + 1 <= 2 ^ result_bits_valid o
   /\ forall q, 1 <= q < result_bits_valid o -> 2 ^ q < Z.of_nat blocksize * 8 + q + 1)
  /\ forall buffer n, (n <= blocksize)%nat -> (n <= length buffer)%nat ->
       exists e, ecc_partial o 0 buffer n = Val e
                 /\ 0 <= e < 2 ^ result_bits_valid o.
Proof.
  intros Hnew.
  destruct (secded_ecc_new_spec _ _ Hnew) as (_ & _ & Htl & _ & Hv & Hle & Hmin).
  unfold result_bits_valid. split; [split; [lia|split; assumption]|].
  intros buffer n Hn Hb.
  rewrite ecc_partial_spec by lia. eexists. split; [reflexivity|].
  rewrite Z.lxor_0_l. apply range_sum_bound; [lia|].
  intros x. apply (entry_bound blocksize), Hnew.
Qed.

Lemma result_bits_valid_bounds_ecc_witness :
  (1 <= result_bits_valid demo_ecc
   /\ Z.of_nat 8 * 8 + result_bits_valid demo_ecc + 1 <= 2 ^ result_bits_valid demo_ecc
   /\ forall q, 1 <= q < result_bits_valid demo_ecc -> 2 ^ q < Z.of_nat 8 * 8 + q + 1)
  /\ forall buffer n, (n <= 8)%nat -> (n <= length buffer)%nat ->
       exists e, ecc_partial demo_ecc 0 buffer n = Val e
                 /\ 0 <= e < 2 ^ result_bits_valid demo_ecc.
Proof. apply (result_bits_valid_bounds_ecc 8 demo_ecc). vm_compute. reflexivity. Defined.

(** X19.  For a block size below 8 or a multiple of 8, the fixed size
    routine returns, for a whole block, what the variable length routine
    returns for it; neither reads outside of the block or the table. *)
Theorem ecc_block_agrees_with_ecc_partial
    (blocksize : nat) (o : secded_ecc) (ecc : Z) (buffer : list Z) :
  secded_ecc_new blocksize = Val o ->
  length buffer = blocksize ->
  Z.of_nat blocksize < 8 \/ Z.of_nat blocksize mod 8 = 0 ->
  exists r, ecc_block o blocksize ecc buffer = Val r
            /\ ecc_partial o ecc buffer blocksize = Val r.
Proof.
  intros Hnew Hb Hm.
  destruct (secded_ecc_new_spec _ _ Hnew) as (_ & _ & Htl & _).
  rewrite ecc_block_spec by assumption.
  rewrite ecc_partial_spec by lia.
  eexists. split; reflexivity.
Qed.

Lemma ecc_block_agrees_with_ecc_partial_witness :
  exists r, ecc_block demo_ecc 8 0 demo_block = Val r
            /\ ecc_partial demo_ecc 0 demo_block 8 = Val r.
Proof.
  apply (ecc_block_agrees_with_ecc_partial 8 demo_ecc 0 demo_block).
  - vm_compute. reflexivity.
  - reflexivity.
  - right. reflexivity.
Defined.

(** X20.  For a block size of 8 or more that is not a multiple of 8, the
    fixed size routine reads past the end of the block: its last lump
    loads eight bytes where fewer are left. *)
Theorem ecc_block_reads_past_block
    (blocksize : nat) (o : secded_ecc) (ecc : Z) (buffer : list Z) :
  secded_ecc_new blocksize = Val o ->
  length buffer = blocksize ->
  8 <= Z.of_nat blocksize -> Z.of_nat blocksize mod 8 <> 0 ->
  ecc_block o blocksize ecc buffer = Stop (ReadPast Buffer (Z.of_nat blocksize)).
Proof.
  intros Hnew Hb Hge Hm.
  destruct (secded_ecc_new_spec _ _ Hnew) as (_ & _ & Htl & _).
  apply ecc_block_past; assumption.
Qed.

Lemma ecc_block_reads_past_block_witness :
  ecc_block demo_ecc12 12 0 [1; 2; 3; 4; 5; 6; 7; 8; 9; 10; 11; 12]
  = Stop (ReadPast Buffer (Z.of_nat 12)).
Proof.
  apply (ecc_block_reads_past_block 12 demo_ecc12 0).
  - vm_compute. reflexivity.
  - reflexivity.
  - vm_compute. discriminate.
  - vm_compute. discriminate.
Defined.

(** X21.  The variable length routine xors the ECC it is handed into the
    ECC of the buffer taken on its own: accumulating over an [ecc] is
    accumulating from zero and xoring [ecc] in, and it stops where the
    run from zero stops. *)
Theorem ecc_partial_accumulates
    (o : secded_ecc) (ecc : Z) (buffer : list Z) (length : nat) :
  ecc_partial o ecc buffer length
  = (r ← ecc_partial o 0 buffer length; Val (Z.lxor ecc r)).
Proof. unfold ecc_partial. apply ecc_bytes_from_0. Qed.

(** X22.  Inverting one bit of the buffer changes the ECC by the table
    entry of that bit, whatever the other bits are. *)
Theorem ecc_partial_of_inverted_bit
    (o : secded_ecc) (ecc : Z) (buffer : list Z) (n j : nat) (t : Z) :
  (n <= length buffer)%nat ->
  (n * 8 <= length (ecc_table o))%nat ->
  (j < n * 8)%nat ->
  ecc_table o !! j = Some t ->
  exists r, ecc_partial o ecc buffer n = Val r
            /\ ecc_partial o ecc (toggled (Z.of_nat j) buffer) n = Val (Z.lxor r t).
Proof.
  intros Hn Ht Hj Hl.
  rewrite !ecc_partial_spec by (rewrite ?toggled_length; lia).
  eexists. split; [reflexivity|].
  rewrite range_sum_toggled by lia.
  rewrite (entry_lookup _ _ _ Hl), Z.lxor_assoc. reflexivity.
Qed.

Lemma ecc_partial_of_inverted_bit_witness :
  exists r, ecc_partial demo_ecc 0 demo_block 8 = Val r
            /\ ecc_partial demo_ecc 0 (toggled (Z.of_nat 9) demo_block) 8
               = Val (Z.lxor r 14).
Proof.
  apply (ecc_partial_of_inverted_bit demo_ecc 0 demo_block 8 9 14).
  - vm_compute. lia.
  - vm_compute. lia.
  - vm_compute. lia.
  - reflexivity.
Defined.

(** X23.  [find_bad_bit] inverts the table: when the two ECCs differ by
    the table entry of data bit [j] it returns [j]; when their difference
    is no table entry (zero, a single parity bit, or anything else) it
    returns [(result_type) -1]. *)
Theorem find_bad_bit_inverts_table
    (blocksize : nat) (o : secded_ecc) (good_ecc bad_ecc : Z) :
  secded_ecc_new blocksize = Val o ->
  (forall j, ecc_table o !! j = Some (Z.lxor good_ecc bad_ecc) ->
     find_bad_bit blocksize good_ecc bad_ecc = Val (Z.of_nat j))
  /\ ((forall j, ecc_table o !! j <> Some (Z.lxor good_ecc bad_ecc)) ->
     find_bad_bit blocksize good_ecc bad_ecc = Val 4294967295).
Proof.
  intros Hnew.
  destruct (secded_ecc_new_spec _ _ Hnew) as (Hb & _ & Htl & Hpos & _).
  split.
  - intros j Hj. destruct (Hpos j _ Hj) as [Hcp _].
    pose proof (lookup_lt_Some _ _ _ Hj) as Hlt. rewrite Htl in Hlt.
    apply find_bad_bit_found; [exact Hb|lia|exact Hcp].
  - intros Hno. apply find_bad_bit_absent; [exact Hb|].
    intros j Hj Hcp.
    destruct (lookup_lt_is_Some_2 (ecc_table o) (Z.to_nat j) ltac:(lia)) as [t Ht].
    destruct (Hpos _ _ Ht) as [Hcp' _]. rewrite Z2Nat.id in Hcp' by lia.
    rewrite (code_position_inj _ _ _ Hcp' Hcp) in Ht.
    exact (Hno _ Ht).
Qed.

Lemma find_bad_bit_inverts_table_witness :
  (forall j, ecc_table demo_ecc !! j = Some (Z.lxor 107 101) ->
     find_bad_bit 8 107 101 = Val (Z.of_nat j))
  /\ ((forall j, ecc_table demo_ecc !! j <> Some (Z.lxor 107 101)) ->
     find_bad_bit 8 107 101 = Val 4294967295).
Proof. apply (find_bad_bit_inverts_table 8 demo_ecc 107 101). vm_compute. reflexivity. Defined.

(** X24.  [verify] accepts an intact block and heals any single inverted
    data bit: with the ECC of the block as it was written, [verify]
    returns [okay] and leaves the block alone; on the block with any one
    bit inverted it returns [healed] and leaves the block as written. *)
Theorem verify_heals_one_bit (blocksize : nat) (o : secded_ecc) (buffer : list Z) :
  secded_ecc_new blocksize = Val o ->
  Z.of_nat blocksize < 8 \/ Z.of_nat blocksize mod 8 = 0 ->
  length buffer = blocksize ->
  exists good_ecc,
    ecc_block o blocksize 0 buffer = Val good_ecc
    /\ verify o blocksize buffer good_ecc = Val (okay, buffer)
    /\ forall j, 0 <= j < Z.of_nat blocksize * 8 ->
         verify o blocksize (toggled j buffer) good_ecc = Val (healed, buffer).
Proof.
  intros Hnew Hm Hlen.
  destruct (secded_ecc_new_spec _ _ Hnew) as (Hb & _ & Htl & _).
  pose proof (ecc_block_spec o blocksize 0 buffer Hlen Htl Hm) as He.
  eexists. split; [exact He|]. split; [apply verify_okay, He|].
  intros j Hj.
  destruct (lookup_lt_is_Some_2 (ecc_table o) (Z.to_nat j) ltac:(lia)) as [t Ht].
  rewrite (verify_inverts o blocksize (toggled j buffer) _ (Z.to_nat j) t Hnew Hm).
  - rewrite Z2Nat.id by lia. rewrite toggled_toggled. reflexivity.
  - rewrite toggled_length. exact Hlen.
  - exact Ht.
  - rewrite ecc_block_spec; [|rewrite toggled_length; exact Hlen|exact Htl|exact Hm].
    rewrite range_sum_toggled by lia.
    rewrite <- (entry_lookup _ _ _ Ht), Z2Nat.id by lia.
    rewrite !Z.lxor_0_l. reflexivity.
Qed.

Lemma verify_heals_one_bit_witness :
  exists good_ecc,
    ecc_block demo_ecc 8 0 demo_block = Val good_ecc
    /\ verify demo_ecc 8 demo_block good_ecc = Val (okay, demo_block)
    /\ forall j, 0 <= j < Z.of_nat 8 * 8 ->
         verify demo_ecc 8 (toggled j demo_block) good_ecc = Val (healed, demo_block).
Proof.
  apply (verify_heals_one_bit 8 demo_ecc demo_block).
  - vm_compute. reflexivity.
  - right. reflexivity.
  - reflexivity.
Defined.

Lemma table_entry_of_position blocksize o j t :
  secded_ecc_new blocksize = Val o ->
  (j < blocksize * 8)%nat -> code_position (Z.of_nat j) t ->
  ecc_table o !! j = Some t.
Proof.
  intros Hnew Hj Hcp.
  destruct (secded_ecc_new_spec _ _ Hnew) as (_ & _ & Htl & Hpos & _).
  destruct (lookup_lt_is_Some_2 (ecc_table o) j ltac:(lia)) as [t' Ht].
  destruct (Hpos _ _ Ht) as [Hcp' _].
  rewrite (code_position_inj _ _ _ Hcp Hcp'). exact Ht.
Qed.

Lemma code_position_1 : code_position 1 5.
Proof.
  split; [lia|]. split; [|reflexivity]. apply (pow2_between 2); [lia|]. simpl. lia.
Qed.

Lemma code_position_2 : code_position 2 6.
Proof.
  split; [lia|]. split; [|reflexivity]. apply (pow2_between 2); [lia|]. simpl. lia.
Qed.

Lemma byte_of_toggled_first j buffer :
  0 <= j < 8 -> 0 < Z.of_nat (length buffer) ->
  byte_of (toggled j buffer) 0 = Z.lxor (byte_of buffer 0) (2 ^ j).
Proof.
  intros Hj Hb.
  pose proof (byte_of_toggled_eq j buffer ltac:(lia)) as H.
  rewrite Z.div_small, Z.mod_small in H by lia. apply H. exact Hb.
Qed.

(** X25.  [verify] does not detect every double error.  When bits 0 and
    1 of a block are inverted, the ECC differs from the good one by the
    table entry of bit 2 (3 xor 5 = 6): [verify] inverts bit 2 as well,
    finds the ECC matching, and reports [healed] for a block that now
    differs from the one written in three bits. *)
Theorem verify_misheals_two_bits (blocksize : nat) (o : secded_ecc) (buffer : list Z) :
  secded_ecc_new blocksize = Val o ->
  1 <= Z.of_nat blocksize ->
  Z.of_nat blocksize < 8 \/ Z.of_nat blocksize mod 8 = 0 ->
  length buffer = blocksize ->
  exists good_ecc,
    ecc_block o blocksize 0 buffer = Val good_ecc
    /\ verify o blocksize (toggled 0 (toggled 1 buffer)) good_ecc
       = Val (healed, toggled 2 (toggled 0 (toggled 1 buffer)))
    /\ toggled 2 (toggled 0 (toggled 1 buffer)) <> buffer.
Proof.
  intros Hnew H1 Hm Hlen.
  destruct (secded_ecc_new_spec _ _ Hnew) as (Hb & _ & Htl & _).
  pose proof (ecc_block_spec o blocksize 0 buffer Hlen Htl Hm) as He.
  pose proof (table_entry_of_position _ _ 0 3 Hnew ltac:(lia) code_position_0) as T0.
  pose proof (table_entry_of_position _ _ 1 5 Hnew ltac:(lia) code_position_1) as T1.
  pose proof (table_entry_of_position _ _ 2 6 Hnew ltac:(lia) code_position_2) as T2.
  eexists. split; [exact He|]. split.
  - rewrite (verify_inverts o blocksize _ _ 2 6 Hnew Hm); [reflexivity| |exact T2|].
    + rewrite !toggled_length. exact Hlen.
    + rewrite ecc_block_spec;
        [|rewrite !toggled_length; exact Hlen|exact Htl|exact Hm].
      rewrite !range_sum_toggled by (rewrite ?toggled_length; lia).
      pose proof (entry_lookup _ 0 _ T0) as E0. change (Z.of_nat 0) with 0 in E0.
      pose proof (entry_lookup _ 1 _ T1) as E1. change (Z.of_nat 1) with 1 in E1.
      rewrite E0, E1.
      rewrite !Z.lxor_0_l, !Z.lxor_assoc. reflexivity.
  - intros E.
    assert (Hb0 : byte_of (toggled 2 (toggled 0 (toggled 1 buffer))) 0
                  = Z.lxor (byte_of buffer 0) 7).
    { rewrite !byte_of_toggled_first by (rewrite ?toggled_length; lia).
      rewrite !Z.lxor_assoc. reflexivity. }
    rewrite E in Hb0.
    pose proof (lxor_cancel (byte_of buffer 0) 7) as Hc.
    rewrite <- Hb0, Z.lxor_nilpotent in Hc. discriminate.
Qed.

Lemma verify_misheals_two_bits_witness :
  exists good_ecc,
    ecc_block demo_ecc 8 0 demo_block = Val good_ecc
    /\ verify demo_ecc 8 (toggled 0 (toggled 1 demo_block)) good_ecc
       = Val (healed, toggled 2 (toggled 0 (toggled 1 demo_block)))
    /\ toggled 2 (toggled 0 (toggled 1 demo_block)) <> demo_block.
Proof.
  apply (verify_misheals_two_bits 8 demo_ecc demo_block).
  - vm_compute. reflexivity.
  - vm_compute. discriminate.
  - right. reflexivity.
  - reflexivity.
Defined.

End SecdedTheory.
